(** * Eye colour analyzer: an embedding of [server/colorAnalyzer.js]

    The analyzer turns a decoded RGBA raster into a list of dominant
    colours, names them against a reference table and picks a general
    eye-colour category.

    Conventions of the embedding.
    - A JavaScript Number that holds a fraction (HSL components, radii,
      Lab coordinates, distances) is a binary64 value: Rocq's primitive
      [float], whose [+ - * / sqrt] and comparisons are the IEEE-754
      operations JavaScript uses.
    - A Number that holds an integer (channel bytes, coordinates, indices,
      counts, percentages) is a [Z]; [JS.of_int] injects it into [float]
      where the source mixes it with fractions.
    - [Math.pow] is a builtin whose results the language leaves to the
      engine; it is a parameter of the definitions that call it.
    - The reference table [pantone-eye-colors.json] is data loaded at
      start-up; it is a parameter as well. *)

From Stdlib Require Import Reals Lra.
From Stdlib Require Import ZArith List String Ascii Lia Bool Floats Permutation Sorted.
Import ListNotations.

Set Warnings "-inexact-float".

(* ================================================================= *)
(** ** JavaScript numbers *)

Module JS.

Local Open Scope float_scope.

(** An integer as a Number (exact below 2^53 in magnitude). *)
Definition of_int (z : Z) : float :=
  if (z <? 0)%Z then - of_uint63 (Uint63Axioms.of_Z (- z))
  else of_uint63 (Uint63Axioms.of_Z z).

(** The signed mantissa of a finite value, its floor, and the floor of
    the value plus one half, as integers. *)
Definition SFfloor (x : spec_float) : Z :=
  match x with
  | S754_finite s m e => Z.shiftl (cond_Zopp s (Zpos m)) e
  | _ => 0%Z
  end.

Definition SFround_half_up (x : spec_float) : Z :=
  match x with
  | S754_finite s m e =>
      if (0 <=? e)%Z then Z.shiftl (cond_Zopp s (Zpos m)) e
      else Z.shiftr (cond_Zopp s (Zpos m) + 2 ^ (- e - 1)) (- e)
  | _ => 0%Z
  end.

(** The integer a Number holds (its floor when it holds a fraction). *)
Definition to_int (x : float) : Z := SFfloor (Prim2SF x).

(** [Math.floor]. *)
Definition Math_floor (x : float) : float :=
  match Prim2SF x with
  | S754_finite _ _ e => if (0 <=? e)%Z then x else of_int (SFfloor (Prim2SF x))
  | _ => x
  end.

(** [Math.round]: the nearest integer, a tie going to the larger one;
    NaN, the infinities and the zeros are returned unchanged. *)
Definition Math_round (x : float) : float :=
  match Prim2SF x with
  | S754_finite s _ e =>
      if (0 <=? e)%Z then x
      else
        let n := SFround_half_up (Prim2SF x) in
        if (n =? 0)%Z then (if s then neg_zero else zero) else of_int n
  | _ => x
  end.

(** [Math.max] and [Math.min] of two Numbers: NaN if either is NaN, and
    [+0] is larger than [-0]. *)
Definition Math_max2 (x y : float) : float :=
  if is_nan x || is_nan y then nan
  else if x <? y then y
  else if y <? x then x
  else if get_sign x then y else x.

Definition Math_min2 (x y : float) : float :=
  if is_nan x || is_nan y then nan
  else if x <? y then x
  else if y <? x then y
  else if get_sign x then x else y.

Definition Math_max (x y z : float) : float := Math_max2 (Math_max2 x y) z.
Definition Math_min (x y z : float) : float := Math_min2 (Math_min2 x y) z.

(** [x === y] and [x !== y] on Numbers. *)
Definition strict_eq (x y : float) : bool := x =? y.
Definition strict_neq (x y : float) : bool := negb (x =? y).

End JS.

(* ================================================================= *)
(** ** Strings *)

Module Str.

Definition lower_char (c : ascii) : ascii :=
  let n := nat_of_ascii c in
  if ((65 <=? n) && (n <=? 90))%nat then ascii_of_nat (n + 32) else c.

(** [s.toLowerCase()] on the ASCII range. *)
Fixpoint toLowerCase (s : string) : string :=
  match s with
  | EmptyString => EmptyString
  | String c s' => String (lower_char c) (toLowerCase s')
  end.

Fixpoint starts_with (p s : string) : bool :=
  match p with
  | EmptyString => true
  | String c p' =>
      match s with
      | EmptyString => false
      | String d s' => Ascii.eqb c d && starts_with p' s'
      end
  end.

(** [s.includes(p)]. *)
Fixpoint includes (s p : string) : bool :=
  starts_with p s ||
  match s with
  | EmptyString => false
  | String _ s' => includes s' p
  end.

(** [s.replace(/-/g, ' ')]. *)
Fixpoint dashes_to_spaces (s : string) : string :=
  match s with
  | EmptyString => EmptyString
  | String c s' =>
      String (if Ascii.eqb c "-" then " "%char else c) (dashes_to_spaces s')
  end.

End Str.

(* ================================================================= *)
(** ** Colour records *)

Record rgb := mkRgb { red : Z; green : Z; blue : Z }.

Record hsl := mkHsl { hue : float; sat : float; lum : float }.

Record lab := mkLab { lab_L : float; lab_a : float; lab_b : float }.

Record category := mkCategory { cat_name : string; cat_hex : string }.

(** [EYE_COLOR_CATEGORIES]. *)
Module EYE_COLOR_CATEGORIES.
Definition blue := mkCategory "Blue" "#4682B4".
Definition green := mkCategory "Green" "#228B22".
Definition hazel := mkCategory "Hazel" "#8E7618".
Definition brown := mkCategory "Brown" "#634E34".
Definition gray := mkCategory "Gray" "#708090".
Definition amber := mkCategory "Amber" "#FFBF00".
Definition violet := mkCategory "Violet" "#5A5C9E".
End EYE_COLOR_CATEGORIES.

(* ================================================================= *)
(** ** Hex strings *)

(** The digit [n.toString(16)] writes for [0 <= n < 16]. *)
Definition hex_char (n : Z) : ascii :=
  match n with
  | 0 => "0" | 1 => "1" | 2 => "2" | 3 => "3" | 4 => "4"
  | 5 => "5" | 6 => "6" | 7 => "7" | 8 => "8" | 9 => "9"
  | 10 => "a" | 11 => "b" | 12 => "c" | 13 => "d" | 14 => "e"
  | _ => "f"
  end%Z%char.

(** The value of a character of the class [[a-f\d]] under the [i] flag,
    by its character code: a digit, a lower-case or an upper-case
    letter up to F. *)
Definition hex_digit (c : ascii) : option Z :=
  let n := Z.of_nat (nat_of_ascii c) in
  if (48 <=? n)%Z && (n <=? 57)%Z then Some (n - 48)%Z
  else if (97 <=? n)%Z && (n <=? 102)%Z then Some (n - 87)%Z
  else if (65 <=? n)%Z && (n <=? 70)%Z then Some (n - 55)%Z
  else None.

(** [x.toString(16)] for a channel already clamped to [0, 255]. *)
Definition toString16 (n : Z) : string :=
  if (n <? 16)%Z then String (hex_char n) EmptyString
  else String (hex_char (n / 16)) (String (hex_char (n mod 16)) EmptyString).

(** One element of the [map] in [rgbToHex]: clamp, write in base 16, pad
    to two digits.  The channels the analyzer passes are integers, on
    which [Math.round] is the identity. *)
Definition channel_hex (x : Z) : string :=
  let hex := toString16 (Z.max 0 (Z.min 255 x)) in
  if (String.length hex =? 1)%nat then String "0" hex else hex.

Definition rgbToHex (r g b : Z) : string :=
  String "#" (channel_hex r ++ channel_hex g ++ channel_hex b).

(** [parseInt(s, 16)] on a two-character capture group. *)
Definition parse_pair (c1 c2 : ascii) : option Z :=
  match hex_digit c1, hex_digit c2 with
  | Some h, Some l => Some (16 * h + l)%Z
  | _, _ => None
  end.

(** The six characters the three capture groups must cover. *)
Definition parse_six (s : string) : option rgb :=
  match s with
  | String c1 (String c2 (String c3 (String c4 (String c5 (String c6 EmptyString))))) =>
      match parse_pair c1 c2, parse_pair c3 c4, parse_pair c5 c6 with
      | Some r, Some g, Some b => Some (mkRgb r g b)
      | _, _, _ => None
      end
  | _ => None
  end.

(** [hexToRgb]: [/^#?([a-f\d]{2})([a-f\d]{2})([a-f\d]{2})$/i], [None]
    standing for [null]. *)
Definition hexToRgb (hex : string) : option rgb :=
  match hex with
  | String "#" rest => parse_six rest
  | _ => parse_six hex
  end.

(* ================================================================= *)
(** ** HSL and the hue-band classifier *)

Section HSL.

Local Open Scope float_scope.
Import JS.

Definition getHSL (r g b : Z) : hsl :=
  let rn := of_int r / 255 in
  let gn := of_int g / 255 in
  let bn := of_int b / 255 in
  let max := Math_max rn gn bn in
  let min := Math_min rn gn bn in
  let l := (max + min) / 2 in
  if strict_neq max min then
    let d := max - min in
    let s := if 0.5 <? l then d / (2 - max - min) else d / (max + min) in
    let h :=
      if strict_eq max rn then ((gn - bn) / d + (if gn <? bn then 6 else 0)) / 6
      else if strict_eq max gn then (bn - rn) / d + 2 / 6
      else (rn - gn) / d + 4 / 6 in
    mkHsl (h * 360) s l
  else mkHsl 0 0 l.

(** The rules of [classifyEyeColor] once the colour has parsed. *)
Definition classify_hsl (c : hsl) : category :=
  let hue := hue c in
  let saturation := sat c in
  if saturation <? 0.1 then EYE_COLOR_CATEGORIES.gray
  else if (260 <=? hue) && (hue <=? 300) then EYE_COLOR_CATEGORIES.violet
  else if (200 <=? hue) && (hue <? 260) then EYE_COLOR_CATEGORIES.blue
  else if (170 <=? hue) && (hue <? 200) then
    (if 0.15 <? saturation then EYE_COLOR_CATEGORIES.green
     else EYE_COLOR_CATEGORIES.blue)
  else if (80 <=? hue) && (hue <? 170) then EYE_COLOR_CATEGORIES.green
  else if (50 <=? hue) && (hue <? 80) then EYE_COLOR_CATEGORIES.hazel
  else if (35 <=? hue) && (hue <? 50) then EYE_COLOR_CATEGORIES.amber
  else if (20 <=? hue) && (hue <? 35) then EYE_COLOR_CATEGORIES.brown
  else if (0 <=? hue) && (hue <? 20) then EYE_COLOR_CATEGORIES.brown
  else if (340 <=? hue) && (hue <=? 360) then EYE_COLOR_CATEGORIES.brown
  else if (210 <=? hue) && (hue <=? 270) && (saturation <? 0.25)
    then EYE_COLOR_CATEGORIES.blue
  else EYE_COLOR_CATEGORIES.gray.

Definition classifyEyeColor (hex : string) : category :=
  match hexToRgb hex with
  | None => EYE_COLOR_CATEGORIES.gray
  | Some c => classify_hsl (getHSL (red c) (green c) (blue c))
  end.

End HSL.

(* ================================================================= *)
(** ** Stable sorting and the other array helpers *)

(** [Array.prototype.sort] with a comparator: the sort is stable, and
    [before a b] holds when the comparator's result on [(a, b)] is
    negative.  An element is placed after the elements that go before it
    and ahead of every other one that followed it in the input. *)
Section Sort.

Context {A : Type} (before : A -> A -> bool).

Fixpoint insert_by (x : A) (l : list A) : list A :=
  match l with
  | [] => [x]
  | y :: l' => if before y x then y :: insert_by x l' else x :: y :: l'
  end.

Definition sort_by (l : list A) : list A := fold_right insert_by [] l.

End Sort.

(** [lo, lo+1, ..., hi-1] and [lo, lo+2, ...] below [hi]: the values of
    the counter of a [for] loop with step 1 and with step 2. *)
Definition range (lo hi : Z) : list Z :=
  map (fun k => lo + Z.of_nat k)%Z (seq 0 (Z.to_nat (hi - lo))).

Definition stride2 (lo hi : Z) : list Z :=
  map (fun k => lo + 2 * Z.of_nat k)%Z (seq 0 (Z.to_nat ((hi - lo + 1) / 2))).

(** Row-major pairs [(x, y)]: the outer loop runs over [ys], the inner
    one over [xs]. *)
Definition grid (xs ys : list Z) : list (Z * Z) :=
  flat_map (fun y => map (fun x => (x, y)) xs) ys.

Fixpoint filter_map {A B : Type} (f : A -> option B) (l : list A) : list B :=
  match l with
  | [] => []
  | x :: l' =>
      match f x with
      | Some y => y :: filter_map f l'
      | None => filter_map f l'
      end
  end.

Definition sumZ (l : list Z) : Z := fold_left Z.add l 0%Z.

(* ================================================================= *)
(** ** Region sampler *)

Section Sampler.

Local Open Scope float_scope.
Import JS.

(** The raster: R, G, B, A bytes interleaved, row-major. *)
Variable pixels : list Z.
Variables width height : Z.

Definition bytesPerPixel : Z := 4.

(** [pixels[i]] below [pixels.length]. *)
Definition px (i : Z) : Z := nth (Z.to_nat i) pixels 0%Z.

Definition pixels_length : Z := Z.of_nat (List.length pixels).

Record pupil := mkPupil { bestX : float; bestY : float; bestLum : float }.

Definition searchRadius : float := of_int (Z.min width height) * 0.35.

(** The body of the inner loop of [findPupilCenter]. *)
Definition visit (dx dy : float) (st : pupil) : pupil :=
  let cx := of_int width / 2 in
  let cy := of_int height / 2 in
  let x := Math_round (cx + dx) in
  let y := Math_round (cy + dy) in
  if (x <? 0) || (of_int width <=? x) || (y <? 0) || (of_int height <=? y) then st
  else
    let i := ((to_int y * width + to_int x) * bytesPerPixel)%Z in
    if (pixels_length <=? i + 2)%Z then st
    else
      let luminance := lum (getHSL (px i) (px (i + 1)) (px (i + 2))) in
      if luminance <? bestLum st then mkPupil x y luminance else st.

(** The two [for] loops, the counter advancing by [step = 2] from
    [-searchRadius] while it is at most [searchRadius].  [fuel] bounds
    the number of turns; a loop takes fewer than
    [min(width, height) + 1] of them. *)
Fixpoint scan_dx (fuel : nat) (dx dy : float) (st : pupil) : pupil :=
  match fuel with
  | O => st
  | S n =>
      if dx <=? searchRadius then scan_dx n (dx + 2) dy (visit dx dy st) else st
  end.

Definition scan_fuel : nat := S (Z.to_nat (Z.min width height)).

Fixpoint scan_dy (fuel : nat) (dy : float) (st : pupil) : pupil :=
  match fuel with
  | O => st
  | S n =>
      if dy <=? searchRadius
      then scan_dy n (dy + 2) (scan_dx scan_fuel (- searchRadius) dy st)
      else st
  end.

Definition findPupilCenter : float * float :=
  let st := scan_dy scan_fuel (- searchRadius)
              (mkPupil (of_int width / 2) (of_int height / 2) 1) in
  (bestX st, bestY st).

(** The body of the annulus loop of [getDominantColors]: the sample the
    pixel at [(x, y)] contributes, if any. *)
Definition annulus_pixel (c : float * float) (xy : Z * Z) : option rgb :=
  let '(cx, cy) := c in
  let '(x, y) := xy in
  let maxRadius := of_int (Z.min width height) * 0.45 in
  let innerRadius := maxRadius * 0.22 in
  let outerRadius := maxRadius * 0.85 in
  let dx := of_int x - cx in
  let dy := of_int y - cy in
  let r := sqrt (dx * dx + dy * dy) in
  if (r <? innerRadius) || (outerRadius <? r) then None
  else
    let i := ((y * width + x) * bytesPerPixel)%Z in
    if (pixels_length <=? i + 3)%Z then None
    else
      let a := match nth_error pixels (Z.to_nat (i + 3)) with
               | Some v => v
               | None => 255%Z
               end in
      if (a <? 200)%Z then None
      else
        let c := getHSL (px i) (px (i + 1)) (px (i + 2)) in
        if (0.88 <? lum c) || (lum c <? 0.08) then None
        else if sat c <? 0.04 then None
        else Some (mkRgb (px i) (px (i + 1)) (px (i + 2))).

Definition annulus_samples : list rgb :=
  filter_map (annulus_pixel findPupilCenter)
    (grid (range 0 width) (range 0 height)).

(** The body of the fallback loop. *)
Definition fallback_pixel (xy : Z * Z) : option rgb :=
  let '(x, y) := xy in
  let i := ((y * width + x) * bytesPerPixel)%Z in
  if (pixels_length <=? i + 3)%Z then None
  else
    let a := px (i + 3) in
    if (a <? 200)%Z then None
    else
      let c := getHSL (px i) (px (i + 1)) (px (i + 2)) in
      if (0.92 <? lum c) || (lum c <? 0.06) || (sat c <? 0.05) then None
      else Some (mkRgb (px i) (px (i + 1)) (px (i + 2))).

Definition xMin : Z := to_int (Math_floor (of_int width * 0.25)).
Definition xMax : Z := to_int (Math_floor (of_int width * 0.75)).
Definition yMin : Z := to_int (Math_floor (of_int height * 0.25)).
Definition yMax : Z := to_int (Math_floor (of_int height * 0.75)).

Definition fallback_grid : list (Z * Z) :=
  grid (stride2 xMin xMax) (stride2 yMin yMax).

Definition fallback_samples : list rgb := filter_map fallback_pixel fallback_grid.

(** The array [samples] when the clustering starts: the fallback loop
    pushes onto the array the annulus loop filled. *)
Definition collect_samples : list rgb :=
  if (List.length annulus_samples <? 20)%nat
  then annulus_samples ++ fallback_samples
  else annulus_samples.

End Sampler.

(* ================================================================= *)
(** ** Lab, the reference matcher, the clusterer and the report *)

Record pantone := mkPantone { p_name : string; p_hex : string }.

Record pantone_match :=
  mkMatch { m_name : string; m_hex : string; m_distance : float }.

Record dominant := mkDominant { d_hex : string; percentage : Z }.

Record shade := mkShade { s_name : string; s_percentage : Z; s_hex : string }.

Record bucket := mkBucket { rSum : Z; gSum : Z; bSum : Z; count : Z }.

Record mean_colour := mkMean { mean_r : Z; mean_g : Z; mean_b : Z; mean_count : Z }.

Record general := mkGeneral { g_hex : string; g_category : category }.

Record breakdown_entry :=
  mkEntry { b_hex : string; b_percentage : Z; shadeName : option string;
            b_pantoneMatches : list pantone_match }.

Record report :=
  mkReport { generalColor_name : string; generalColor_hex : string;
             breakdown : list breakdown_entry; shadeBreakdown : list shade;
             pantoneMatches : list pantone_match; colorCode : string }.

(** [a || b] on strings: [null] and the empty string are falsy. *)
Definition or_string (a : option string) (b : string) : string :=
  match a with
  | Some EmptyString | None => b
  | Some s => s
  end.

Definition brownNames : list string :=
  ["brown"; "chocolate"; "caramel"; "walnut"; "mocha"; "espresso"; "chestnut";
   "sienna"; "umber"; "sepia"; "coffee"; "hazel"; "hazelnut"; "toffee";
   "golden brown"; "amber brown"; "cocoa"; "black olive"]%string.

Definition greenNames : list string :=
  ["green"; "sage"; "olive"; "forest"; "sea"; "moss"; "fern"; "jade"; "teal";
   "emerald"; "celadon"; "gray green"; "green haze"; "pine"]%string.

Definition is_brown (name : string) : bool :=
  existsb (fun b => Str.includes (Str.toLowerCase name) b) brownNames.

Definition is_green (name : string) : bool :=
  existsb (fun g => Str.includes (Str.toLowerCase name) g) greenNames.

(** The two sums the loop over [namedBreakdown] accumulates. *)
Definition brownPct (namedBreakdown : list shade) : Z :=
  sumZ (map s_percentage (filter (fun e => is_brown (s_name e)) namedBreakdown)).

Definition greenPct (namedBreakdown : list shade) : Z :=
  sumZ (map s_percentage (filter (fun e => is_green (s_name e)) namedBreakdown)).

Section Analyzer.

Local Open Scope float_scope.
Import JS.

Variable Math_pow : float -> float -> float.
Variable pantoneData : list pantone.

Definition gamma (c : float) : float :=
  if 0.04045 <? c then Math_pow ((c + 0.055) / 1.055) 2.4 else c / 12.92.

Definition lab_f (t : float) : float :=
  if 0.008856 <? t then Math_pow t (1 / 3) else 7.787 * t + 16 / 116.

Definition rgbToLab (r g b : Z) : lab :=
  let rn := gamma (of_int r / 255) in
  let gn := gamma (of_int g / 255) in
  let bn := gamma (of_int b / 255) in
  let x := lab_f ((rn * 0.4124 + gn * 0.3576 + bn * 0.1805) / 0.95047) in
  let y := lab_f ((rn * 0.2126 + gn * 0.7152 + bn * 0.0722) / 1.0) in
  let z := lab_f ((rn * 0.0193 + gn * 0.1192 + bn * 0.9505) / 1.08883) in
  mkLab (116 * y - 16) (500 * (x - y)) (200 * (y - z)).

Definition lab_distance (l1 l2 : lab) : float :=
  sqrt (Math_pow (lab_L l1 - lab_L l2) 2
        + Math_pow (lab_a l1 - lab_a l2) 2
        + Math_pow (lab_b l1 - lab_b l2) 2).

Definition deltaE76 (hex1 hex2 : string) : float :=
  match hexToRgb hex1, hexToRgb hex2 with
  | Some rgb1, Some rgb2 =>
      lab_distance (rgbToLab (red rgb1) (green rgb1) (blue rgb1))
                   (rgbToLab (red rgb2) (green rgb2) (blue rgb2))
  | _, _ => infinity
  end.

(** The comparator [(a, b) => a.distance - b.distance]. *)
Definition closer (a b : pantone * float) : bool := snd a - snd b <? 0.

Definition withDistance (hex : string) : list (pantone * float) :=
  map (fun p => (p, deltaE76 hex (p_hex p))) pantoneData.

Definition to_match (e : pantone * float) : pantone_match :=
  mkMatch (Str.dashes_to_spaces (p_name (fst e))) (p_hex (fst e))
          (Math_round (snd e)).

Definition findPantoneMatches (hex : string) (count : nat) : list pantone_match :=
  map to_match (firstn count (sort_by closer (withDistance hex))).

Definition findBestPantoneName (hex : string) : option string :=
  match findPantoneMatches hex 1 with
  | m :: _ => Some (m_name m)
  | [] => None
  end.

(** *** Shade clusterer *)

(** The three numbers of a bucket key, and whether two keys are the same
    string: a Number prints the same for [+0] and [-0], and [NaN] prints
    as itself. *)
Definition bucket_key (c : rgb) : float * float * float :=
  let l := rgbToLab (red c) (green c) (blue c) in
  (Math_floor (lab_L l / 4),
   Math_floor ((lab_a l + 128) / 16),
   Math_floor ((lab_b l + 128) / 16)).

Definition same_number (x y : float) : bool :=
  (x =? y) || (is_nan x && is_nan y).

Definition same_key (k1 k2 : float * float * float) : bool :=
  let '(a1, b1, c1) := k1 in
  let '(a2, b2, c2) := k2 in
  same_number a1 a2 && same_number b1 b2 && same_number c1 c2.

Definition add_to_bucket (c : rgb) (v : bucket) : bucket :=
  mkBucket (rSum v + red c) (gSum v + green c) (bSum v + blue c) (count v + 1).

(** One turn of the loop over [samples]: the [Map] keeps its keys in
    insertion order. *)
Fixpoint add_sample (k : float * float * float) (c : rgb)
    (buckets : list (float * float * float * bucket))
    : list (float * float * float * bucket) :=
  match buckets with
  | [] => [(k, add_to_bucket c (mkBucket 0 0 0 0))]
  | (k', v) :: rest =>
      if same_key k k' then (k', add_to_bucket c v) :: rest
      else (k', v) :: add_sample k c rest
  end.

Definition fill_buckets (samples : list rgb) : list (float * float * float * bucket) :=
  fold_left (fun buckets c => add_sample (bucket_key c) c buckets) samples [].

Definition bucket_mean (e : float * float * float * bucket) : mean_colour :=
  let v := snd e in
  mkMean (to_int (Math_round (of_int (rSum v) / of_int (count v))))
         (to_int (Math_round (of_int (gSum v) / of_int (count v))))
         (to_int (Math_round (of_int (bSum v) / of_int (count v))))
         (count v).

(** The comparator [(a, b) => b.count - a.count] on integer counts. *)
Definition more_pixels (a b : mean_colour) : bool :=
  (mean_count b - mean_count a <? 0)%Z.

Definition percent (n total : Z) : Z :=
  to_int (Math_round (of_int n / of_int total * 100)).

(** The part of [getDominantColors] after the sampling. *)
Definition cluster (numColors : nat) (samples : list rgb) : list dominant :=
  let sorted :=
    firstn numColors (sort_by more_pixels (map bucket_mean (fill_buckets samples))) in
  let total := sumZ (map mean_count sorted) in
  map (fun s => mkDominant (rgbToHex (mean_r s) (mean_g s) (mean_b s))
                           (percent (mean_count s) total)) sorted.

Definition getDominantColors (pixels : list Z) (width height : Z) (numColors : nat)
    : list dominant :=
  match collect_samples pixels width height with
  | [] => [mkDominant "#708090" 100]
  | samples => cluster numColors samples
  end.

(** *** Named shades and the general colour *)

Fixpoint add_shade (key : string) (c : dominant) (byName : list (string * shade))
    : list (string * shade) :=
  match byName with
  | [] => [(key, mkShade key (0 + percentage c) (d_hex c))]
  | (k, e) :: rest =>
      if String.eqb key k
      then (k, mkShade (s_name e) (s_percentage e + percentage c) (d_hex c)) :: rest
      else (k, e) :: add_shade key c rest
  end.

(** The comparator [(a, b) => b.percentage - a.percentage]. *)
Definition larger_share (a b : shade) : bool :=
  (s_percentage b - s_percentage a <? 0)%Z.

(** The percentages summed here are integers (each one a [Math.round]
    result of [getDominantColors], or the literal 100), so the step
    [.map(e => ({ ...e, percentage: Math.round(e.percentage) }))] leaves
    every entry as it is and has no counterpart below. *)
Definition buildNamedShadeBreakdown (dominantColors : list dominant) : list shade :=
  let byName :=
    fold_left
      (fun byName c =>
         add_shade (or_string (findBestPantoneName (d_hex c)) (d_hex c)) c byName)
      dominantColors [] in
  sort_by larger_share
    (filter (fun e => (0 <? s_percentage e)%Z) (map snd byName)).

(** The loop over [dominantColors.slice(0, 6)]: the running
    [(best, bestSat)]. *)
Definition more_saturated (st : dominant * float) (c : dominant) : dominant * float :=
  match hexToRgb (d_hex c) with
  | None => st
  | Some v =>
      let s := sat (getHSL (red v) (green v) (blue v)) in
      if snd st <? s then (c, s) else st
  end.

Definition pickGeneralColor (dominantColors : list dominant)
    (namedBreakdown : list shade) : general :=
  match dominantColors with
  | [] => mkGeneral "#708090" EYE_COLOR_CATEGORIES.gray
  | first :: _ =>
      if (15 <=? brownPct namedBreakdown)%Z && (15 <=? greenPct namedBreakdown)%Z
      then mkGeneral (cat_hex EYE_COLOR_CATEGORIES.hazel) EYE_COLOR_CATEGORIES.hazel
      else
        let best :=
          fst (fold_left more_saturated (firstn 6 dominantColors) (first, 0)) in
        mkGeneral (d_hex best) (classifyEyeColor (d_hex best))
  end.

(** [analyzeEyeColor] from the resized raster on: what follows the two
    calls into the image codec. *)
Definition analyze (data : list Z) (resizedW resizedH : Z) : report :=
  let dominantColors := getDominantColors data resizedW resizedH 10 in
  let shades := buildNamedShadeBreakdown dominantColors in
  let g := pickGeneralColor dominantColors shades in
  mkReport
    (cat_name (g_category g)) (g_hex g)
    (map (fun c => mkEntry (d_hex c) (percentage c)
                     (findBestPantoneName (d_hex c))
                     (findPantoneMatches (d_hex c) 2)) dominantColors)
    shades
    (findPantoneMatches (cat_hex (g_category g)) 5)
    (g_hex g).

End Analyzer.

(* ================================================================= *)
(** ** The upload endpoint ([server/index.js]) *)

Module Server.

(** [allowed.test(file.mimetype)] with
    [allowed = /image\/(jpeg|jpg|png|webp)/]: the pattern has no anchor
    and no flag, so it looks for one of four strings anywhere in the
    type. *)
Definition allowed (mimetype : string) : bool :=
  existsb (fun t => Str.includes mimetype ("image/" ++ t))
          ["jpeg"; "jpg"; "png"; "webp"]%string.

(** [fileFilter]: what the callback [cb] is given, [inr true] for
    [cb(null, true)] and [inl message] for [cb(new Error(message))]. *)
Definition fileFilter (mimetype : string) : string + bool :=
  if allowed mimetype then inr true
  else inl "Only JPEG, PNG, and WebP images are allowed."%string.

(** The class [\w]: a digit, a letter or the underscore. *)
Definition word_char (c : ascii) : bool :=
  let n := nat_of_ascii c in
  ((48 <=? n) && (n <=? 57) || (65 <=? n) && (n <=? 90) ||
   (97 <=? n) && (n <=? 122) || (n =? 95))%nat.

(** What is left of [s] after its longest prefix of [\w] characters. *)
Fixpoint skip_word (s : string) : string :=
  match s with
  | String c s' => if word_char c then skip_word s' else s
  | EmptyString => s
  end.

(** [s] without the prefix [p], when it starts with it. *)
Fixpoint drop_prefix (p s : string) : option string :=
  match p with
  | EmptyString => Some s
  | String c p' =>
      match s with
      | String d s' => if Ascii.eqb c d then drop_prefix p' s' else None
      | EmptyString => None
      end
  end.

(** [image.replace(/^data:image\/\w+;base64,/, '')].  The run [\w+] is
    greedy and [;] is not a [\w] character, so the pattern matches
    exactly when the longest run is not empty and [;base64,] follows
    it. *)
Definition strip_data_url (image : string) : string :=
  match drop_prefix "data:image/" image with
  | Some (String c rest) =>
      if word_char c then
        match drop_prefix ";base64," (skip_word rest) with
        | Some payload => payload
        | None => image
        end
      else image
  | _ => image
  end.

End Server.

(* ================================================================= *)
(** ** The entry point *)

(** [d || 400] on a dimension of the metadata, [None] standing for
    [undefined]: a missing dimension and 0 are falsy. *)
Definition or_400 (d : option Z) : Z :=
  match d with
  | Some 0%Z | None => 400%Z
  | Some w => w
  end.

Section EntryPoint.

Variable Math_pow : float -> float -> float.
Variable pantoneData : list pantone.

(** The two calls into the image codec, which may reject: the width and
    the height of the metadata, and the RGBA bytes of the image resized
    to a given size. *)
Variable sharp_metadata : list Z -> option (option Z * option Z).
Variable sharp_resize_raw : list Z -> Z -> Z -> option (list Z).

(** [analyzeEyeColor]; [None] stands for a rejected promise. *)
Definition analyzeEyeColor (imageBuffer : list Z) : option report :=
  match sharp_metadata imageBuffer with
  | None => None
  | Some metadata =>
      let width := or_400 (fst metadata) in
      let height := or_400 (snd metadata) in
      let resizedW := Z.min 280 width in
      let resizedH := Z.min 280 height in
      match sharp_resize_raw imageBuffer resizedW resizedH with
      | None => None
      | Some data => Some (analyze Math_pow pantoneData data resizedW resizedH)
      end
  end.

End EntryPoint.

(* ================================================================= *)
(** ** The earlier analyzer

    The source file holds a second, earlier text of the analyzer: RGB
    distance instead of Lab, no violet band, a central rectangle for the
    sampling and buckets of 24 levels per channel.  It shares [rgbToHex],
    [hexToRgb] and [getHSL] with the later text, word for word. *)

Module Legacy.

Local Open Scope float_scope.
Import JS.

Record category :=
  mkCategory { cat_name : string; cat_hex : string; keywords : list string }.

Module EYE_COLOR_CATEGORIES.
Definition blue := mkCategory "Blue" "#4682B4"
  ["blue"; "slate"; "steel"; "navy"; "powder"; "sky"; "ice"; "periwinkle"; "dusk"]%string.
Definition green := mkCategory "Green" "#228B22"
  ["green"; "sage"; "olive"; "forest"; "sea"; "moss"; "fern"; "jade"; "teal";
   "emerald"; "celadon"]%string.
Definition hazel := mkCategory "Hazel" "#8E7618"
  ["hazel"; "amber"; "gold"; "brown"; "green"; "olive"; "tan"; "khaki"; "honey";
   "mustard"]%string.
Definition brown := mkCategory "Brown" "#634E34"
  ["brown"; "chocolate"; "caramel"; "walnut"; "mocha"; "espresso"; "chestnut";
   "sienna"; "umber"; "sepia"; "coffee"]%string.
Definition gray := mkCategory "Gray" "#708090"
  ["gray"; "grey"; "slate"; "charcoal"; "silver"; "stone"; "dove"; "ash"; "pewter";
   "fog"; "mist"]%string.
Definition amber := mkCategory "Amber" "#FFBF00"
  ["amber"; "gold"; "honey"; "mustard"; "wheat"; "tan"]%string.
End EYE_COLOR_CATEGORIES.

(** The rules of the earlier [classifyEyeColor] once the colour has
    parsed. *)
Definition classify_hsl (c : hsl) : category :=
  let hue := hue c in
  let saturation := sat c in
  if saturation <? 0.1 then EYE_COLOR_CATEGORIES.gray
  else if (200 <=? hue) && (hue <=? 280) then EYE_COLOR_CATEGORIES.blue
  else if (170 <=? hue) && (hue <? 200) then
    (if 0.15 <? saturation then EYE_COLOR_CATEGORIES.green
     else EYE_COLOR_CATEGORIES.blue)
  else if (80 <=? hue) && (hue <? 170) then EYE_COLOR_CATEGORIES.green
  else if (50 <=? hue) && (hue <? 80) then EYE_COLOR_CATEGORIES.hazel
  else if (35 <=? hue) && (hue <? 50) then EYE_COLOR_CATEGORIES.amber
  else if (20 <=? hue) && (hue <? 35) then EYE_COLOR_CATEGORIES.brown
  else if (0 <=? hue) && (hue <? 20) then EYE_COLOR_CATEGORIES.brown
  else if (340 <=? hue) && (hue <=? 360) then EYE_COLOR_CATEGORIES.brown
  else if (210 <=? hue) && (hue <=? 270) && (saturation <? 0.25)
    then EYE_COLOR_CATEGORIES.blue
  else EYE_COLOR_CATEGORIES.gray.

Definition classifyEyeColor (hex : string) : category :=
  match hexToRgb hex with
  | None => EYE_COLOR_CATEGORIES.gray
  | Some c => classify_hsl (getHSL (red c) (green c) (blue c))
  end.

(** A bucket of the earlier clusterer: the centre of its cell, and the
    count. *)
Record cell := mkCell { cell_r : float; cell_g : float; cell_b : float; cell_count : Z }.

Record general := mkGeneral { g_hex : string; g_category : category }.

Record breakdown_entry :=
  mkEntry { b_hex : string; b_percentage : Z; b_pantoneMatches : list pantone_match }.

Record report :=
  mkReport { generalColor_name : string; generalColor_hex : string;
             breakdown : list breakdown_entry;
             pantoneMatches : list pantone_match; colorCode : string }.

Section Sampler.

Variable pixels : list Z.
Variables width height : Z.

(** The body of the loop over the central rectangle. *)
Definition centre_pixel (xy : Z * Z) : option rgb :=
  let '(x, y) := xy in
  let i := ((y * width + x) * bytesPerPixel)%Z in
  if (pixels_length pixels <=? i + 3)%Z then None
  else
    let a := match nth_error pixels (Z.to_nat (i + 3)) with
             | Some v => v
             | None => 255%Z
             end in
    if (a <? 200)%Z then None
    else
      let c := getHSL (px pixels i) (px pixels (i + 1)) (px pixels (i + 2)) in
      if (0.92 <? lum c) || (lum c <? 0.06) then None
      else if sat c <? 0.05 then None
      else Some (mkRgb (px pixels i) (px pixels (i + 1)) (px pixels (i + 2))).

Definition centre_samples : list rgb :=
  filter_map centre_pixel
    (grid (stride2 (xMin width) (xMax width)) (stride2 (yMin height) (yMax height))).

(** The body of the loop over the whole buffer, [i] advancing by
    [bytesPerPixel * 2]. *)
Definition buffer_pixel (k : Z) : option rgb :=
  let i := (k * (bytesPerPixel * 2))%Z in
  if (pixels_length pixels <=? i + 3)%Z then None
  else
    let a := px pixels (i + 3) in
    if (a <? 200)%Z then None
    else
      let c := getHSL (px pixels i) (px pixels (i + 1)) (px pixels (i + 2)) in
      if (0.92 <? lum c) || (lum c <? 0.06) || (sat c <? 0.05) then None
      else Some (mkRgb (px pixels i) (px pixels (i + 1)) (px pixels (i + 2))).

Definition buffer_samples : list rgb :=
  filter_map buffer_pixel (range 0 ((pixels_length pixels + 7) / 8)).

Definition collect_samples : list rgb :=
  match centre_samples with
  | [] => buffer_samples
  | samples => samples
  end.

End Sampler.

Definition bucketSize : float := 24.

(** The three numbers of the key of a sample, and the centre of its
    cell. *)
Definition cell_key (c : rgb) : float * float * float :=
  (Math_floor (of_int (red c) / bucketSize),
   Math_floor (of_int (green c) / bucketSize),
   Math_floor (of_int (blue c) / bucketSize)).

Definition centre (v : Z) : float :=
  Math_floor (of_int v / bucketSize) * bucketSize + bucketSize / 2.

Fixpoint add_sample (k : float * float * float) (c : rgb)
    (buckets : list (float * float * float * cell))
    : list (float * float * float * cell) :=
  match buckets with
  | [] => [(k, mkCell (centre (red c)) (centre (green c)) (centre (blue c)) (0 + 1))]
  | (k', v) :: rest =>
      if same_key k k'
      then (k', mkCell (cell_r v) (cell_g v) (cell_b v) (cell_count v + 1)) :: rest
      else (k', v) :: add_sample k c rest
  end.

Definition fill_buckets (samples : list rgb) : list (float * float * float * cell) :=
  fold_left (fun buckets c => add_sample (cell_key c) c buckets) samples [].

(** The comparator [(a, b) => b.count - a.count]. *)
Definition more_pixels (a b : cell) : bool := (cell_count b - cell_count a <? 0)%Z.

(** [Math.round(Math.max(0, Math.min(255, x)))] as an integer: what
    [rgbToHex] makes of the centre of a cell, which is a number with a
    fraction part in the source. *)
Definition channel_of (x : float) : Z :=
  to_int (Math_round (Math_max2 0 (Math_min2 255 x))).

Definition cluster (numColors : nat) (samples : list rgb) : list dominant :=
  let sorted := firstn numColors (sort_by more_pixels (map snd (fill_buckets samples))) in
  let total := sumZ (map cell_count sorted) in
  map (fun s => mkDominant
                  (rgbToHex (channel_of (cell_r s)) (channel_of (cell_g s))
                            (channel_of (cell_b s)))
                  (percent (cell_count s) total))
      sorted.

Definition getDominantColors (pixels : list Z) (width height : Z) (numColors : nat)
    : list dominant :=
  match collect_samples pixels width height with
  | [] => [mkDominant "#708090" 100]
  | samples => cluster numColors samples
  end.

Definition pickGeneralColor (dominantColors : list dominant) : general :=
  match dominantColors with
  | [] => mkGeneral "#708090" EYE_COLOR_CATEGORIES.gray
  | first :: _ =>
      let best := fst (fold_left more_saturated (firstn 6 dominantColors) (first, 0)) in
      mkGeneral (d_hex best) (classifyEyeColor (d_hex best))
  end.

Section Matcher.

Variable Math_pow : float -> float -> float.
Variable pantoneData : list pantone.

(** [colorDistance]: the Euclidean distance of the channels. *)
Definition colorDistance (hex1 hex2 : string) : float :=
  match hexToRgb hex1, hexToRgb hex2 with
  | Some a, Some b =>
      sqrt (Math_pow (of_int (red a - red b)) 2
            + Math_pow (of_int (green a - green b)) 2
            + Math_pow (of_int (blue a - blue b)) 2)
  | _, _ => infinity
  end.

Definition withDistance (hex : string) : list (pantone * float) :=
  map (fun p => (p, colorDistance hex (p_hex p))) pantoneData.

Definition findPantoneMatches (hex : string) (count : nat) : list pantone_match :=
  map to_match (firstn count (sort_by closer (withDistance hex))).

(** The earlier [analyzeEyeColor] from the resized raster on. *)
Definition analyze (data : list Z) (resizedW resizedH : Z) : report :=
  let dominantColors := getDominantColors data resizedW resizedH 8 in
  let g := pickGeneralColor dominantColors in
  mkReport
    (cat_name (g_category g)) (g_hex g)
    (map (fun c => mkEntry (d_hex c) (percentage c) (findPantoneMatches (d_hex c) 2))
         dominantColors)
    (findPantoneMatches (cat_hex (g_category g)) 5)
    (g_hex g).

(** The two calls into the image codec, as for the later text. *)
Variable sharp_metadata : list Z -> option (option Z * option Z).
Variable sharp_resize_raw : list Z -> Z -> Z -> option (list Z).

Definition analyzeEyeColor (imageBuffer : list Z) : option report :=
  match sharp_metadata imageBuffer with
  | None => None
  | Some metadata =>
      let width := or_400 (fst metadata) in
      let height := or_400 (snd metadata) in
      let resizedW := Z.min 200 width in
      let resizedH := Z.min 200 height in
      match sharp_resize_raw imageBuffer resizedW resizedH with
      | None => None
      | Some data => Some (analyze data resizedW resizedH)
      end
  end.

End Matcher.

End Legacy.

(* ================================================================= *)
(** ** The page ([public/app.js])

    The script keeps its state in three variables and in the classes of
    the elements of the page.  What follows is the part of it that
    decides which sections show: the class [hidden] of the six elements
    [showSection] touches, the captured frame, and the requests in
    flight.  A handler runs to its end before the next event is taken,
    so every handler, and every callback of a request, is one
    transition. *)

Module Page.

Inductive element :=
  | cameraSection | previewSection | resultsSection
  | resultsLoading | resultsContent | resultsError.

Definition same (a b : element) : bool :=
  match a, b with
  | cameraSection, cameraSection | previewSection, previewSection
  | resultsSection, resultsSection | resultsLoading, resultsLoading
  | resultsContent, resultsContent | resultsError, resultsError => true
  | _, _ => false
  end.

(** [hidden st e]: the class list of [e] contains [hidden]. *)
Record state :=
  mkState { hidden : element -> bool;
            capturedDataUrl : option string;
            in_flight : list string }.

(** [e.classList.add('hidden')] and [e.classList.remove('hidden')]. *)
Definition add_hidden (e : element) (h : element -> bool) : element -> bool :=
  fun x => if same x e then true else h x.

Definition remove_hidden (e : element) (h : element -> bool) : element -> bool :=
  fun x => if same x e then false else h x.

Definition showSection (section : element) (h : element -> bool) : element -> bool :=
  remove_hidden section
    (add_hidden resultsError
       (add_hidden resultsContent
          (add_hidden resultsLoading
             (add_hidden resultsSection
                (add_hidden previewSection
                   (add_hidden cameraSection h)))))).

(** [runAnalysis]: nothing without a captured frame (the empty string is
    falsy as well); otherwise the results section with the loading
    line, and a request that carries the frame. *)
Definition runAnalysis (st : state) : state :=
  match capturedDataUrl st with
  | None | Some EmptyString => st
  | Some url =>
      mkState
        (add_hidden resultsError
           (add_hidden resultsContent
              (remove_hidden resultsLoading (showSection resultsSection (hidden st)))))
        (capturedDataUrl st)
        (url :: in_flight st)
  end.

(** The events: the clicks on the four buttons that change the state
    (the button that switches the camera does not), with the frame the
    canvas gives on a capture, and the two ways a request ends, the
    callback of [then] running to its end or the callback of [catch],
    for the request at some place [n] among those in flight. *)
Inductive event :=
  | capture (frame : string)
  | retake
  | analyze
  | newScan
  | request_done (n : nat)
  | request_failed (n : nat).

Definition handle (ev : event) (st : state) : state :=
  match ev with
  | capture frame =>
      runAnalysis (mkState (hidden st) (Some frame) (in_flight st))
  | retake | newScan =>
      mkState (showSection cameraSection (hidden st)) None (in_flight st)
  | analyze =>
      match capturedDataUrl st with
      | None | Some EmptyString => st
      | Some _ => runAnalysis st
      end
  | request_done n =>
      match nth_error (in_flight st) n with
      | None => st
      | Some _ =>
          mkState (remove_hidden resultsContent (add_hidden resultsLoading (hidden st)))
                  (capturedDataUrl st)
                  (firstn n (in_flight st) ++ skipn (S n) (in_flight st))
      end
  | request_failed n =>
      match nth_error (in_flight st) n with
      | None => st
      | Some _ =>
          mkState (remove_hidden resultsError (add_hidden resultsLoading (hidden st)))
                  (capturedDataUrl st)
                  (firstn n (in_flight st) ++ skipn (S n) (in_flight st))
      end
  end.

(** The last two statements of the script, on the page as loaded:
    [showSection(cameraSection); startCamera()]. *)
Definition start (classes : element -> bool) : state :=
  mkState (showSection cameraSection classes) None [].

Definition run (classes : element -> bool) (events : list event) : state :=
  fold_left (fun st ev => handle ev st) events (start classes).

End Page.

(* ================================================================= *)
(** ** Reference definitions and test rasters *)

(** The six-sector hue as the specification words it: the sector offset
    (0, 2 or 4, and 6 for a negative red sector) is added before the
    division by six.  Stated for comparison with [getHSL]. *)
Definition hue_six_sector (r g b : Z) : float :=
  let rn := (JS.of_int r / 255)%float in
  let gn := (JS.of_int g / 255)%float in
  let bn := (JS.of_int b / 255)%float in
  let max := JS.Math_max rn gn bn in
  let min := JS.Math_min rn gn bn in
  if JS.strict_neq max min then
    let d := (max - min)%float in
    let h :=
      if JS.strict_eq max rn
      then (((gn - bn) / d + (if (gn <? bn)%float then 6 else 0)) / 6)%float
      else if JS.strict_eq max gn then (((bn - rn) / d + 2) / 6)%float
      else (((rn - gn) / d + 4) / 6)%float in
    (h * 360)%float
  else 0%float.

(** Every pixel of the raster has alpha 0. *)
Fixpoint all_transparent (pixels : list Z) : bool :=
  match pixels with
  | _ :: _ :: _ :: a :: rest => (a =? 0)%Z && all_transparent rest
  | _ => true
  end.

(** A 4 x 4 opaque raster, black but for the pixel at [(0, 1)]. *)
Definition one_red_pixel : list Z :=
  List.concat
    (map (fun k => if (k =? 4)%nat then [200; 50; 50; 255]%Z else [0; 0; 0; 255]%Z)
         (seq 0 16)).

(** A 4 x 4 raster of fully transparent black pixels. *)
Definition transparent_4x4 : list Z := repeat 0%Z 64.

(** A stand-in for [Math.pow] that is right at the exponent 2 only; it
    serves where a concrete function is needed to run the definitions. *)
Definition pow_square (x y : float) : float := (x * x)%float.

Definition two_entry_table : list pantone :=
  [mkPantone "Black-Olive" "#3B3C36"; mkPantone "Slate-Gray" "#708090"].

(* ================================================================= *)
(** ** Definitions used in the statements and proofs *)

(** Non-decreasing distance, the order of the sorted table. *)
Definition by_distance (a b : pantone * float) : Prop :=
  (snd a <=? snd b)%float = true.

(** The three Lab coordinates are finite numbers. *)
Definition lab_finite (l : lab) : bool :=
  is_finite (lab_L l) && is_finite (lab_a l) && is_finite (lab_b l).

(** Not a negative finite number. *)
Definition SFnot_negative (x : spec_float) : Prop :=
  match x with
  | S754_finite true _ _ => False
  | _ => True
  end.

(** A number that is not NaN has a rank: a triple ordered
    lexicographically the way [SFcompare] orders the numbers. *)
Definition rank (x : spec_float) : Z * Z * Z :=
  match x with
  | S754_infinity true => (-2, 0, 0)
  | S754_finite true m e => (-1, - e, - Zpos m)
  | S754_zero _ | S754_nan => (0, 0, 0)
  | S754_finite false m e => (1, e, Zpos m)
  | S754_infinity false => (2, 0, 0)
  end%Z.

Definition rank_lt (a b : Z * Z * Z) : Prop :=
  let '(a1, a2, a3) := a in
  let '(b1, b2, b3) := b in
  (a1 < b1 \/ (a1 = b1 /\ (a2 < b2 \/ (a2 = b2 /\ a3 < b3))))%Z.

Definition not_nan (x : spec_float) : Prop := x <> S754_nan.

(** The same on primitive numbers. *)
Definition frank (x : float) : Z * Z * Z := rank (Prim2SF x).

Definition fnum (x : float) : Prop := not_nan (Prim2SF x).

(** A number with the sign [s] that is neither a zero nor NaN. *)
Definition SFsigned (s : bool) (x : spec_float) : Prop :=
  match x with
  | S754_finite s' _ _ | S754_infinity s' => s' = s
  | _ => False
  end.

(** The integer whose sign [SFsub] rounds, for two finite numbers. *)
Definition sub_mantissa (sx : bool) (mx : positive) (ex : Z)
    (sy : bool) (my : positive) (ey : Z) : Z :=
  let ez := Z.min ex ey in
  (cond_Zopp sx (Zpos (fst (shl_align mx ex ez)))
   - cond_Zopp sy (Zpos (fst (shl_align my ey ez))))%Z.

(** [2^e] as a real, and the value of a finite number. *)
Definition bpow (e : Z) : R := powerRZ 2 e.

Definition SF2R (x : spec_float) : R :=
  match x with
  | S754_finite s m e => (IZR (cond_Zopp s (Zpos m)) * bpow e)%R
  | _ => 0%R
  end.

(** The relative error bound of one rounded operation, as used below:
    three units of the last place. *)
Definition kappa : R := (3 / IZR (2 ^ 52))%R.

(** [x] is the value [v] up to the relative error [kappa]. *)
Definition near (v x : R) : Prop :=
  ((1 - kappa) * v <= x <= (1 + kappa) * v)%R.

(** A positive normal number with its exponent in a window. *)
Definition normal_in (lo hi : Z) (x : spec_float) : Prop :=
  exists (m : positive) (e : Z),
    x = S754_finite false m e /\ (lo <= e <= hi)%Z /\
    (2 ^ 52 <= Zpos m < 2 ^ 53)%Z.

(** The relative error bound of the four roundings together. *)
Definition theta : R := (16 / IZR (2 ^ 52))%R.

(** The counts of the buckets, in [Map] order. *)
Definition counts (buckets : list (float * float * float * bucket)) : list Z :=
  map (fun e => count (snd e)) buckets.

(** The fuel a search loop has left when its counter, starting at [d]
    and advancing by 2, passes [r]; 0 when the fuel runs out first. *)
Fixpoint spare_fuel (fuel : nat) (d r : float) : nat :=
  match fuel with
  | O => O
  | S n => if (d <=? r)%float then spare_fuel n (d + 2)%float r else S n
  end.

(** Every pixel of the raster is a grey: its three colour channels are
    the same byte. *)
Fixpoint grayscale (pixels : list Z) : bool :=
  match pixels with
  | r :: g :: b :: _ :: rest =>
      (0 <=? r)%Z && (r <=? 255)%Z && (r =? g)%Z && (g =? b)%Z && grayscale rest
  | _ => true
  end.

(** A 4 x 4 opaque raster of the mid grey. *)
Definition grey_4x4 : list Z := List.concat (repeat [128; 128; 128; 255]%Z 16).


(** The values of [EYE_COLOR_CATEGORIES], in the order of the object. *)
Definition categories : list category :=
  [EYE_COLOR_CATEGORIES.blue; EYE_COLOR_CATEGORIES.green; EYE_COLOR_CATEGORIES.hazel;
   EYE_COLOR_CATEGORIES.brown; EYE_COLOR_CATEGORIES.gray; EYE_COLOR_CATEGORIES.amber;
   EYE_COLOR_CATEGORIES.violet].

(** A sample whose three channels are bytes, and a bucket of such
    samples: its three sums are between 0 and 255 times its count. *)
Definition byte_sample (c : rgb) : Prop :=
  (0 <= red c <= 255 /\ 0 <= green c <= 255 /\ 0 <= blue c <= 255)%Z.

Definition byte_sums (e : float * float * float * bucket) : Prop :=
  let v := snd e in
  (0 <= rSum v <= 255 * count v /\ 0 <= gSum v <= 255 * count v /\
   0 <= bSum v <= 255 * count v)%Z.

(** Two samples, for running the clusterer. *)
Definition two_samples : list rgb := [mkRgb 200 50 50; mkRgb 10 20 30].

(** A codec for running the entry point: it reports a 4 x 4 image and
    returns a fixed raster. *)
Definition metadata_4x4 (imageBuffer : list Z) : option (option Z * option Z) :=
  Some (Some 4%Z, Some 4%Z).

Definition raster_of (pixels : list Z) (imageBuffer : list Z) (w h : Z)
    : option (list Z) := Some pixels.

(* ================================================================= *)
(** * Properties *)

(* ================================================================= *)
(** ** Hex strings: the round trip *)

Lemma hex_digit_hex_char (d : Z) :
  (0 <= d < 16)%Z -> hex_digit (hex_char d) = Some d.
Proof.
  intros H.
  assert (d = 0 \/ d = 1 \/ d = 2 \/ d = 3 \/ d = 4 \/ d = 5 \/ d = 6 \/ d = 7 \/
          d = 8 \/ d = 9 \/ d = 10 \/ d = 11 \/ d = 12 \/ d = 13 \/ d = 14 \/
          d = 15)%Z as Hd by lia.
  repeat (destruct Hd as [-> | Hd]; [reflexivity | ]).
  now subst d.
Qed.

Lemma channel_hex_digits (n : Z) :
  (0 <= n <= 255)%Z ->
  channel_hex n =
  String (hex_char (n / 16)) (String (hex_char (n mod 16)) EmptyString).
Proof.
  intros H. unfold channel_hex, toString16.
  replace (Z.max 0 (Z.min 255 n)) with n by lia.
  destruct (n <? 16)%Z eqn:E; cbn [String.length Nat.eqb].
  - apply Z.ltb_lt in E.
    rewrite (Z.div_small n 16), (Z.mod_small n 16) by lia. reflexivity.
  - reflexivity.
Qed.

Lemma parse_pair_channel (n : Z) :
  (0 <= n <= 255)%Z ->
  parse_pair (hex_char (n / 16)) (hex_char (n mod 16)) = Some n.
Proof.
  intros H. unfold parse_pair.
  assert (0 <= n / 16 < 16)%Z by (split; [apply Z.div_pos | apply Z.div_lt_upper_bound]; lia).
  assert (0 <= n mod 16 < 16)%Z by (apply Z.mod_pos_bound; lia).
  rewrite !hex_digit_hex_char by assumption.
  f_equal. symmetry. apply Z.div_mod. lia.
Qed.

(** C7: for integer channels in [0, 255], [hexToRgb (rgbToHex r g b)]
    succeeds and gives back [(r, g, b)]. *)
Theorem hexToRgb_rgbToHex (r g b : Z) :
  (0 <= r <= 255)%Z -> (0 <= g <= 255)%Z -> (0 <= b <= 255)%Z ->
  hexToRgb (rgbToHex r g b) = Some (mkRgb r g b).
Proof.
  intros Hr Hg Hb. unfold rgbToHex.
  rewrite !channel_hex_digits by assumption.
  cbn [hexToRgb String.append parse_six].
  now rewrite !parse_pair_channel by assumption.
Qed.

Lemma hexToRgb_rgbToHex_witness :
  hexToRgb (rgbToHex 200 50 5) = Some (mkRgb 200 50 5).
Proof. apply hexToRgb_rgbToHex; lia. Defined.

(** C10: a string [hexToRgb] rejects is classified Gray. *)
Theorem classifyEyeColor_invalid (hex : string) :
  hexToRgb hex = None -> classifyEyeColor hex = EYE_COLOR_CATEGORIES.gray.
Proof. intros H. unfold classifyEyeColor. now rewrite H. Qed.

Lemma classifyEyeColor_invalid_witness :
  hexToRgb "not a colour" = None /\
  classifyEyeColor "not a colour" = EYE_COLOR_CATEGORIES.gray.
Proof.
  split; [reflexivity | apply classifyEyeColor_invalid; reflexivity].
Defined.

(* ================================================================= *)
(** ** The hue of [getHSL] *)

(** C1: on cyan, [getHSL] returns a hue of 480 degrees, outside
    [0, 360), where the six-sector formula gives 180; on a green with
    more red than blue it returns a negative hue. *)
Theorem getHSL_hue_out_of_range :
  getHSL 0 255 255 = mkHsl 480 1 0.5 /\
  (hue (getHSL 0 255 255) <? 360)%float = false /\
  hue_six_sector 0 255 255 = 180%float /\
  (hue (getHSL 100 255 0) <? 0)%float = true.
Proof. vm_compute. repeat split. Qed.

(* ================================================================= *)
(** ** The general colour *)




(** C5: a colour with hue 264 and saturation 0.13 is classified Violet:
    the band [260, 300] is tested before the slate rule. *)
Theorem classifyEyeColor_slate_shadowed :
  hexToRgb "#666482" = Some (mkRgb 102 100 130) /\
  (let c := getHSL 102 100 130 in
   (210 <=? hue c)%float && (hue c <=? 270)%float &&
   (0.1 <=? sat c)%float && (sat c <? 0.25)%float = true) /\
  classifyEyeColor "#666482" = EYE_COLOR_CATEGORIES.violet.
Proof. vm_compute. repeat split. Qed.

(* ================================================================= *)
(** ** Signs of the numbers the sampler turns into indices *)

Lemma binary_round_aux_not_negative (m e : Z) (l : location) :
  SFnot_negative (binary_round_aux prec emax false m e l).
Proof.
  unfold binary_round_aux.
  destruct (shr_fexp prec emax m e l) as [mrs' e'].
  destruct (shr_fexp prec emax _ e' loc_Exact) as [mrs'' e''].
  destruct (shr_m mrs''); cbn; auto.
  destruct (_ <=? _)%Z; cbn; auto.
Qed.

Lemma of_int_not_negative (z : Z) :
  (0 <= z)%Z -> SFnot_negative (Prim2SF (JS.of_int z)).
Proof.
  intros Hz. unfold JS.of_int.
  destruct (z <? 0)%Z eqn:E; [apply Z.ltb_lt in E; lia | ].
  rewrite of_uint63_spec.
  pose proof (Uint63.to_Z_bounded (Uint63Axioms.of_Z z)) as [Hb _].
  destruct (Uint63Axioms.to_Z (Uint63Axioms.of_Z z)) as [ | p | p ]; cbn; auto.
  - unfold binary_round.
    destruct (shl_align p 0 _) as [mz ez].
    apply binary_round_aux_not_negative.
  - lia.
Qed.

Lemma mul_not_negative (x y : float) :
  SFnot_negative (Prim2SF x) -> SFnot_negative (Prim2SF y) ->
  SFnot_negative (Prim2SF (x * y)).
Proof.
  rewrite mul_spec. unfold SF64mul, SFmul.
  destruct (Prim2SF x) as [[|]|[|]| |[|] mx ex];
    destruct (Prim2SF y) as [[|]|[|]| |[|] my ey]; cbn; auto; try tauto;
    intros _ _; apply binary_round_aux_not_negative.
Qed.

Lemma SFfloor_nonneg (x : spec_float) :
  SFnot_negative x -> (0 <= JS.SFfloor x)%Z.
Proof.
  destruct x as [s | s | | s m e]; cbn; try (intros _; lia).
  destruct s; [tauto | ].
  intros _. apply Z.shiftl_nonneg. cbn. lia.
Qed.

Lemma Math_floor_not_negative (x : float) :
  SFnot_negative (Prim2SF x) -> SFnot_negative (Prim2SF (JS.Math_floor x)).
Proof.
  intros H. unfold JS.Math_floor.
  destruct (Prim2SF x) as [ | | |s m e] eqn:E; try (rewrite E; exact H).
  destruct (0 <=? e)%Z; [rewrite E; exact H | ].
  apply of_int_not_negative, SFfloor_nonneg, H.
Qed.

Lemma quarter_nonneg (n : Z) (q : float) :
  (0 <= n)%Z -> SFnot_negative (Prim2SF q) ->
  (0 <= JS.to_int (JS.Math_floor (JS.of_int n * q)))%Z.
Proof.
  intros Hn Hq. unfold JS.to_int.
  apply SFfloor_nonneg, Math_floor_not_negative, mul_not_negative; auto.
  now apply of_int_not_negative.
Qed.

Lemma xMin_nonneg (width : Z) : (0 <= width)%Z -> (0 <= xMin width)%Z.
Proof. intros H. apply quarter_nonneg; [exact H | exact I]. Qed.

Lemma yMin_nonneg (height : Z) : (0 <= height)%Z -> (0 <= yMin height)%Z.
Proof. intros H. apply quarter_nonneg; [exact H | exact I]. Qed.

(* ================================================================= *)
(** ** Loop counters and [filter_map] *)

Lemma in_range (lo hi x : Z) : In x (range lo hi) <-> (lo <= x < hi)%Z.
Proof.
  unfold range. rewrite in_map_iff. split.
  - intros (k & <- & Hk). apply in_seq in Hk. lia.
  - intros H. exists (Z.to_nat (x - lo)). split; [lia | ].
    apply in_seq. lia.
Qed.

Lemma in_stride2 (lo hi x : Z) :
  In x (stride2 lo hi) <-> (lo <= x < hi)%Z /\ exists k, (0 <= k)%Z /\ x = (lo + 2 * k)%Z.
Proof.
  unfold stride2. rewrite in_map_iff. split.
  - intros (k & <- & Hk). apply in_seq in Hk.
    assert (Z.of_nat k < (hi - lo + 1) / 2)%Z as Hlt by lia.
    assert (2 * ((hi - lo + 1) / 2) <= hi - lo + 1)%Z
      by (apply Z.mul_div_le; lia).
    split; [lia | ]. exists (Z.of_nat k). lia.
  - intros (Hx & k & Hk & ->).
    exists (Z.to_nat k). split; [lia | ].
    apply in_seq.
    assert (k + 1 <= (hi - lo + 1) / 2)%Z by (apply Z.div_le_lower_bound; lia).
    lia.
Qed.

Lemma in_grid (xs ys : list Z) (x y : Z) :
  In (x, y) (grid xs ys) <-> In x xs /\ In y ys.
Proof.
  unfold grid. rewrite in_flat_map. split.
  - intros (y' & Hy & Hx). apply in_map_iff in Hx as (x' & E & Hx).
    inversion E; subst. auto.
  - intros (Hx & Hy). exists y. split; [exact Hy | ].
    apply in_map_iff. now exists x.
Qed.

Lemma filter_map_none {A B : Type} (f : A -> option B) (l : list A) :
  (forall x, In x l -> f x = None) -> filter_map f l = [].
Proof.
  induction l as [ | a l IH]; intros H; cbn; [reflexivity | ].
  rewrite (H a) by now left.
  apply IH. intros x Hx. apply H. now right.
Qed.

Lemma in_filter_map {A B : Type} (f : A -> option B) (l : list A) (y : B) :
  In y (filter_map f l) <-> exists x, In x l /\ f x = Some y.
Proof.
  induction l as [ | a l IH]; cbn.
  - split; [tauto | intros (x & [] & _)].
  - destruct (f a) as [b | ] eqn:E; cbn; rewrite IH; split.
    + intros [<- | (x & Hx & Hf)]; [exists a | exists x]; auto.
    + intros (x & [<- | Hx] & Hf); [left; congruence | right; exists x; auto].
    + intros (x & Hx & Hf). exists x. auto.
    + intros (x & [<- | Hx] & Hf); [congruence | exists x; auto].
Qed.

(* ================================================================= *)
(** ** A raster with no opaque pixel *)

Lemma all_transparent_alpha (pixels : list Z) (k : nat) :
  all_transparent pixels = true -> nth (4 * k + 3) pixels 0%Z = 0%Z.
Proof.
  revert pixels. induction k as [ | k IH]; intros pixels H.
  - destruct pixels as [ | r [ | g [ | b [ | a rest]]]]; try reflexivity.
    cbn in H. apply andb_true_iff in H as [H _]. apply Z.eqb_eq in H. exact H.
  - replace (4 * S k + 3)%nat with (S (S (S (S (4 * k + 3))))) by lia.
    destruct pixels as [ | r [ | g [ | b [ | a rest]]]]; try reflexivity.
    cbn in H. apply andb_true_iff in H as [_ H].
    cbn [nth]. apply IH, H.
Qed.

Lemma alpha_index (x y width : Z) :
  (0 <= x)%Z -> (0 <= y)%Z -> (0 <= width)%Z ->
  exists k : nat, Z.to_nat ((y * width + x) * bytesPerPixel + 3) = (4 * k + 3)%nat.
Proof.
  intros Hx Hy Hw. exists (Z.to_nat (y * width + x)).
  unfold bytesPerPixel. nia.
Qed.

Lemma annulus_pixel_transparent (pixels : list Z) (width height : Z)
    (c : float * float) (x y : Z) :
  all_transparent pixels = true ->
  (0 <= x)%Z -> (0 <= y)%Z -> (0 <= width)%Z ->
  annulus_pixel pixels width height c (x, y) = None.
Proof.
  intros Ht Hx Hy Hw. unfold annulus_pixel. destruct c as [cx cy].
  destruct (_ || _); [reflexivity | ].
  destruct (pixels_length pixels <=? _)%Z eqn:Hlen; [reflexivity | ].
  apply Z.leb_gt in Hlen. unfold pixels_length in Hlen.
  destruct (alpha_index x y width Hx Hy Hw) as [k Hk].
  rewrite Hk.
  destruct (nth_error pixels (4 * k + 3)) as [a | ] eqn:E.
  - apply (nth_error_nth _ _ 0%Z) in E.
    rewrite (all_transparent_alpha _ _ Ht) in E. now subst a.
  - apply nth_error_None in E. lia.
Qed.

Lemma fallback_pixel_transparent (pixels : list Z) (width : Z) (x y : Z) :
  all_transparent pixels = true ->
  (0 <= x)%Z -> (0 <= y)%Z -> (0 <= width)%Z ->
  fallback_pixel pixels width (x, y) = None.
Proof.
  intros Ht Hx Hy Hw. unfold fallback_pixel.
  destruct (pixels_length pixels <=? _)%Z; [reflexivity | ].
  unfold px at 1.
  destruct (alpha_index x y width Hx Hy Hw) as [k ->].
  now rewrite (all_transparent_alpha _ _ Ht).
Qed.

Lemma collect_samples_transparent (pixels : list Z) (width height : Z) :
  (0 <= width)%Z -> (0 <= height)%Z ->
  all_transparent pixels = true ->
  collect_samples pixels width height = [].
Proof.
  intros Hw Hh Ht.
  assert (annulus_samples pixels width height = []) as Ha.
  { apply filter_map_none. intros [x y] Hin.
    apply in_grid in Hin as [Hx Hy].
    apply in_range in Hx, Hy.
    apply annulus_pixel_transparent; auto; lia. }
  assert (fallback_samples pixels width height = []) as Hf.
  { apply filter_map_none. intros [x y] Hin.
    apply in_grid in Hin as [Hx Hy].
    apply in_stride2 in Hx as [Hx _], Hy as [Hy _].
    pose proof (xMin_nonneg width Hw). pose proof (yMin_nonneg height Hh).
    apply fallback_pixel_transparent; auto; lia. }
  unfold collect_samples. rewrite Ha, Hf. reflexivity.
Qed.

(** C2: a raster whose every pixel has alpha 0 gives the single dominant
    colour [#708090] at 100, and the report names the general colour
    Hazel, not Gray: [#708090] has saturation 0.126 and [getHSL] gives it
    a hue of 60 degrees. *)
Theorem all_transparent_report
    (Math_pow : float -> float -> float) (pantoneData : list pantone)
    (pixels : list Z) (width height : Z) (numColors : nat) :
  (0 <= width)%Z -> (0 <= height)%Z ->
  all_transparent pixels = true ->
  getDominantColors Math_pow pixels width height numColors
    = [mkDominant "#708090" 100] /\
  generalColor_name (analyze Math_pow pantoneData pixels width height) = "Hazel"%string.
Proof.
  intros Hw Hh Ht.
  assert (forall n, getDominantColors Math_pow pixels width height n
                    = [mkDominant "#708090" 100]) as Hd.
  { intros n. unfold getDominantColors.
    now rewrite collect_samples_transparent. }
  split; [apply Hd | ].
  unfold analyze. rewrite Hd.
  unfold pickGeneralColor.
  destruct (_ && _); reflexivity.
Qed.

Lemma all_transparent_report_witness :
  getDominantColors pow_square transparent_4x4 4 4 10
    = [mkDominant "#708090" 100] /\
  generalColor_name (analyze pow_square two_entry_table transparent_4x4 4 4)
    = "Hazel"%string.
Proof.
  apply all_transparent_report; [lia | lia | reflexivity].
Defined.

(* ================================================================= *)
(** ** The fallback pass *)


Lemma fallback_pixel_some (pixels : list Z) (width x y : Z) (c : rgb) :
  fallback_pixel pixels width (x, y) = Some c ->
  let i := ((y * width + x) * bytesPerPixel)%Z in
  let v := getHSL (red c) (green c) (blue c) in
  c = mkRgb (px pixels i) (px pixels (i + 1)) (px pixels (i + 2)) /\
  (i + 3 < pixels_length pixels)%Z /\
  (200 <= px pixels (i + 3))%Z /\
  (0.92 <? lum v)%float = false /\ (lum v <? 0.06)%float = false /\
  (sat v <? 0.05)%float = false.
Proof.
  unfold fallback_pixel. intros H. cbv zeta.
  destruct (pixels_length pixels <=? _)%Z eqn:Hlen; [discriminate | ].
  destruct (px pixels _ <? 200)%Z eqn:Ha; [discriminate | ].
  destruct (_ || _) eqn:Hf; [discriminate | ].
  inversion H; subst c; clear H. cbn [red green blue].
  apply orb_false_iff in Hf as [Hf Hs].
  apply orb_false_iff in Hf as [Hhi Hlo].
  apply Z.leb_gt in Hlen. apply Z.ltb_ge in Ha.
  repeat split; assumption.
Qed.



(* ================================================================= *)
(** ** The order of binary64 numbers *)

Lemma SFcompare_rank (x y : spec_float) :
  not_nan x -> not_nan y ->
  exists c, SFcompare x y = Some c /\
    match c with
    | Lt => rank_lt (rank x) (rank y)
    | Eq => rank x = rank y
    | Gt => rank_lt (rank y) (rank x)
    end.
Proof.
  unfold not_nan. intros Hx Hy.
  destruct x as [sx | sx | | sx mx ex]; [ | | congruence | ];
    (destruct y as [sy | sy | | sy my ey]; [ | | congruence | ]);
    try destruct sx; try destruct sy; cbn;
    try (eexists; split; [reflexivity | cbn; try reflexivity; lia]).
  - destruct (Z.compare_spec ex ey) as [E | E | E].
    + pose proof (Pos.compare_spec mx my) as Hm.
      change (Pos.compare_cont Eq mx my) with (mx ?= my)%positive.
      destruct Hm as [Em | Em | Em]; eexists; (split; [reflexivity | ]);
        cbn; subst; try reflexivity; lia.
    + eexists; split; [reflexivity | cbn; lia].
    + eexists; split; [reflexivity | cbn; lia].
  - destruct (Z.compare_spec ex ey) as [E | E | E].
    + pose proof (Pos.compare_spec mx my) as Hm.
      change (Pos.compare_cont Eq mx my) with (mx ?= my)%positive.
      destruct Hm as [Em | Em | Em]; eexists; (split; [reflexivity | ]);
        cbn; subst; try reflexivity; lia.
    + eexists; split; [reflexivity | cbn; lia].
    + eexists; split; [reflexivity | cbn; lia].
Qed.

Lemma rank_lt_irrefl (a b : Z * Z * Z) : rank_lt a b -> a <> b /\ ~ rank_lt b a.
Proof.
  destruct a as [[a1 a2] a3], b as [[b1 b2] b3]. cbn.
  intros H. split; [intros E; inversion E; lia | lia].
Qed.

Lemma rank_lt_trans (a b c : Z * Z * Z) : rank_lt a b -> rank_lt b c -> rank_lt a c.
Proof.
  destruct a as [[a1 a2] a3], b as [[b1 b2] b3], c as [[c1 c2] c3]. cbn. lia.
Qed.

Lemma rank_total (a b : Z * Z * Z) : rank_lt a b \/ a = b \/ rank_lt b a.
Proof.
  destruct a as [[a1 a2] a3], b as [[b1 b2] b3]. cbn.
  destruct (Z.lt_total a1 b1) as [H | [H | H]]; [lia | | lia].
  destruct (Z.lt_total a2 b2) as [H2 | [H2 | H2]]; [lia | | lia].
  destruct (Z.lt_total a3 b3) as [H3 | [H3 | H3]]; [lia | | lia].
  right. left. congruence.
Qed.

Lemma SFcompare_nan_l (y : spec_float) : SFcompare S754_nan y = None.
Proof. reflexivity. Qed.

Lemma SFcompare_nan_r (x : spec_float) : SFcompare x S754_nan = None.
Proof. now destruct x. Qed.

Lemma not_nan_dec (x : spec_float) : not_nan x \/ x = S754_nan.
Proof. destruct x; (now right) || (left; discriminate). Qed.

Lemma SFltb_rank (x y : spec_float) :
  SFltb x y = true <-> not_nan x /\ not_nan y /\ rank_lt (rank x) (rank y).
Proof.
  unfold SFltb.
  destruct (not_nan_dec x) as [Hx | ->];
    [ | rewrite SFcompare_nan_l; split; [discriminate | intros [H _]; now elim H]].
  destruct (not_nan_dec y) as [Hy | ->];
    [ | rewrite SFcompare_nan_r; split; [discriminate | intros (_ & H & _); now elim H]].
  destruct (SFcompare_rank x y Hx Hy) as (c & -> & Hc).
  destruct c; split; auto; try discriminate; intros (_ & _ & H).
  - apply rank_lt_irrefl in H. tauto.
  - apply rank_lt_irrefl in H. tauto.
Qed.

Lemma SFleb_rank (x y : spec_float) :
  SFleb x y = true <->
  not_nan x /\ not_nan y /\ (rank_lt (rank x) (rank y) \/ rank x = rank y).
Proof.
  unfold SFleb.
  destruct (not_nan_dec x) as [Hx | ->];
    [ | rewrite SFcompare_nan_l; split; [discriminate | intros [H _]; now elim H]].
  destruct (not_nan_dec y) as [Hy | ->];
    [ | rewrite SFcompare_nan_r; split; [discriminate | intros (_ & H & _); now elim H]].
  destruct (SFcompare_rank x y Hx Hy) as (c & -> & Hc).
  destruct c; split; auto; try discriminate; intros (_ & _ & [H | H]).
  - apply rank_lt_irrefl in Hc. tauto.
  - apply rank_lt_irrefl in Hc. symmetry in H. tauto.
Qed.

Lemma SFeqb_rank (x y : spec_float) :
  SFeqb x y = true <-> not_nan x /\ not_nan y /\ rank x = rank y.
Proof.
  unfold SFeqb.
  destruct (not_nan_dec x) as [Hx | ->];
    [ | rewrite SFcompare_nan_l; split; [discriminate | intros [H _]; now elim H]].
  destruct (not_nan_dec y) as [Hy | ->];
    [ | rewrite SFcompare_nan_r; split; [discriminate | intros (_ & H & _); now elim H]].
  destruct (SFcompare_rank x y Hx Hy) as (c & -> & Hc).
  destruct c; split; auto; try discriminate; intros (_ & _ & H).
  - apply rank_lt_irrefl in Hc. tauto.
  - apply rank_lt_irrefl in Hc. symmetry in H. tauto.
Qed.

Lemma ltb_rank (x y : float) :
  (x <? y)%float = true <-> fnum x /\ fnum y /\ rank_lt (frank x) (frank y).
Proof. rewrite ltb_spec. apply SFltb_rank. Qed.

Lemma leb_rank (x y : float) :
  (x <=? y)%float = true <->
  fnum x /\ fnum y /\ (rank_lt (frank x) (frank y) \/ frank x = frank y).
Proof. rewrite leb_spec. apply SFleb_rank. Qed.

Lemma eqb_rank (x y : float) :
  (x =? y)%float = true <-> fnum x /\ fnum y /\ frank x = frank y.
Proof. rewrite eqb_spec. apply SFeqb_rank. Qed.

Lemma is_nan_false (x : float) : is_nan x = false <-> fnum x.
Proof.
  unfold is_nan. rewrite negb_false_iff, eqb_rank. tauto.
Qed.

(** Consequences used by the classifier and the sort. *)
Lemma leb_trans (x y z : float) :
  (x <=? y)%float = true -> (y <=? z)%float = true -> (x <=? z)%float = true.
Proof.
  rewrite !leb_rank. intros (Hx & Hy & H1) (_ & Hz & H2).
  repeat split; auto.
  destruct H1 as [H1 | H1], H2 as [H2 | H2].
  - left. eapply rank_lt_trans; eauto.
  - left. now rewrite <- H2.
  - left. now rewrite H1.
  - right. congruence.
Qed.

Lemma ltb_false_leb (x y : float) :
  fnum x -> fnum y -> (x <? y)%float = false -> (y <=? x)%float = true.
Proof.
  intros Hx Hy H. apply leb_rank. repeat split; auto.
  destruct (rank_total (frank x) (frank y)) as [Hlt | [Heq | Hgt]]; auto.
  assert ((x <? y)%float = true) by (apply ltb_rank; auto). congruence.
Qed.

Lemma leb_false_ltb (x y : float) :
  fnum x -> fnum y -> (x <=? y)%float = false -> (y <? x)%float = true.
Proof.
  intros Hx Hy H. apply ltb_rank. repeat split; auto.
  destruct (rank_total (frank x) (frank y)) as [Hlt | [Heq | Hgt]]; auto;
    assert ((x <=? y)%float = true) by (apply leb_rank; auto); congruence.
Qed.

Lemma ltb_leb (x y : float) : (x <? y)%float = true -> (x <=? y)%float = true.
Proof. rewrite ltb_rank, leb_rank. tauto. Qed.

Lemma ltb_not_leb (x y : float) : (x <? y)%float = true -> (y <=? x)%float = false.
Proof.
  rewrite ltb_rank. intros (Hx & Hy & H).
  destruct (y <=? x)%float eqn:E; [ | reflexivity].
  apply leb_rank in E as (_ & _ & [E | E]);
    apply rank_lt_irrefl in H; [tauto | symmetry in E; tauto].
Qed.

Lemma leb_fnum (x y : float) : (x <=? y)%float = true -> fnum x /\ fnum y.
Proof. rewrite leb_rank. tauto. Qed.

(* ================================================================= *)
(** ** Digits, shifts and the sign of a rounded number *)

Lemma digits2_pos_bounds (m : positive) :
  (2 ^ (Zpos (digits2_pos m) - 1) <= Zpos m < 2 ^ Zpos (digits2_pos m))%Z.
Proof.
  induction m as [m IH | m IH | ]; cbn [digits2_pos].
  - rewrite Pos2Z.inj_succ.
    replace (Z.succ (Zpos (digits2_pos m)) - 1)%Z
      with (Z.succ (Zpos (digits2_pos m) - 1)) by lia.
    rewrite !Z.pow_succ_r by lia. lia.
  - rewrite Pos2Z.inj_succ.
    replace (Z.succ (Zpos (digits2_pos m)) - 1)%Z
      with (Z.succ (Zpos (digits2_pos m) - 1)) by lia.
    rewrite !Z.pow_succ_r by lia. lia.
  - cbn. lia.
Qed.

Lemma shr_1_m (mrs : shr_record) :
  (0 <= shr_m mrs)%Z -> shr_m (shr_1 mrs) = (shr_m mrs / 2)%Z.
Proof.
  destruct mrs as [m r s]. cbn [shr_m]. intros H.
  destruct m as [ | [p | p | ] | p]; cbn [shr_1 shr_m]; try lia.
  - reflexivity.
  - apply (Z.div_unique _ 2 _ 1); lia.
  - apply (Z.div_unique _ 2 _ 0); lia.
  - reflexivity.
Qed.

Lemma iter_shr_m (p : positive) (mrs : shr_record) :
  (0 <= shr_m mrs)%Z ->
  shr_m (iter_pos shr_1 p mrs) = (shr_m mrs / 2 ^ Zpos p)%Z.
Proof.
  revert mrs. induction p as [p IH | p IH | ]; intros mrs H; cbn [iter_pos].
  - assert (0 <= shr_m (shr_1 mrs))%Z as H1
      by (rewrite shr_1_m by exact H; apply Z.div_pos; lia).
    assert (0 <= shr_m (iter_pos shr_1 p (shr_1 mrs)))%Z as H2
      by (rewrite IH by exact H1; apply Z.div_pos; [exact H1 | lia]).
    rewrite IH by exact H2. rewrite IH by exact H1. rewrite shr_1_m by exact H.
    rewrite !Z.div_div by lia.
    f_equal.
    replace (Zpos p~1) with (1 + Zpos p + Zpos p)%Z by lia.
    rewrite !Z.pow_add_r by lia. lia.
  - assert (0 <= shr_m (iter_pos shr_1 p mrs))%Z as H2
      by (rewrite IH by exact H; apply Z.div_pos; [exact H | lia]).
    rewrite IH by exact H2. rewrite IH by exact H.
    rewrite Z.div_div by lia.
    f_equal.
    replace (Zpos p~0) with (Zpos p + Zpos p)%Z by lia.
    rewrite Z.pow_add_r by lia. lia.
  - rewrite shr_1_m by exact H. reflexivity.
Qed.

Lemma shr_record_of_loc_m (m : Z) (l : location) : shr_m (shr_record_of_loc m l) = m.
Proof. now destruct l as [ | []]. Qed.

Lemma fexp_ge_emin (e : Z) : (emin <= fexp prec emax e)%Z.
Proof. unfold fexp. lia. Qed.

(** Below the smallest exponent nothing is shifted out entirely: a
    positive mantissa stays positive. *)
Lemma shr_fexp_pos (m e : Z) (l : location) :
  (0 < m)%Z -> (emin <= e)%Z ->
  (0 < shr_m (fst (shr_fexp prec emax m e l)))%Z /\
  (emin <= snd (shr_fexp prec emax m e l))%Z.
Proof.
  intros Hm He. unfold shr_fexp, shr.
  destruct m as [ | m | m]; try lia. cbn [Zdigits2].
  pose proof (digits2_pos_bounds m) as [Hlo _].
  set (d := Zpos (digits2_pos m)) in *.
  destruct (fexp prec emax (d + e) - e)%Z as [ | p | p] eqn:En; cbn [fst snd];
    rewrite ?shr_record_of_loc_m; try (split; lia).
  rewrite iter_shr_m by (rewrite shr_record_of_loc_m; lia).
  rewrite shr_record_of_loc_m.
  assert (Zpos p = d - prec)%Z as Hp by (unfold fexp in En; lia).
  split; [ | lia].
  apply Z.div_str_pos. split; [apply Z.pow_pos_nonneg; lia | ].
  apply Z.le_trans with (2 ^ (d - 1))%Z; [ | exact Hlo].
  apply Z.pow_le_mono_r; unfold prec in Hp; lia.
Qed.

Lemma round_nearest_even_ge (m : Z) (l : location) : (m <= round_nearest_even m l)%Z.
Proof.
  destruct l as [ | []]; cbn; try lia. destruct (Z.even m); lia.
Qed.

Lemma binary_round_aux_signed (s : bool) (m e : Z) (l : location) :
  (0 < m)%Z -> (emin <= e)%Z ->
  SFsigned s (binary_round_aux prec emax s m e l).
Proof.
  intros Hm He. unfold binary_round_aux.
  pose proof (shr_fexp_pos m e l Hm He) as [H1 H1e].
  destruct (shr_fexp prec emax m e l) as [mrs' e']. cbn [fst snd] in H1, H1e.
  pose proof (round_nearest_even_ge (shr_m mrs') (loc_of_shr_record mrs')) as Hr.
  set (m2 := round_nearest_even (shr_m mrs') (loc_of_shr_record mrs')) in *.
  assert (0 < m2)%Z as Hm2 by lia.
  pose proof (shr_fexp_pos m2 e' loc_Exact Hm2 H1e) as [H2 _].
  destruct (shr_fexp prec emax m2 e' loc_Exact) as [mrs'' e'']. cbn [fst] in H2.
  destruct (shr_m mrs''); try lia.
  now destruct (_ <=? _)%Z.
Qed.

Lemma shl_align_exponent (m : positive) (e e' : Z) :
  (emin <= e)%Z -> (emin <= e')%Z -> (emin <= snd (shl_align m e e'))%Z.
Proof.
  intros He He'. unfold shl_align. now destruct (e' - e)%Z.
Qed.

Lemma binary_round_signed (s : bool) (m : positive) (e : Z) :
  (emin <= e)%Z -> SFsigned s (binary_round prec emax s m e).
Proof.
  intros He. unfold binary_round.
  pose proof (shl_align_exponent m e (fexp prec emax (Zpos (digits2_pos m) + e)) He
                (fexp_ge_emin _)) as Hz.
  destruct (shl_align m e _) as [mz ez]. cbn [snd] in Hz.
  apply binary_round_aux_signed; [lia | exact Hz].
Qed.

Lemma shl_align_value (m : positive) (e e' : Z) :
  (e' <= e)%Z -> Zpos (fst (shl_align m e e')) = (Zpos m * 2 ^ (e - e'))%Z.
Proof.
  intros H. unfold shl_align.
  destruct (e' - e)%Z as [ | p | p] eqn:E; cbn [fst]; try lia.
  - replace (e - e')%Z with 0%Z by lia. lia.
  - change (Pos.iter xO m p) with (shift_pos p m).
    rewrite shift_pos_correct, Z.pow_pos_fold.
    replace (e - e')%Z with (Zpos p) by lia. lia.
Qed.

(** What validity says of a finite number. *)
Lemma valid_finite (s : bool) (m : positive) (e : Z) :
  valid_binary (S754_finite s m e) = true ->
  (emin <= e)%Z /\ (Zpos m < 2 ^ prec)%Z /\
  ((emin < e)%Z -> (2 ^ (prec - 1) <= Zpos m)%Z).
Proof.
  unfold SpecFloat.valid_binary, bounded, canonical_mantissa, fexp.
  intros H. apply andb_true_iff in H as [H _]. apply Z.eqb_eq in H.
  change IntDef.Z.max with Z.max in H.
  pose proof (digits2_pos_bounds m) as [Hlo Hhi].
  set (d := Zpos (digits2_pos m)) in *. clearbody d.
  unfold SpecFloat.emin, emax, prec in *.
  split; [lia | split].
  - apply Z.lt_le_trans with (2 ^ d)%Z; [exact Hhi | ].
    apply Z.pow_le_mono_r; lia.
  - intros He. assert (d = 53)%Z as Hd by lia.
    rewrite <- Hd. exact Hlo.
Qed.

(* ================================================================= *)
(** ** The sign of a difference *)

Lemma SFltb_zero_signed (s : bool) (x : spec_float) :
  SFsigned s x -> SFltb x (S754_zero false) = s.
Proof.
  destruct x as [ | s' | | s' m e]; cbn; try tauto; intros ->; now destruct s.
Qed.

Lemma scaled_lt (s1 s2 : bool) (m1 m2 : positive) (e1 e2 : Z) :
  valid_binary (S754_finite s1 m1 e1) = true ->
  valid_binary (S754_finite s2 m2 e2) = true ->
  (e1 < e2)%Z -> (Zpos m1 < Zpos m2 * 2 ^ (e2 - e1))%Z.
Proof.
  intros H1 H2 He.
  apply valid_finite in H1 as (He1 & Hm1 & _).
  apply valid_finite in H2 as (_ & _ & Hm2).
  specialize (Hm2 ltac:(lia)).
  assert (2 ^ 1 <= 2 ^ (e2 - e1))%Z as Hp by (apply Z.pow_le_mono_r; lia).
  unfold prec in *. change (2 ^ 53)%Z with (2 * 2 ^ (53 - 1))%Z in Hm1.
  change (2 ^ 1)%Z with 2%Z in Hp.
  set (P := (2 ^ (e2 - e1))%Z) in *. set (C := (2 ^ (53 - 1))%Z) in *.
  assert (0 < C)%Z by (subst C; apply Z.pow_pos_nonneg; lia).
  nia.
Qed.

Lemma sub_mantissa_sign (sx : bool) (mx : positive) (ex : Z)
    (sy : bool) (my : positive) (ey : Z) :
  valid_binary (S754_finite sx mx ex) = true ->
  valid_binary (S754_finite sy my ey) = true ->
  (SFltb (S754_finite sx mx ex) (S754_finite sy my ey) = true
   <-> (sub_mantissa sx mx ex sy my ey < 0)%Z) /\
  (SFltb (S754_finite sy my ey) (S754_finite sx mx ex) = true
   <-> (0 < sub_mantissa sx mx ex sy my ey)%Z).
Proof.
  intros Hx Hy. unfold sub_mantissa. cbv zeta.
  rewrite !shl_align_value by lia.
  rewrite !SFltb_rank. unfold not_nan.
  assert (ex < ey -> Zpos mx < Zpos my * 2 ^ (ey - ex))%Z as Hlt
    by (apply (scaled_lt sx sy); assumption).
  assert (ey < ex -> Zpos my < Zpos mx * 2 ^ (ex - ey))%Z as Hgt
    by (apply (scaled_lt sy sx); assumption).
  destruct (Z.lt_total ex ey) as [He | [He | He]].
  - specialize (Hlt He). rewrite Z.min_l by lia.
    replace (ex - ex)%Z with 0%Z by lia. rewrite Z.mul_1_r.
    set (P := (Zpos my * 2 ^ (ey - ex))%Z) in *. clearbody P.
    destruct sx, sy; cbn [rank rank_lt cond_Zopp];
      repeat split; try discriminate; intros; lia.
  - subst ey. rewrite Z.min_l by lia.
    replace (ex - ex)%Z with 0%Z by lia. rewrite !Z.mul_1_r.
    destruct sx, sy; cbn [rank rank_lt cond_Zopp];
      repeat split; try discriminate; intros; lia.
  - specialize (Hgt He). rewrite Z.min_r by lia.
    replace (ey - ey)%Z with 0%Z by lia. rewrite Z.mul_1_r.
    set (P := (Zpos mx * 2 ^ (ex - ey))%Z) in *. clearbody P.
    destruct sx, sy; cbn [rank rank_lt cond_Zopp];
      repeat split; try discriminate; intros; lia.
Qed.

Lemma binary_normalize_sign (m e : Z) :
  (emin <= e)%Z ->
  SFltb (binary_normalize prec emax m e false) (S754_zero false) = (m <? 0)%Z.
Proof.
  intros He. destruct m as [ | p | p]; cbn [binary_normalize].
  - reflexivity.
  - apply (SFltb_zero_signed false), binary_round_signed, He.
  - apply (SFltb_zero_signed true), binary_round_signed, He.
Qed.

Lemma SFsub_negative (x y : spec_float) :
  valid_binary x = true -> valid_binary y = true ->
  SFltb (SF64sub x y) (S754_zero false) = SFltb x y.
Proof.
  intros Hx Hy.
  destruct x as [sx | sx | | sx mx ex]; destruct y as [sy | sy | | sy my ey];
    try reflexivity;
    try (destruct sx; try destruct sy; reflexivity);
    try (destruct sy; reflexivity).
  unfold SF64sub, SFsub.
  change (Z.sub (cond_Zopp sx (Zpos (fst (shl_align mx ex (Z.min ex ey)))))
                (cond_Zopp sy (Zpos (fst (shl_align my ey (Z.min ex ey))))))
    with (sub_mantissa sx mx ex sy my ey).
  pose proof (valid_finite _ _ _ Hx) as (Hex & _).
  pose proof (valid_finite _ _ _ Hy) as (Hey & _).
  rewrite binary_normalize_sign by lia.
  destruct (sub_mantissa_sign sx mx ex sy my ey Hx Hy) as [Hlt _].
  destruct (SFltb (S754_finite sx mx ex) (S754_finite sy my ey)) eqn:E.
  - apply Z.ltb_lt. now apply Hlt.
  - apply Z.ltb_ge. destruct (Z.lt_ge_cases (sub_mantissa sx mx ex sy my ey) 0) as [H | H];
      [apply Hlt in H; discriminate | exact H].
Qed.

(** [a - b < 0] exactly when [a < b]: the comparator of a sort by
    distance orders by the distance. *)
Lemma sub_ltb_zero (x y : float) : (x - y <? 0)%float = (x <? y)%float.
Proof.
  rewrite !ltb_spec, sub_spec.
  change (Prim2SF 0) with (S754_zero false).
  apply SFsub_negative; apply Prim2SF_valid.
Qed.

(* ================================================================= *)
(** ** The stable sort *)

Section SortFacts.

Context {A : Type} (before : A -> A -> bool).

Lemma insert_by_length (x : A) (l : list A) :
  List.length (insert_by before x l) = S (List.length l).
Proof.
  induction l as [ | y l IH]; cbn; [reflexivity | ].
  destruct (before y x); cbn; congruence.
Qed.

Lemma sort_by_cons (x : A) (l : list A) :
  sort_by before (x :: l) = insert_by before x (sort_by before l).
Proof. reflexivity. Qed.

Lemma sort_by_length (l : list A) : List.length (sort_by before l) = List.length l.
Proof.
  induction l as [ | x l IH]; [reflexivity | ].
  rewrite sort_by_cons, insert_by_length, IH. reflexivity.
Qed.

Lemma insert_by_perm (x : A) (l : list A) : Permutation (insert_by before x l) (x :: l).
Proof.
  induction l as [ | y l IH]; cbn; [reflexivity | ].
  destruct (before y x); [ | reflexivity].
  rewrite IH. apply perm_swap.
Qed.

Lemma sort_by_perm (l : list A) : Permutation (sort_by before l) l.
Proof.
  induction l as [ | x l IH]; [reflexivity | ].
  rewrite sort_by_cons, insert_by_perm. now apply perm_skip.
Qed.

(** Sortedness, for elements on which the comparator decides an order
    [le]: what it puts before is below, what it does not is above. *)
Section Sorted.

Variable ok : A -> Prop.
Variable le : A -> A -> Prop.
Hypothesis before_le : forall a b, ok a -> ok b -> before a b = true -> le a b.
Hypothesis not_before_le : forall a b, ok a -> ok b -> before a b = false -> le b a.

Lemma insert_by_sorted (x : A) (l : list A) :
  ok x -> Forall ok l -> Sorted le l -> Sorted le (insert_by before x l).
Proof.
  intros Hx Hl Hs. induction l as [ | y l IH]; cbn.
  - repeat constructor.
  - inversion Hl as [ | ? ? Hy Hl']; subst.
    inversion Hs as [ | ? ? Hs' Hhd]; subst.
    destruct (before y x) eqn:E.
    + constructor; [now apply IH | ].
      destruct l as [ | z l]; cbn.
      * constructor. now apply before_le.
      * destruct (before z x); constructor.
        -- now inversion Hhd.
        -- now apply before_le.
    + constructor; [exact Hs | ]. constructor. now apply not_before_le.
Qed.

Lemma sort_by_sorted (l : list A) : Forall ok l -> Sorted le (sort_by before l).
Proof.
  induction l as [ | x l IH]; intros H; [constructor | ].
  inversion H; subst. rewrite sort_by_cons.
  apply insert_by_sorted; auto.
  eapply Permutation_Forall; [symmetry; apply sort_by_perm | assumption].
Qed.

End Sorted.

(** Stability: a class [q] of elements the comparator never puts one
    before another keeps the order it had in the input. *)
Section Stable.

Variable q : A -> bool.
Hypothesis class_not_before :
  forall x y, before y x = true -> q x = true -> q y = false.



End Stable.

End SortFacts.

(* ================================================================= *)
(** ** The reference matcher *)

Lemma StronglySorted_firstn {A : Type} (R : A -> A -> Prop) (k : nat) (l : list A) :
  StronglySorted R l -> StronglySorted R (firstn k l).
Proof.
  intros H. revert k. induction H as [ | x l Hs IH Hall]; intros [ | k]; cbn;
    try constructor.
  - apply IH.
  - apply Forall_forall. intros y Hy.
    rewrite Forall_forall in Hall. apply Hall.
    eapply (In_nth_error) in Hy as [n Hn].
    apply nth_error_In with n.
    rewrite nth_error_firstn in Hn. now destruct (n <? k)%nat.
Qed.

Lemma closer_ltb (a b : pantone * float) : closer a b = (snd a <? snd b)%float.
Proof. apply sub_ltb_zero. Qed.

Lemma by_distance_trans : Relations_1.Transitive by_distance.
Proof. intros a b c. apply leb_trans. Qed.


(* ================================================================= *)
(** ** Differences: [x - x] and [y - x] against [x - y] *)

Lemma SFsub_diag (x : spec_float) :
  match x with S754_zero _ | S754_finite _ _ _ => True | _ => False end ->
  SF64sub x x = S754_zero false.
Proof.
  destruct x as [s | s | | s m e]; try tauto; intros _.
  - now destruct s.
  - unfold SF64sub, SFsub. now rewrite Z.sub_diag.
Qed.

Lemma is_finite_spec (x : float) :
  is_finite x = true ->
  match Prim2SF x with S754_zero _ | S754_finite _ _ _ => True | _ => False end.
Proof.
  unfold is_finite, is_nan, is_infinity.
  rewrite !eqb_spec, abs_spec.
  change (Prim2SF infinity) with (S754_infinity false).
  destruct (Prim2SF x) as [s | s | | s m e]; try (intros _; exact I);
    [destruct s | ]; cbn; discriminate.
Qed.

Lemma sub_diag (x : float) : is_finite x = true -> (x - x)%float = 0%float.
Proof.
  intros H. apply Prim2SF_inj. rewrite sub_spec.
  apply SFsub_diag, is_finite_spec, H.
Qed.

Lemma binary_round_aux_opp (s : bool) (m e : Z) (l : location) :
  binary_round_aux prec emax (negb s) m e l
  = SFopp (binary_round_aux prec emax s m e l).
Proof.
  unfold binary_round_aux.
  destruct (shr_fexp prec emax m e l) as [mrs' e'].
  destruct (shr_fexp prec emax _ e' loc_Exact) as [mrs'' e''].
  destruct (shr_m mrs''); try reflexivity.
  now destruct (_ <=? _)%Z.
Qed.

Lemma binary_normalize_opp (m e : Z) :
  m <> 0%Z ->
  binary_normalize prec emax (- m) e false
  = SFopp (binary_normalize prec emax m e false).
Proof.
  intros Hm. destruct m as [ | p | p]; [congruence | | ];
    cbn [Z.opp binary_normalize]; unfold binary_round;
    destruct (shl_align p e _) as [mz ez].
  - apply (binary_round_aux_opp false).
  - rewrite (binary_round_aux_opp true). reflexivity.
Qed.

Lemma SFopp_involutive (x : spec_float) : SFopp (SFopp x) = x.
Proof. destruct x as [s | s | | s m e]; cbn; now rewrite ?negb_involutive. Qed.

Lemma SFsub_swap (x y : spec_float) :
  SF64sub y x = SFopp (SF64sub x y) \/
  (SF64sub x y = S754_zero false /\ SF64sub y x = S754_zero false).
Proof.
  destruct x as [sx | sx | | sx mx ex]; destruct y as [sy | sy | | sy my ey];
    try (left; reflexivity);
    try (destruct sx; try destruct sy; cbn; auto; fail);
    try (destruct sy; cbn; auto; fail).
  unfold SF64sub, SFsub. rewrite (Z.min_comm ey ex).
  set (a := cond_Zopp sx _). set (b := cond_Zopp sy _).
  destruct (Z.eq_dec (a - b) 0) as [E | E].
  - right. replace (b - a)%Z with 0%Z by lia. rewrite E. auto.
  - left. replace (b - a)%Z with (- (a - b))%Z by lia.
    now apply binary_normalize_opp.
Qed.

Lemma sub_swap (x y : float) :
  (y - x)%float = (- (x - y))%float \/
  ((x - y)%float = 0%float /\ (y - x)%float = 0%float).
Proof.
  destruct (SFsub_swap (Prim2SF x) (Prim2SF y)) as [H | [H1 H2]].
  - left. apply Prim2SF_inj. now rewrite opp_spec, !sub_spec.
  - right. split; apply Prim2SF_inj; now rewrite sub_spec.
Qed.

Lemma mul_opp_opp (x : float) : (- x * - x)%float = (x * x)%float.
Proof.
  apply Prim2SF_inj. rewrite !mul_spec, opp_spec.
  destruct (Prim2SF x) as [s | s | | s m e]; cbn; try reflexivity;
    now destruct s.
Qed.

(* ================================================================= *)
(** ** The perceptual distance *)

Section Distance.

Variable Math_pow : float -> float -> float.

(** What is assumed of [Math.pow]: the square of [+0] is [+0], and a
    number and its opposite have the same square. *)
Hypothesis pow_zero : Math_pow 0 2 = 0%float.
Hypothesis pow_even : forall d, Math_pow (- d) 2 = Math_pow d 2.

Lemma square_swap (x y : float) : Math_pow (y - x) 2 = Math_pow (x - y) 2.
Proof.
  destruct (sub_swap x y) as [-> | [-> ->]]; [apply pow_even | reflexivity].
Qed.

Lemma lab_distance_sym (l1 l2 : lab) :
  lab_distance Math_pow l1 l2 = lab_distance Math_pow l2 l1.
Proof.
  unfold lab_distance.
  now rewrite (square_swap (lab_L l1)), (square_swap (lab_a l1)),
    (square_swap (lab_b l1)).
Qed.

Lemma lab_distance_diag (l : lab) :
  lab_finite l = true -> lab_distance Math_pow l l = 0%float.
Proof.
  unfold lab_finite, lab_distance. intros H.
  apply andb_true_iff in H as [H Hb]. apply andb_true_iff in H as [HL Ha].
  rewrite !sub_diag by assumption. rewrite pow_zero. reflexivity.
Qed.

(** C9: the distance of a colour to itself is 0, the colour being one
    that parses and whose Lab coordinates are finite; and the distance
    is symmetric. *)
Theorem deltaE76_identity_symmetry :
  (forall (hex : string) (c : rgb),
     hexToRgb hex = Some c ->
     lab_finite (rgbToLab Math_pow (red c) (green c) (blue c)) = true ->
     deltaE76 Math_pow hex hex = 0%float) /\
  (forall hex1 hex2 : string,
     deltaE76 Math_pow hex1 hex2 = deltaE76 Math_pow hex2 hex1).
Proof.
  split.
  - intros hex c Hc Hfin. unfold deltaE76. rewrite Hc.
    now apply lab_distance_diag.
  - intros hex1 hex2. unfold deltaE76.
    destruct (hexToRgb hex1), (hexToRgb hex2); try reflexivity.
    apply lab_distance_sym.
Qed.

End Distance.

Lemma deltaE76_identity_symmetry_witness :
  deltaE76 pow_square "#708090" "#708090" = 0%float /\
  deltaE76 pow_square "#4682B4" "#634E34" = deltaE76 pow_square "#634E34" "#4682B4".
Proof.
  destruct (deltaE76_identity_symmetry pow_square eq_refl (fun d => mul_opp_opp d))
    as [Hid Hsym].
  split; [ | apply Hsym].
  apply (Hid "#708090"%string (mkRgb 112 128 144)); reflexivity.
Defined.


(* ================================================================= *)
(** ** What rounding can change *)

Lemma shr_fexp_floor (m e : Z) (l : location) :
  (0 < m)%Z -> (emin <= e)%Z ->
  exists n, (0 <= n)%Z /\ (2 ^ n <= m)%Z /\
    snd (shr_fexp prec emax m e l) = (e + n)%Z /\
    shr_m (fst (shr_fexp prec emax m e l)) = (m / 2 ^ n)%Z.
Proof.
  intros Hm He. unfold shr_fexp, shr.
  destruct m as [ | m | m]; try lia. cbn [Zdigits2].
  pose proof (digits2_pos_bounds m) as [Hlo _].
  set (d := Zpos (digits2_pos m)) in *.
  destruct (fexp prec emax (d + e) - e)%Z as [ | p | p] eqn:En; cbn [fst snd];
    rewrite ?shr_record_of_loc_m.
  - exists 0%Z. rewrite Z.div_1_r. repeat split; lia.
  - exists (Zpos p).
    rewrite iter_shr_m by (rewrite shr_record_of_loc_m; lia).
    rewrite shr_record_of_loc_m.
    assert (Zpos p = d - prec)%Z as Hp by (unfold fexp in En; lia).
    repeat split; try lia.
    apply Z.le_trans with (2 ^ (d - 1))%Z; [ | exact Hlo].
    apply Z.pow_le_mono_r; unfold prec in Hp; lia.
  - exists 0%Z. rewrite Z.div_1_r. repeat split; lia.
Qed.

Lemma round_nearest_even_le (m : Z) (l : location) :
  (round_nearest_even m l <= m + 1)%Z.
Proof.
  destruct l as [ | []]; cbn; try lia. destruct (Z.even m); lia.
Qed.

(** The rounded mantissa [p], at the exponent [e + n], is within two
    units of the last place of the mantissa [m] it was rounded from. *)
Lemma binary_round_aux_coarse (s : bool) (m e : Z) (l : location) :
  (0 < m)%Z -> (emin <= e)%Z ->
  exists (n : Z) (p : positive),
    (0 <= n)%Z /\ (2 ^ n <= 2 * m)%Z /\
    (Zpos p * 2 ^ n <= m + 2 ^ n)%Z /\ (m < Zpos p * 2 ^ n + 2 * 2 ^ n)%Z /\
    binary_round_aux prec emax s m e l =
      if (e + n <=? emax - prec)%Z then S754_finite s p (e + n)
      else S754_infinity s.
Proof.
  intros Hm He. unfold binary_round_aux.
  destruct (shr_fexp_floor m e l Hm He) as (n1 & Hn1 & Hp1 & He1 & Hm1).
  destruct (shr_fexp prec emax m e l) as [mrs' e']. cbn [fst snd] in He1, Hm1.
  pose proof (round_nearest_even_ge (shr_m mrs') (loc_of_shr_record mrs')) as Hge.
  pose proof (round_nearest_even_le (shr_m mrs') (loc_of_shr_record mrs')) as Hle.
  set (m2 := round_nearest_even (shr_m mrs') (loc_of_shr_record mrs')) in *.
  assert (0 < 2 ^ n1)%Z as Hpos1 by (apply Z.pow_pos_nonneg; lia).
  assert (1 <= shr_m mrs')%Z as H1
    by (rewrite Hm1; apply Z.div_le_lower_bound; lia).
  pose proof (Z.mul_div_le m (2 ^ n1) Hpos1) as Hfl1.
  pose proof (Z.mul_succ_div_gt m (2 ^ n1) Hpos1) as Hfu1.
  rewrite <- Hm1 in Hfl1, Hfu1.
  assert (0 < m2)%Z as Hm2 by lia.
  assert (emin <= e')%Z as He' by lia.
  destruct (shr_fexp_floor m2 e' loc_Exact Hm2 He') as (n2 & Hn2 & Hp2 & He2 & Hm3).
  destruct (shr_fexp prec emax m2 e' loc_Exact) as [mrs'' e''].
  cbn [fst snd] in He2, Hm3.
  assert (0 < 2 ^ n2)%Z as Hpos2 by (apply Z.pow_pos_nonneg; lia).
  assert (1 <= shr_m mrs'')%Z as H3
    by (rewrite Hm3; apply Z.div_le_lower_bound; lia).
  pose proof (Z.mul_div_le m2 (2 ^ n2) Hpos2) as Hfl2.
  pose proof (Z.mul_succ_div_gt m2 (2 ^ n2) Hpos2) as Hfu2.
  rewrite <- Hm3 in Hfl2, Hfu2.
  destruct (shr_m mrs'') as [ | p | p] eqn:E3; try lia.
  exists (n1 + n2)%Z, p.
  rewrite Z.pow_add_r by lia.
  replace (e + (n1 + n2))%Z with e'' by lia.
  set (P1 := (2 ^ n1)%Z) in *. set (P2 := (2 ^ n2)%Z) in *.
  set (m1 := shr_m mrs') in *.
  clearbody P1 P2 m1 m2.
  repeat split; try lia; try nia.
Qed.

(* ================================================================= *)
(** ** The real value of a number, and the error of one operation *)

Section RealValue.

Local Open Scope R_scope.

Lemma bpow_pos (e : Z) : 0 < bpow e.
Proof. apply powerRZ_lt. lra. Qed.

Lemma bpow_add (a b : Z) : bpow (a + b) = bpow a * bpow b.
Proof. apply powerRZ_add. lra. Qed.

Lemma bpow_IZR (n : Z) : (0 <= n)%Z -> bpow n = IZR (2 ^ n).
Proof.
  intros H. unfold bpow. destruct n as [ | p | p]; [reflexivity | | lia].
  rewrite <- Z.pow_pos_fold. now rewrite Zpower_pos_powerRZ.
Qed.

Lemma bpow_le_shift (e n : Z) : (0 <= n)%Z -> bpow e <= bpow (e + n).
Proof.
  intros H. rewrite bpow_add, (bpow_IZR n H).
  assert (1 <= 2 ^ n)%Z as H1 by (apply (Z.pow_le_mono_r 2 0 n); lia).
  apply IZR_le in H1. pose proof (bpow_pos e). nra.
Qed.

Lemma kappa_bounds : 0 < kappa /\ kappa * IZR (2 ^ 52) = 3.
Proof.
  unfold kappa. assert (0 < IZR (2 ^ 52)) by (apply IZR_lt; reflexivity).
  split; [apply Rdiv_lt_0_compat; lra | field; lra].
Qed.

(** One rounding: a mantissa [m] below [2^k] at an exponent well inside
    the range rounds to a normal number near every real of the interval
    the mantissa stands for. *)
Lemma round_value (m e k : Z) (l : location) (x : R) :
  (0 < m < 2 ^ k)%Z -> (emin < e)%Z -> (0 <= k)%Z -> (e + k + 1 <= emax - prec)%Z ->
  valid_binary (binary_round_aux prec emax false m e l) = true ->
  IZR m * bpow e <= x < IZR (m + 1) * bpow e ->
  normal_in e (e + k + 1) (binary_round_aux prec emax false m e l) /\
  near (SF2R (binary_round_aux prec emax false m e l)) x.
Proof.
  intros [Hm Hk] He Hk0 Hov Hvalid [Hlo Hhi].
  destruct (binary_round_aux_coarse false m e l Hm ltac:(lia))
    as (n & p & Hn & Hpow & Hup & Hdown & Heq).
  assert (n < k + 1)%Z as Hnk.
  { apply (Z.pow_lt_mono_r_iff 2); [lia | lia | ].
    rewrite Z.pow_add_r by lia. change (2 ^ 1)%Z with 2%Z. lia. }
  assert ((e + n <=? emax - prec)%Z = true) as Hfin by (apply Z.leb_le; lia).
  rewrite Hfin in Heq. rewrite Heq in Hvalid |- *.
  apply valid_finite in Hvalid as (_ & Hlt & Hnorm).
  specialize (Hnorm ltac:(lia)). unfold prec in Hlt, Hnorm.
  change (53 - 1)%Z with 52%Z in Hnorm.
  split.
  { exists p, (e + n)%Z. repeat split; lia. }
  unfold near, SF2R, cond_Zopp.
  rewrite bpow_add, (bpow_IZR n Hn).
  pose proof (bpow_pos e) as Hb.
  destruct kappa_bounds as [Hk1 Hk2].
  assert (0 < 2 ^ n)%Z as Hpn by (apply Z.pow_pos_nonneg; lia).
  apply IZR_lt in Hpn. apply IZR_le in Hup. apply IZR_lt in Hdown.
  apply IZR_le in Hnorm.
  rewrite plus_IZR, mult_IZR in Hup. rewrite !plus_IZR, !mult_IZR in Hdown.
  rewrite plus_IZR in Hhi.
  set (P := IZR (2 ^ n)) in *. set (M := IZR m) in *. set (Q := IZR (Zpos p)) in *.
  set (B := bpow e) in *. set (C := IZR (2 ^ 52)) in *.
  assert (1 <= P) as HP1.
  { subst P. apply IZR_le. apply (Z.pow_le_mono_r 2 0 n); lia. }
  assert (kappa * Q >= 3) as HkQ by nra.
  clearbody P M Q B C.
  assert (0 < B * P) as HBP by (apply Rmult_lt_0_compat; lra).
  assert (0 <= (kappa * Q - 3) * (B * P)) as Hslack
    by (apply Rmult_le_pos; lra).
  split.
  - (* (1 - kappa) * V <= x, with V = Q * (B * P) *)
    assert ((Q * P - P) * B <= M * B) by (apply Rmult_le_compat_r; lra).
    nra.
  - assert ((M + 1) * B <= (Q * P + 3 * P) * B)
      by (apply Rmult_le_compat_r; lra).
    nra.
Qed.

End RealValue.

Section Operations.

Local Open Scope R_scope.

Lemma normal_in_weaken (lo hi lo' hi' : Z) (x : spec_float) :
  (lo' <= lo)%Z -> (hi <= hi')%Z -> normal_in lo hi x -> normal_in lo' hi' x.
Proof.
  intros Hlo Hhi (m & e & -> & He & Hm). exists m, e. repeat split; lia.
Qed.

Lemma normal_in_pos (lo hi : Z) (x : spec_float) : normal_in lo hi x -> 0 < SF2R x.
Proof.
  intros (m & e & -> & _ & _). cbn [SF2R cond_Zopp].
  apply Rmult_lt_0_compat; [apply IZR_lt; lia | apply bpow_pos].
Qed.

Lemma digits2_pos_unique (m : positive) (k : Z) :
  (2 ^ (k - 1) <= Zpos m < 2 ^ k)%Z -> Zpos (digits2_pos m) = k.
Proof.
  intros [Hlo Hhi]. pose proof (digits2_pos_bounds m) as [Dlo Dhi].
  set (d := Zpos (digits2_pos m)) in *.
  assert (0 < d)%Z by (subst d; lia).
  assert (0 < k)%Z.
  { destruct (Z.lt_trichotomy k 0) as [Hk | [Hk | Hk]]; [ | | exact Hk].
    - rewrite (Z.pow_neg_r 2 k) in Hhi by exact Hk. lia.
    - subst k. change (2 ^ 0)%Z with 1%Z in Hhi. lia. }
  assert (d - 1 < k)%Z
    by (apply (Z.pow_lt_mono_r_iff 2); [lia | lia | lia]).
  assert (k - 1 < d)%Z
    by (apply (Z.pow_lt_mono_r_iff 2); [lia | lia | lia]).
  lia.
Qed.

Lemma shl_align_down (m : positive) (e e' : Z) :
  (e' <= e)%Z ->
  snd (shl_align m e e') = e' /\
  Zpos (fst (shl_align m e e')) = (Zpos m * 2 ^ (e - e'))%Z.
Proof.
  intros H. split; [ | now apply shl_align_value].
  unfold shl_align. destruct (e' - e)%Z eqn:E; cbn [snd]; lia.
Qed.

(** An integer count as a number. *)
Lemma of_int_value (c : Z) :
  (1 <= c < 2 ^ 32)%Z ->
  normal_in (-52) 33 (Prim2SF (JS.of_int c)) /\
  near (SF2R (Prim2SF (JS.of_int c))) (IZR c).
Proof.
  intros [Hc1 Hc2]. unfold JS.of_int.
  destruct (c <? 0)%Z eqn:Eneg; [apply Z.ltb_lt in Eneg; lia | ].
  pose proof (Prim2SF_valid (of_uint63 (Uint63Axioms.of_Z c))) as Hvalid.
  rewrite of_uint63_spec in Hvalid |- *.
  assert (Uint63Axioms.to_Z (Uint63Axioms.of_Z c) = c) as Hto.
  { rewrite Uint63.of_Z_spec. apply Z.mod_small.
    unfold Uint63.wB, Uint63.size. cbn. lia. }
  rewrite Hto in *. clear Hto.
  destruct c as [ | pc | pc]; try lia.
  cbn [binary_normalize] in *. unfold binary_round in *.
  pose proof (digits2_pos_bounds pc) as [Dlo Dhi].
  set (d := Zpos (digits2_pos pc)) in *.
  assert (1 <= d <= 32)%Z as Hd.
  { split; [subst d; lia | ].
    assert (d - 1 < 32)%Z by (apply (Z.pow_lt_mono_r_iff 2); lia). lia. }
  assert (fexp prec emax (d + 0) = d - 53)%Z as Hfexp
    by (unfold fexp, SpecFloat.emin, emax, prec; lia).
  rewrite Hfexp in *.
  destruct (shl_align_down pc 0 (d - 53) ltac:(lia)) as [Hez Hmz].
  destruct (shl_align pc 0 (d - 53)) as [mz ez]. cbn [fst snd] in Hez, Hmz.
  subst ez. replace (0 - (d - 53))%Z with (53 - d)%Z in Hmz by lia.
  assert (Zpos mz < 2 ^ 53)%Z as Hmz53.
  { rewrite Hmz. replace 53%Z with (d + (53 - d))%Z at 2 by lia.
    rewrite Z.pow_add_r by lia.
    apply Z.mul_lt_mono_pos_r; [apply Z.pow_pos_nonneg; lia | exact Dhi]. }
  assert (IZR (Zpos mz) * bpow (d - 53) = IZR (Zpos pc)) as Hval.
  { rewrite Hmz, mult_IZR, <- (bpow_IZR (53 - d)) by lia.
    rewrite Rmult_assoc, <- bpow_add.
    replace (53 - d + (d - 53))%Z with 0%Z by lia.
    unfold bpow. cbn. lra. }
  destruct (round_value (Zpos mz) (d - 53) 53 loc_Exact (IZR (Zpos pc))) as [Hn Hnear];
    try assumption; try (unfold SpecFloat.emin, emax, prec; lia).
  { rewrite plus_IZR, Rmult_plus_distr_r, Hval.
    pose proof (bpow_pos (d - 53)). lra. }
  split; [ | exact Hnear].
  eapply normal_in_weaken; [ | | exact Hn]; lia.
Qed.

(** A quotient of two counts. *)
Lemma div_value (x y : float) :
  normal_in (-52) 33 (Prim2SF x) -> normal_in (-52) 33 (Prim2SF y) ->
  normal_in (-138) 87 (Prim2SF (x / y)) /\
  near (SF2R (Prim2SF (x / y))) (SF2R (Prim2SF x) / SF2R (Prim2SF y)).
Proof.
  intros (mx & ex & Ex & Hex & Hmx) (my & ey & Ey & Hey & Hmy).
  pose proof (Prim2SF_valid (x / y)) as Hvalid.
  rewrite div_spec in Hvalid |- *. rewrite Ex, Ey in *.
  unfold SF64div, SFdiv, SFdiv_core_binary in *. cbn [Zdigits2] in *.
  rewrite (digits2_pos_unique mx 53), (digits2_pos_unique my 53) in * by (cbn; lia).
  assert (Z.min (fexp prec emax (53 + ex - (53 + ey))) (ex - ey) = ex - ey - 53)%Z as He'
    by (unfold fexp, SpecFloat.emin, emax, prec; lia).
  rewrite He' in *.
  replace (ex - ey - (ex - ey - 53))%Z with 53%Z in * by lia.
  rewrite Z.shiftl_mul_pow2 in * by lia.
  set (m' := (Zpos mx * 2 ^ 53)%Z) in *.
  assert (Z.div_eucl m' (Zpos my) = (m' / Zpos my, m' mod Zpos my)%Z) as Hdm
    by (unfold Z.div, Z.modulo; now destruct (Z.div_eucl m' (Zpos my))).
  rewrite Hdm in *.
  set (q := (m' / Zpos my)%Z) in *.
  assert (2 ^ 52 <= q < 2 ^ 54)%Z as Hq.
  { subst q m'. split.
    - apply Z.div_le_lower_bound; [lia | ].
      change (2 ^ 53)%Z with (2 * 2 ^ 52)%Z. nia.
    - apply Z.div_lt_upper_bound; [lia | ].
      change (2 ^ 54)%Z with (2 * 2 ^ 53)%Z.
      change (2 ^ 53)%Z with 9007199254740992%Z in *.
      change (2 ^ 52)%Z with 4503599627370496%Z in *. nia. }
  pose proof (Z.mul_div_le m' (Zpos my) ltac:(lia)) as Hfl.
  pose proof (Z.mul_succ_div_gt m' (Zpos my) ltac:(lia)) as Hfu.
  fold q in Hfl, Hfu.
  destruct (round_value q (ex - ey - 53) 54
              (new_location (Zpos my) (m' mod Zpos my))
              (SF2R (S754_finite false mx ex) / SF2R (S754_finite false my ey)))
    as [Hn Hnear]; try assumption; try (unfold SpecFloat.emin, emax, prec; lia).
  { cbn [SF2R cond_Zopp].
    assert (IZR (Zpos mx) * bpow ex / (IZR (Zpos my) * bpow ey)
            = IZR m' / IZR (Zpos my) * bpow (ex - ey - 53)) as ->.
    { subst m'. rewrite mult_IZR.
      replace ex with ((ex - ey - 53) + 53 + ey)%Z at 1 by lia.
      rewrite !bpow_add, (bpow_IZR 53) by lia.
      pose proof (bpow_pos ey). pose proof (bpow_pos (ex - ey - 53)).
      assert (0 < IZR (Zpos my)) by (apply IZR_lt; lia).
      field. split; lra. }
    assert (0 < IZR (Zpos my)) as Hy0 by (apply IZR_lt; lia).
    pose proof (bpow_pos (ex - ey - 53)) as Hb.
    apply IZR_le in Hfl. apply IZR_lt in Hfu.
    rewrite mult_IZR in Hfl. rewrite mult_IZR in Hfu.
    unfold Z.succ in Hfu.
    split.
    - apply Rmult_le_compat_r; [lra | ].
      apply Rmult_le_reg_r with (IZR (Zpos my)); [exact Hy0 | ].
      unfold Rdiv. rewrite Rmult_assoc, Rinv_l by lra. lra.
    - apply Rmult_lt_compat_r; [exact Hb | ].
      apply Rmult_lt_reg_r with (IZR (Zpos my)); [exact Hy0 | ].
      unfold Rdiv. rewrite Rmult_assoc, Rinv_l by lra. lra. }
  split; [ | exact Hnear].
  eapply normal_in_weaken; [ | | exact Hn]; lia.
Qed.

(** The product of a quotient and 100. *)
Lemma mul_100_value (q : float) :
  normal_in (-138) 87 (Prim2SF q) ->
  normal_in (-184) 148 (Prim2SF (q * 100)) /\
  near (SF2R (Prim2SF (q * 100))) (SF2R (Prim2SF q) * 100).
Proof.
  intros (mq & eq & Eq & Heq & Hmq).
  pose proof (Prim2SF_valid (q * 100)) as Hvalid.
  rewrite mul_spec in Hvalid |- *. rewrite Eq in *.
  change (Prim2SF 100) with (S754_finite false 7036874417766400 (-46)) in *.
  unfold SF64mul, SFmul in *. cbn [xorb] in *.
  destruct (round_value (Zpos (mq * 7036874417766400)) (eq + -46) 106 loc_Exact
              (SF2R (S754_finite false mq eq) * 100))
    as [Hn Hnear]; try assumption; try (unfold SpecFloat.emin, emax, prec; lia).
  { cbn [SF2R cond_Zopp]. rewrite Pos2Z.inj_mul, mult_IZR, bpow_add.
    assert (IZR 7036874417766400 * bpow (-46) = 100) as H100.
    { change (-46)%Z with (- (46))%Z. unfold bpow. rewrite powerRZ_neg'.
      fold (bpow 46). rewrite (bpow_IZR 46) by lia.
      change 7036874417766400%Z with (100 * 2 ^ 46)%Z. rewrite mult_IZR.
      assert (0 < IZR (2 ^ 46)) by (apply IZR_lt; reflexivity).
      field. lra. }
    pose proof (bpow_pos eq) as Hb. pose proof (bpow_pos (-46)) as Hb'.
    assert (0 < IZR (Zpos mq)) by (apply IZR_lt; lia).
    split.
    - apply Req_le. rewrite <- H100. ring.
    - rewrite plus_IZR, mult_IZR, <- H100. nra. }
  split; [ | exact Hnear].
  eapply normal_in_weaken; [ | | exact Hn]; lia.
Qed.

End Operations.

(* ================================================================= *)
(** ** The percentage of a bucket *)

Section Percent.

Local Open Scope R_scope.

Lemma kappa_theta :
  0 < kappa /\ kappa < 1 / 1000 /\ theta = 16 / 3 * kappa /\
  1 + kappa <= (1 + theta) * ((1 - kappa) * (1 - kappa) * (1 - kappa)) /\
  (1 - theta) * ((1 + kappa) * (1 + kappa) * (1 + kappa)) <= 1 - kappa /\
  theta * IZR (2 ^ 40) < 1.
Proof.
  unfold kappa, theta.
  assert (IZR (2 ^ 52) = 4096 * IZR (2 ^ 40)) as HE
    by (rewrite <- mult_IZR; reflexivity).
  assert (1000000 <= IZR (2 ^ 40)) as H40 by (apply IZR_le; cbn; lia).
  set (F := IZR (2 ^ 40)) in *. rewrite HE.
  assert (0 < / (4096 * F)) as Hinv by (apply Rinv_0_lt_compat; lra).
  assert (/ (4096 * F) * (4096 * F) = 1) as Hone by (apply Rinv_l; lra).
  unfold Rdiv. set (e := / (4096 * F)) in *.
  assert (e <= 1 / 1000000) as He by nra.
  repeat split; try nra.
Qed.

(** The number the code rounds to a percentage is [100 c / T] up to the
    relative error [theta]. *)
Lemma percent_value (c T : Z) :
  (1 <= c < 2 ^ 32)%Z -> (1 <= T < 2 ^ 32)%Z ->
  let v := (JS.of_int c / JS.of_int T * 100)%float in
  normal_in (-184) 148 (Prim2SF v) /\
  (1 - theta) * (100 * IZR c) <= SF2R (Prim2SF v) * IZR T
    <= (1 + theta) * (100 * IZR c).
Proof.
  intros Hc HT v.
  destruct (of_int_value c Hc) as [Hnx Hx].
  destruct (of_int_value T HT) as [Hny Hy].
  destruct (div_value _ _ Hnx Hny) as [Hnq Hq].
  destruct (mul_100_value _ Hnq) as [Hnv Hv].
  split; [exact Hnv | ].
  pose proof (normal_in_pos _ _ _ Hnx) as Ha.
  pose proof (normal_in_pos _ _ _ Hny) as Hb.
  pose proof (normal_in_pos _ _ _ Hnq) as Hq0.
  pose proof (normal_in_pos _ _ _ Hnv) as Hv0.
  fold v in Hv, Hv0, Hnv.
  unfold near in *.
  set (a := SF2R (Prim2SF (JS.of_int c))) in *.
  set (b := SF2R (Prim2SF (JS.of_int T))) in *.
  set (q := SF2R (Prim2SF (JS.of_int c / JS.of_int T))) in *.
  set (w := SF2R (Prim2SF v)) in *.
  set (C := IZR c) in *. set (D := IZR T) in *.
  destruct kappa_theta as (Hk0 & Hk1 & _ & Hup & Hdown & _).
  set (k := kappa) in *. set (t := theta) in *.
  clearbody a b q w C D k t.
  assert ((1 - k) * q * b <= a <= (1 + k) * q * b) as [Hq1 Hq2].
  { destruct Hq as [Hq1 Hq2].
    assert (a / b * b = a) as E by (field; lra).
    split.
    - rewrite <- E. rewrite Rmult_assoc.
      replace ((1 - k) * (q * b)) with ((1 - k) * q * b) by ring.
      apply Rmult_le_compat_r; lra.
    - rewrite <- E at 1. apply Rmult_le_compat_r; lra. }
  destruct Hx as [Hx1 Hx2], Hy as [Hy1 Hy2], Hv as [Hv1 Hv2].
  assert (0 < 1 - k) as Hmk by lra. assert (0 < 1 + k) as Hpk by lra.
  split.
  - (* lower: (1+k)^3 * (w * D) >= (1-k) * 100 * C *)
    assert ((1 - k) * b * w <= D * w) as S1 by (apply Rmult_le_compat_r; lra).
    assert (100 * q * ((1 - k) * b) <= (1 + k) * w * ((1 - k) * b)) as S2
      by (apply Rmult_le_compat_r; nra).
    assert (100 * (1 - k) * a <= 100 * (1 - k) * ((1 + k) * q * b)) as S3
      by (apply Rmult_le_compat_l; nra).
    assert (100 * (1 - k) * C <= 100 * (1 - k) * ((1 + k) * a)) as S4
      by (apply Rmult_le_compat_l; nra).
    assert ((1 + k) * (100 * (1 - k) * a)
            <= (1 + k) * (100 * (1 - k) * ((1 + k) * q * b))) as T1
      by (apply Rmult_le_compat_l; lra).
    assert ((1 + k) * (1 + k) * (100 * q * ((1 - k) * b))
            <= (1 + k) * (1 + k) * ((1 + k) * w * ((1 - k) * b))) as T2
      by (apply Rmult_le_compat_l; nra).
    assert ((1 + k) * (1 + k) * (1 + k) * ((1 - k) * b * w)
            <= (1 + k) * (1 + k) * (1 + k) * (D * w)) as T3
      by (apply Rmult_le_compat_l; nra).
    assert (100 * (1 - k) * C <= (1 + k) * (1 + k) * (1 + k) * (w * D)) as S5 by lra.
    assert ((1 - t) * ((1 + k) * (1 + k) * (1 + k)) * (100 * C)
            <= (1 - k) * (100 * C)) as S6
      by (apply Rmult_le_compat_r; nra).
    assert (0 < (1 + k) * (1 + k) * (1 + k)) as Hc3 by nra.
    apply Rmult_le_reg_l with ((1 + k) * (1 + k) * (1 + k)); [exact Hc3 | ]. nra.
  - assert (w * D <= w * ((1 + k) * b)) as S1 by (apply Rmult_le_compat_l; lra).
    assert ((1 - k) * w * ((1 - k) * b) <= 100 * q * ((1 - k) * b)) as S2
      by (apply Rmult_le_compat_r; nra).
    assert (100 * (1 - k) * ((1 - k) * q * b) <= 100 * (1 - k) * a) as S3
      by (apply Rmult_le_compat_l; nra).
    assert (100 * ((1 - k) * a) <= 100 * C) as S4
      by (apply Rmult_le_compat_l; nra).
    assert ((1 - k) * (1 - k) * (1 - k) * (w * D)
            <= (1 - k) * (1 - k) * (1 - k) * (w * ((1 + k) * b))) as T1
      by (apply Rmult_le_compat_l; nra).
    assert ((1 + k) * (1 - k) * ((1 - k) * w * ((1 - k) * b))
            <= (1 + k) * (1 - k) * (100 * q * ((1 - k) * b))) as T2
      by (apply Rmult_le_compat_l; nra).
    assert ((1 + k) * (100 * (1 - k) * ((1 - k) * q * b))
            <= (1 + k) * (100 * (1 - k) * a)) as T3
      by (apply Rmult_le_compat_l; lra).
    assert ((1 + k) * (100 * ((1 - k) * a)) <= (1 + k) * (100 * C)) as T4
      by (apply Rmult_le_compat_l; lra).
    assert ((1 - k) * (1 - k) * (1 - k) * (w * D) <= (1 + k) * (100 * C)) as S5 by lra.
    assert ((1 + k) * (100 * C)
            <= (1 + t) * ((1 - k) * (1 - k) * (1 - k)) * (100 * C)) as S6
      by (apply Rmult_le_compat_r; nra).
    assert (0 < (1 - k) * (1 - k) * (1 - k)) as Hc3 by nra.
    apply Rmult_le_reg_l with ((1 - k) * (1 - k) * (1 - k)); [exact Hc3 | ]. nra.
Qed.

End Percent.

Section PercentInteger.

Local Open Scope R_scope.

(** Integers up to 101 survive the trip through a number. *)
Lemma small_of_int (n : Z) : (0 <= n <= 101)%Z -> JS.to_int (JS.of_int n) = n.
Proof.
  intros H.
  assert (forallb (fun k => (JS.to_int (JS.of_int k) =? k)%Z) (range 0 102) = true)
    as Hall by (vm_compute; reflexivity).
  rewrite forallb_forall in Hall.
  apply Z.eqb_eq, Hall, in_range. lia.
Qed.

(** [Math.round] then the integer read back: the nearest integer, a tie
    going up. *)
Lemma round_to_int (v : float) :
  normal_in (-184) 148 (Prim2SF v) -> SF2R (Prim2SF v) < 101 ->
  IZR (JS.to_int (JS.Math_round v)) - 1 / 2 <= SF2R (Prim2SF v)
    < IZR (JS.to_int (JS.Math_round v)) + 1 / 2.
Proof.
  intros (m & e & E & He & Hm) Hlt.
  unfold JS.Math_round. rewrite E in *. cbn [SF2R cond_Zopp] in *.
  destruct (0 <=? e)%Z eqn:Ee.
  - apply Z.leb_le in Ee. unfold JS.to_int. rewrite E.
    cbn [JS.SFfloor cond_Zopp]. rewrite Z.shiftl_mul_pow2 by lia.
    rewrite mult_IZR, <- (bpow_IZR e) by lia. lra.
  - cbn [JS.SFround_half_up cond_Zopp]. rewrite Ee. apply Z.leb_gt in Ee.
    rewrite Z.shiftr_div_pow2 by lia.
    set (k := (- e)%Z) in *.
    assert (0 < 2 ^ (k - 1))%Z as Hh by (apply Z.pow_pos_nonneg; lia).
    assert (2 ^ k = 2 * 2 ^ (k - 1))%Z as Hk
      by (rewrite <- Z.pow_succ_r by lia; f_equal; lia).
    replace (- e - 1)%Z with (k - 1)%Z by lia.
    pose proof (Z.mul_div_le (Zpos m + 2 ^ (k - 1)) (2 ^ k) ltac:(lia)) as Hfl.
    pose proof (Z.mul_succ_div_gt (Zpos m + 2 ^ (k - 1)) (2 ^ k) ltac:(lia)) as Hfu.
    set (n := ((Zpos m + 2 ^ (k - 1)) / 2 ^ k)%Z) in *.
    assert (bpow e = / IZR (2 ^ k)) as Hb.
    { replace e with (- k)%Z by lia. unfold bpow. rewrite powerRZ_neg'.
      fold (bpow k). now rewrite bpow_IZR by lia. }
    rewrite Hb in *.
    assert (0 < IZR (2 ^ (k - 1))) as Hh' by (apply IZR_lt; exact Hh).
    assert (IZR (2 ^ k) = 2 * IZR (2 ^ (k - 1))) as Hk'
      by (rewrite Hk, mult_IZR; reflexivity).
    rewrite Hk in Hfl, Hfu. unfold Z.succ in Hfu.
    apply IZR_le in Hfl. apply IZR_lt in Hfu.
    rewrite !mult_IZR, !plus_IZR in Hfl. rewrite !mult_IZR, !plus_IZR in Hfu.
    rewrite Hk' in *.
    set (P := IZR (2 ^ (k - 1))) in *. set (M := IZR (Zpos m)) in *.
    assert (0 < M) as HM by (subst M; apply IZR_lt; lia).
    assert (M * / (2 * P) * (2 * P) = M) as Hcancel by (field; lra).
    assert (IZR n - 1 / 2 <= M * / (2 * P) < IZR n + 1 / 2) as Hn.
    { split.
      - apply Rmult_le_reg_r with (2 * P); [lra | ]. rewrite Hcancel. lra.
      - apply Rmult_lt_reg_r with (2 * P); [lra | ]. rewrite Hcancel. lra. }
    assert (0 < M * / (2 * P)) as Hpos
      by (apply Rmult_lt_0_compat; [lra | apply Rinv_0_lt_compat; lra]).
    assert (0 <= n <= 101)%Z as Hrange.
    { split.
      - apply Z.lt_succ_r, lt_IZR. rewrite succ_IZR. lra.
      - apply Z.lt_succ_r, lt_IZR. rewrite succ_IZR. lra. }
    destruct (n =? 0)%Z eqn:En.
    + apply Z.eqb_eq in En. rewrite En in Hn.
      change (JS.to_int zero) with 0%Z. exact Hn.
    + rewrite small_of_int by exact Hrange. exact Hn.
Qed.

(** C8, for one bucket: the percentage is between 0 and 100 and is
    within 1 of [100 c / T]. *)
Lemma percent_bounds (c T : Z) :
  (1 <= c <= T)%Z -> (T < 2 ^ 32)%Z ->
  (0 <= percent c T <= 100)%Z /\
  (- T < percent c T * T - 100 * c < T)%Z.
Proof.
  intros Hc HT. unfold percent.
  destruct (percent_value c T ltac:(lia) ltac:(lia)) as [Hn [Hlo Hhi]].
  set (v := (JS.of_int c / JS.of_int T * 100)%float) in *.
  destruct kappa_theta as (_ & Hk & Ht & _ & _ & Ht40).
  assert (0 < theta < 1 / 100) as Hth by (destruct kappa_bounds; lra).
  assert (1 <= IZR c) as HC by (apply IZR_le; lia).
  assert (IZR c <= IZR T) as HCT by (apply IZR_le; lia).
  assert (1 <= IZR T) as HT1 by (apply IZR_le; lia).
  pose proof (normal_in_pos _ _ _ Hn) as Hv0.
  set (w := SF2R (Prim2SF v)) in *.
  assert (w <= 100 * (1 + theta)) as Hw100.
  { apply Rmult_le_reg_r with (IZR T); [lra | ]. nra. }
  destruct (round_to_int v Hn ltac:(fold w; lra)) as [Hr1 Hr2]. fold w in Hr1, Hr2.
  set (p := JS.to_int (JS.Math_round v)) in *.
  assert (0 <= p <= 100)%Z as Hp.
  { split.
    - apply Z.lt_succ_r, lt_IZR. rewrite succ_IZR. lra.
    - apply Z.lt_succ_r, lt_IZR. rewrite succ_IZR. lra. }
  split; [exact Hp | ].
  assert (theta * (100 * IZR c) < IZR T / 2) as Hslack by nra.
  split; apply lt_IZR; rewrite ?opp_IZR, minus_IZR, !mult_IZR; nra.
Qed.

(** The percentage grows with the count. *)
Lemma percent_mono (c1 c2 T : Z) :
  (1 <= c1 <= c2)%Z -> (c2 <= T)%Z -> (T < 2 ^ 32)%Z ->
  (percent c1 T <= percent c2 T)%Z.
Proof.
  intros Hc Hc2 HT.
  destruct (Z.eq_dec c1 c2) as [-> | Hne]; [lia | ].
  unfold percent.
  destruct (percent_value c1 T ltac:(lia) ltac:(lia)) as [Hn1 [_ Hhi1]].
  destruct (percent_value c2 T ltac:(lia) ltac:(lia)) as [Hn2 [Hlo2 Hhi2]].
  set (v1 := (JS.of_int c1 / JS.of_int T * 100)%float) in *.
  set (v2 := (JS.of_int c2 / JS.of_int T * 100)%float) in *.
  destruct kappa_theta as (_ & Hk & Ht & _ & _ & Ht40).
  assert (0 < theta < 1 / 100) as Hth by (destruct kappa_bounds; lra).
  assert (1 <= IZR c1) as HC1 by (apply IZR_le; lia).
  assert (IZR c1 + 1 <= IZR c2) as HC12
    by (rewrite <- plus_IZR; apply IZR_le; lia).
  assert (IZR c2 <= IZR T) as HCT by (apply IZR_le; lia).
  assert (IZR T <= IZR (2 ^ 32)) as HT32 by (apply IZR_le; lia).
  assert (IZR (2 ^ 40) = 256 * IZR (2 ^ 32)) as H40
    by (rewrite <- mult_IZR; reflexivity).
  assert (0 < IZR (2 ^ 32)) as H32 by (apply IZR_lt; reflexivity).
  set (w1 := SF2R (Prim2SF v1)) in *. set (w2 := SF2R (Prim2SF v2)) in *.
  assert (w2 <= 100 * (1 + theta)) as Hw2.
  { apply Rmult_le_reg_r with (IZR T); [lra | ]. nra. }
  assert (w1 <= 100 * (1 + theta)) as Hw1.
  { apply Rmult_le_reg_r with (IZR T); [lra | ]. nra. }
  assert (w1 < w2) as Hlt.
  { apply Rmult_lt_reg_r with (IZR T); [lra | ].
    assert (theta * (IZR c1 + IZR c2) < 1) by nra.
    nra. }
  destruct (round_to_int v1 Hn1 ltac:(fold w1; lra)) as [Ha1 Ha2].
  destruct (round_to_int v2 Hn2 ltac:(fold w2; lra)) as [Hb1 Hb2].
  fold w1 in Ha1, Ha2. fold w2 in Hb1, Hb2.
  apply Z.lt_succ_r, lt_IZR. rewrite succ_IZR. lra.
Qed.

End PercentInteger.

(* ================================================================= *)
(** ** The shade clusterer *)

Lemma fold_left_add_acc (l : list Z) (a : Z) :
  fold_left Z.add l a = (a + fold_left Z.add l 0)%Z.
Proof.
  revert a. induction l as [ | x l IH]; intros a; cbn; [lia | ].
  rewrite (IH (a + x)%Z), (IH x). lia.
Qed.

Lemma sumZ_cons (x : Z) (l : list Z) : sumZ (x :: l) = (x + sumZ l)%Z.
Proof. unfold sumZ. cbn. apply fold_left_add_acc. Qed.

Lemma sumZ_perm (l l' : list Z) : Permutation l l' -> sumZ l = sumZ l'.
Proof.
  induction 1 as [ | x l l' _ IH | x y l | l l' l'' _ IH1 _ IH2];
    rewrite ?sumZ_cons; lia.
Qed.

Lemma in_firstn {A : Type} (k : nat) (l : list A) (x : A) :
  In x (firstn k l) -> In x l.
Proof.
  revert l. induction k as [ | k IH]; intros [ | y l]; cbn; try tauto.
  intros [-> | H]; [now left | right; now apply IH].
Qed.

Lemma sumZ_firstn_le (k : nat) (l : list Z) :
  Forall (fun c => 0 <= c)%Z l -> (sumZ (firstn k l) <= sumZ l)%Z.
Proof.
  intros H. revert k. induction H as [ | x l Hx Hl IH]; intros [ | k]; cbn [firstn];
    rewrite ?sumZ_cons; change (sumZ []) with 0%Z; try lia.
  - specialize (IH 0%nat). cbn [firstn] in IH. change (sumZ []) with 0%Z in IH. lia.
  - specialize (IH k). lia.
Qed.

Lemma sumZ_in_le (x : Z) (l : list Z) :
  Forall (fun c => 0 <= c)%Z l -> In x l -> (x <= sumZ l)%Z.
Proof.
  intros H. induction H as [ | y l Hy Hl IH]; cbn [In]; [tauto | ].
  rewrite sumZ_cons.
  assert (0 <= sumZ l)%Z by (apply (sumZ_firstn_le 0 l Hl)).
  intros [-> | Hin]; [lia | specialize (IH Hin); lia].
Qed.

Lemma StronglySorted_map {A B : Type} (R : A -> A -> Prop) (R' : B -> B -> Prop)
    (f : A -> B) (l : list A) :
  (forall a b, In a l -> In b l -> R a b -> R' (f a) (f b)) ->
  StronglySorted R l -> StronglySorted R' (map f l).
Proof.
  intros Hf Hs. induction Hs as [ | x l Hs IH Hall]; cbn; constructor.
  - apply IH. intros a b Ha Hb. apply Hf; now right.
  - rewrite Forall_forall in *. intros y Hy.
    apply in_map_iff in Hy as (b & <- & Hb).
    apply Hf; [now left | now right | now apply Hall].
Qed.

Lemma add_sample_counts (k : float * float * float) (c : rgb)
    (buckets : list (float * float * float * bucket)) :
  Forall (fun n => 1 <= n)%Z (counts buckets) ->
  Forall (fun n => 1 <= n)%Z (counts (add_sample k c buckets)) /\
  sumZ (counts (add_sample k c buckets)) = (sumZ (counts buckets) + 1)%Z.
Proof.
  unfold counts. induction buckets as [ | [k' v] rest IH]; intros H.
  - cbn [add_sample map snd add_to_bucket count]. rewrite sumZ_cons.
    change (sumZ []) with 0%Z.
    split; [repeat constructor; lia | lia].
  - cbn [map snd] in H. inversion H as [ | ? ? Hv Hrest]; subst.
    cbn [add_sample]. destruct (same_key k k'); cbn [map snd add_to_bucket count].
    + rewrite !sumZ_cons. split; [constructor; [lia | exact Hrest] | lia].
    + destruct (IH Hrest) as [IH1 IH2]. rewrite !sumZ_cons, IH2.
      split; [constructor; assumption | lia].
Qed.

Lemma fill_buckets_counts (Math_pow : float -> float -> float) (samples : list rgb) :
  Forall (fun n => 1 <= n)%Z (counts (fill_buckets Math_pow samples)) /\
  sumZ (counts (fill_buckets Math_pow samples)) = Z.of_nat (List.length samples).
Proof.
  unfold fill_buckets.
  assert (forall acc,
    Forall (fun n => 1 <= n)%Z (counts acc) ->
    let r := fold_left
               (fun buckets c => add_sample (bucket_key Math_pow c) c buckets)
               samples acc in
    Forall (fun n => 1 <= n)%Z (counts r) /\
    sumZ (counts r) = (sumZ (counts acc) + Z.of_nat (List.length samples))%Z) as Hgen.
  { induction samples as [ | c samples IH]; intros acc Hacc; cbn [fold_left List.length].
    - split; [exact Hacc | lia].
    - destruct (add_sample_counts (bucket_key Math_pow c) c acc Hacc) as [H1 H2].
      destruct (IH _ H1) as [H3 H4]. split; [exact H3 | ].
      rewrite H4, H2. lia. }
  destruct (Hgen [] ltac:(constructor)) as [H1 H2].
  split; [exact H1 | exact H2].
Qed.

Lemma sum_percent_close (cs : list Z) (T : Z) :
  Forall (fun c => 1 <= c <= T)%Z cs -> (T < 2 ^ 32)%Z ->
  (- (Z.of_nat (List.length cs) * T)
   <= sumZ (map (fun c => percent c T) cs) * T - 100 * sumZ cs
   <= Z.of_nat (List.length cs) * T)%Z.
Proof.
  intros H HT. induction H as [ | c cs Hc Hcs IH].
  - unfold sumZ. cbn. lia.
  - cbn [map List.length]. rewrite !sumZ_cons.
    destruct (percent_bounds c T Hc HT) as [_ Hp]. lia.
Qed.

(** C8: the dominant colours of a non-empty sample set, at most
    [numColors >= 1] of them: each percentage is between 0 and 100, the
    percentages sum to 100 within the number of colours, and they are in
    descending order.  The samples are fewer than 2^32, the bound on the
    length of an array. *)
Theorem cluster_percentages
    (Math_pow : float -> float -> float) (numColors : nat) (samples : list rgb) :
  samples <> [] -> (1 <= numColors)%nat ->
  (Z.of_nat (List.length samples) < 2 ^ 32)%Z ->
  let out := cluster Math_pow numColors samples in
  out <> [] /\ (List.length out <= numColors)%nat /\
  Forall (fun d => 0 <= percentage d <= 100)%Z out /\
  (Z.abs (sumZ (map percentage out) - 100) <= Z.of_nat (List.length out))%Z /\
  StronglySorted (fun a b => percentage b <= percentage a)%Z out.
Proof.
  intros Hne Hn Hlen out. unfold cluster in out.
  destruct (fill_buckets_counts Math_pow samples) as [Hpos Hsum].
  set (buckets := fill_buckets Math_pow samples) in *.
  set (all := sort_by more_pixels (map bucket_mean buckets)) in *.
  assert (Permutation (map mean_count all) (counts buckets)) as Hperm.
  { unfold all, counts. rewrite sort_by_perm, map_map. reflexivity. }
  assert (Forall (fun n => 1 <= n)%Z (map mean_count all)) as Hall1
    by (eapply Permutation_Forall; [symmetry; exact Hperm | exact Hpos]).
  assert (sumZ (map mean_count all) = Z.of_nat (List.length samples)) as Hallsum
    by (rewrite (sumZ_perm _ _ Hperm); exact Hsum).
  assert (all <> []) as Hallne.
  { intros E. rewrite E in Hallsum. unfold sumZ in Hallsum. cbn in Hallsum.
    destruct samples; [congruence | cbn in Hallsum; lia]. }
  assert (StronglySorted (fun a b => mean_count b <= mean_count a)%Z all) as Hsorted.
  { apply Sorted_StronglySorted; [intros a b c; lia | ].
    apply (sort_by_sorted more_pixels (fun _ => True)).
    - intros a b _ _ H. unfold more_pixels in H. apply Z.ltb_lt in H. lia.
    - intros a b _ _ H. unfold more_pixels in H. apply Z.ltb_ge in H. lia.
    - apply Forall_forall. auto. }
  set (sel := firstn numColors all) in *.
  set (total := sumZ (map mean_count sel)) in *.
  assert (sel <> []) as Hselne.
  { unfold sel. destruct all; [congruence | ]. destruct numColors; [lia | discriminate]. }
  assert (Forall (fun n => 0 <= n)%Z (map mean_count all)) as Hall0
    by (eapply Forall_impl; [ | exact Hall1]; intros; cbn in *; lia).
  assert (total <= Z.of_nat (List.length samples))%Z as Htotal.
  { unfold total, sel. rewrite <- firstn_map, <- Hallsum.
    now apply sumZ_firstn_le. }
  assert (forall s, In s sel -> 1 <= mean_count s <= total)%Z as Hcount.
  { intros s Hs. split.
    - rewrite Forall_forall in Hall1. apply Hall1, in_map, (in_firstn numColors), Hs.
    - unfold total. apply sumZ_in_le; [ | now apply in_map].
      apply Forall_forall. intros c Hc.
      apply in_map_iff in Hc as (s' & <- & Hs').
      rewrite Forall_forall in Hall0. apply Hall0, in_map, (in_firstn numColors), Hs'. }
  assert (total < 2 ^ 32)%Z as HT by lia.
  assert (map percentage out = map (fun c => percent c total) (map mean_count sel))
    as Hpct.
  { unfold out. fold buckets. fold all. fold sel. fold total.
    rewrite !map_map. reflexivity. }
  split.
  { unfold out. fold buckets. fold all. fold sel.
    destruct sel; [congruence | discriminate]. }
  split.
  { unfold out. fold buckets. fold all. fold sel.
    rewrite length_map. unfold sel. rewrite length_firstn. lia. }
  split.
  { unfold out. fold buckets. fold all. fold sel. fold total.
    apply Forall_forall. intros d Hd.
    apply in_map_iff in Hd as (s & <- & Hs). cbn [percentage].
    apply percent_bounds; [apply Hcount, Hs | exact HT]. }
  split.
  { rewrite Hpct.
    assert (List.length out = List.length (map mean_count sel)) as ->
      by (unfold out; fold buckets; fold all; fold sel; now rewrite !length_map).
    pose proof (sum_percent_close (map mean_count sel) total) as Hclose.
    fold total in Hclose.
    assert (1 <= total)%Z as Htot1.
    { destruct sel as [ | s sel']; [congruence | ].
      specialize (Hcount s (or_introl eq_refl)). lia. }
    specialize (Hclose ltac:(apply Forall_forall; intros c Hc;
                             apply in_map_iff in Hc as (s & <- & Hs);
                             apply Hcount, Hs) HT).
    set (S := sumZ (map (fun c => percent c total) (map mean_count sel))) in *.
    set (N := Z.of_nat (List.length (map mean_count sel))) in *.
    assert (0 <= N)%Z by (subst N; lia).
    clearbody S N. nia. }
  unfold out. fold buckets. fold all. fold sel. fold total.
  apply (StronglySorted_map (fun a b => mean_count b <= mean_count a)%Z).
  - intros a b Ha Hb Hab. cbn [percentage].
    apply percent_mono; [ | apply Hcount, Ha | exact HT].
    split; [apply Hcount, Hb | exact Hab].
  - unfold sel. now apply StronglySorted_firstn.
Qed.

Lemma cluster_percentages_witness :
  let out := cluster pow_square 10 [mkRgb 200 50 50; mkRgb 10 10 200; mkRgb 200 50 50] in
  out <> [] /\ (List.length out <= 10)%nat /\
  Forall (fun d => 0 <= percentage d <= 100)%Z out /\
  (Z.abs (sumZ (map percentage out) - 100) <= Z.of_nat (List.length out))%Z /\
  StronglySorted (fun a b => percentage b <= percentage a)%Z out.
Proof.
  apply cluster_percentages; [discriminate | lia | cbn; lia].
Defined.

(* ================================================================= *)
(** ** The slate rule of the classifier *)

(** A hue in [210, 270] with saturation at least 0.1 never reaches the
    slate rule: it is Violet from 260 on and Blue below. *)
Lemma classify_hsl_slate_band (c : hsl) :
  (sat c <? 0.1)%float = false ->
  (210 <=? hue c)%float = true -> (hue c <=? 270)%float = true ->
  classify_hsl c =
  if (260 <=? hue c)%float then EYE_COLOR_CATEGORIES.violet
  else EYE_COLOR_CATEGORIES.blue.
Proof.
  intros Hs Hlo Hhi. unfold classify_hsl. rewrite Hs.
  destruct (260 <=? hue c)%float eqn:E.
  - rewrite (leb_trans (hue c) 270 300 Hhi eq_refl). reflexivity.
  - cbn [andb].
    rewrite (leb_trans 200 210 (hue c) eq_refl Hlo).
    destruct (leb_fnum _ _ Hlo) as [H210 Hh].
    rewrite (leb_false_ltb 260 (hue c)); [reflexivity | | exact Hh | exact E].
    apply is_nan_false. reflexivity.
Qed.

Lemma classify_hsl_slate_band_witness :
  classify_hsl (getHSL 102 100 130) = EYE_COLOR_CATEGORIES.violet.
Proof.
  rewrite (classify_hsl_slate_band (getHSL 102 100 130)); reflexivity.
Defined.

(* ================================================================= *)
(** ** The fuel of the pupil search *)

Lemma scan_dx_more_fuel (pixels : list Z) (width height : Z)
    (fuel extra : nat) (dx dy : float) (st : pupil) :
  spare_fuel fuel dx (searchRadius width height) <> O ->
  scan_dx pixels width height (fuel + extra) dx dy st
  = scan_dx pixels width height fuel dx dy st.
Proof.
  revert dx st. induction fuel as [ | fuel IH]; intros dx st H.
  - now elim H.
  - cbn [Nat.add scan_dx spare_fuel] in *.
    destruct (dx <=? searchRadius width height)%float; [ | reflexivity].
    now apply IH.
Qed.

(** Up to the working size of the pipeline (280 pixels) the counter of
    the search loops passes [searchRadius] before the fuel runs out. *)
Lemma scan_fuel_enough (width height : Z) :
  (1 <= Z.min width height <= 280)%Z ->
  spare_fuel (scan_fuel width height) (- searchRadius width height)
             (searchRadius width height) <> O.
Proof.
  intros H. unfold scan_fuel, searchRadius.
  set (m := Z.min width height) in *. clearbody m.
  assert (forallb
            (fun k => negb (Nat.eqb
               (spare_fuel (S (Z.to_nat k)) (- (JS.of_int k * 0.35))
                           (JS.of_int k * 0.35)) 0))
            (range 1 281) = true) as Hall by (vm_compute; reflexivity).
  rewrite forallb_forall in Hall.
  specialize (Hall m ltac:(apply in_range; lia)).
  apply negb_true_iff, Nat.eqb_neq in Hall. exact Hall.
Qed.

Lemma scan_fuel_enough_witness :
  spare_fuel (scan_fuel 280 280) (- searchRadius 280 280) (searchRadius 280 280) <> O.
Proof. apply scan_fuel_enough. vm_compute. split; discriminate. Defined.

(* ================================================================= *)
(** ** Hex strings: clamping, the way back and letter case *)

Lemma channel_hex_clamp (x : Z) :
  channel_hex x = channel_hex (Z.max 0 (Z.min 255 x)).
Proof.
  unfold channel_hex.
  replace (Z.max 0 (Z.min 255 (Z.max 0 (Z.min 255 x)))) with (Z.max 0 (Z.min 255 x))
    by lia.
  reflexivity.
Qed.

Lemma hexToRgb_channels (r g b : Z) :
  (0 <= r <= 255)%Z -> (0 <= g <= 255)%Z -> (0 <= b <= 255)%Z ->
  hexToRgb (String "#" (channel_hex r ++ channel_hex g ++ channel_hex b))
  = Some (mkRgb r g b).
Proof.
  intros Hr Hg Hb. rewrite !channel_hex_digits by assumption.
  cbn [hexToRgb String.append parse_six].
  now rewrite !parse_pair_channel by assumption.
Qed.

Lemma hexToRgb_clamped (r g b : Z) :
  hexToRgb (rgbToHex r g b)
  = Some (mkRgb (Z.max 0 (Z.min 255 r)) (Z.max 0 (Z.min 255 g))
                (Z.max 0 (Z.min 255 b))).
Proof.
  unfold rgbToHex.
  rewrite (channel_hex_clamp r), (channel_hex_clamp g), (channel_hex_clamp b).
  apply hexToRgb_channels; lia.
Qed.

(** A channel outside [0, 255] is clamped by [rgbToHex]: the string is
    the one of the clamped channels, and reading it back gives the three
    channels clamped, for all integers. *)
Theorem rgbToHex_clamps (r g b : Z) :
  let clamp := fun x => Z.max 0 (Z.min 255 x) in
  rgbToHex r g b = rgbToHex (clamp r) (clamp g) (clamp b) /\
  hexToRgb (rgbToHex r g b) = Some (mkRgb (clamp r) (clamp g) (clamp b)).
Proof.
  intros clamp. split; [ | apply hexToRgb_clamped].
  unfold rgbToHex, clamp.
  now rewrite <- (channel_hex_clamp r), <- (channel_hex_clamp g),
              <- (channel_hex_clamp b).
Qed.

Lemma hex_digit_lower (c : ascii) (d : Z) :
  hex_digit c = Some d -> (0 <= d < 16)%Z /\ hex_char d = Str.lower_char c.
Proof.
  destruct c as [[] [] [] [] [] [] [] []];
    (intros E; vm_compute in E;
     first [discriminate | injection E as <-; split; [lia | reflexivity]]).
Qed.

Lemma parse_pair_lower (c1 c2 : ascii) (n : Z) :
  parse_pair c1 c2 = Some n ->
  (0 <= n <= 255)%Z /\
  channel_hex n = String (Str.lower_char c1) (String (Str.lower_char c2) EmptyString).
Proof.
  unfold parse_pair.
  destruct (hex_digit c1) as [h | ] eqn:E1; [ | discriminate].
  destruct (hex_digit c2) as [l | ] eqn:E2; [ | discriminate].
  intros E. assert (n = 16 * h + l)%Z as -> by congruence. clear E.
  apply hex_digit_lower in E1 as [Hh <-]. apply hex_digit_lower in E2 as [Hl <-].
  split; [lia | ].
  rewrite channel_hex_digits by lia. 
  replace ((16 * h + l) / 16)%Z with h
    by (apply (Z.div_unique _ 16 h l); lia).
  replace ((16 * h + l) mod 16)%Z with l
    by (apply (Z.mod_unique _ 16 h l); lia).
  reflexivity.
Qed.

Lemma parse_six_lower (s : string) (c : rgb) :
  parse_six s = Some c ->
  String.length s = 6%nat /\
  (0 <= red c <= 255)%Z /\ (0 <= green c <= 255)%Z /\ (0 <= blue c <= 255)%Z /\
  rgbToHex (red c) (green c) (blue c) = String "#" (Str.toLowerCase s).
Proof.
  destruct s as [ | c1 [ | c2 [ | c3 [ | c4 [ | c5 [ | c6 [ | ? ?]]]]]]];
    try discriminate.
  cbn [parse_six].
  destruct (parse_pair c1 c2) as [r | ] eqn:Er; [ | discriminate].
  destruct (parse_pair c3 c4) as [g | ] eqn:Eg; [ | discriminate].
  destruct (parse_pair c5 c6) as [b | ] eqn:Eb; [ | discriminate].
  intros E. injection E as <-. cbn [red green blue].
  apply parse_pair_lower in Er as [Hr Er]. apply parse_pair_lower in Eg as [Hg Eg].
  apply parse_pair_lower in Eb as [Hb Eb].
  repeat (split; [assumption || reflexivity | ]).
  unfold rgbToHex. rewrite Er, Eg, Eb. reflexivity.
Qed.

Lemma hexToRgb_parse_six (s : string) (c : rgb) :
  hexToRgb s = Some c ->
  exists digits : string,
    (s = digits \/ s = String "#" digits) /\ parse_six digits = Some c.
Proof.
  intros H. destruct s as [ | a rest]; [exists EmptyString; now split; [left | ] | ].
  destruct (Ascii.eqb a "#") eqn:Ea.
  - apply Ascii.eqb_eq in Ea. subst a. exists rest. split; [now right | exact H].
  - exists (String a rest). split; [now left | ].
    destruct a as [[] [] [] [] [] [] [] []]; try exact H; discriminate.
Qed.


(** The way back: a string [hexToRgb] accepts is six hexadecimal digits,
    with or without a leading [#]; the channels read are in [0, 255],
    and [rgbToHex] writes them as [#] and the same six digits in lower
    case. *)
Theorem rgbToHex_hexToRgb (s : string) (c : rgb) :
  hexToRgb s = Some c ->
  exists digits : string,
    (s = digits \/ s = String "#" digits) /\ String.length digits = 6%nat /\
    (0 <= red c <= 255)%Z /\ (0 <= green c <= 255)%Z /\ (0 <= blue c <= 255)%Z /\
    rgbToHex (red c) (green c) (blue c) = String "#" (Str.toLowerCase digits).
Proof.
  intros H. apply hexToRgb_parse_six in H as (digits & Hs & H).
  exists digits. split; [exact Hs | now apply parse_six_lower].
Qed.

Lemma rgbToHex_hexToRgb_witness :
  exists digits : string,
    ("#4682B4"%string = digits \/ "#4682B4"%string = String "#" digits) /\
    String.length digits = 6%nat /\
    (0 <= 70 <= 255)%Z /\ (0 <= 130 <= 255)%Z /\ (0 <= 180 <= 255)%Z /\
    rgbToHex 70 130 180 = String "#" (Str.toLowerCase digits).
Proof. apply (rgbToHex_hexToRgb "#4682B4" (mkRgb 70 130 180)). reflexivity. Defined.

Lemma hex_digit_case (c : ascii) : hex_digit (Str.lower_char c) = hex_digit c.
Proof. destruct c as [[] [] [] [] [] [] [] []]; reflexivity. Qed.

Lemma parse_six_case (s : string) : parse_six (Str.toLowerCase s) = parse_six s.
Proof.
  destruct s as [ | c1 [ | c2 [ | c3 [ | c4 [ | c5 [ | c6 [ | ? ?]]]]]]];
    try reflexivity.
  cbn [Str.toLowerCase parse_six]. unfold parse_pair.
  now rewrite !hex_digit_case.
Qed.

(** The [i] flag: the case of the letters of a colour string does not
    change what [hexToRgb] reads, nor therefore its category. *)
Theorem hexToRgb_ignores_case (s : string) :
  hexToRgb (Str.toLowerCase s) = hexToRgb s /\
  classifyEyeColor (Str.toLowerCase s) = classifyEyeColor s.
Proof.
  assert (hexToRgb (Str.toLowerCase s) = hexToRgb s) as H.
  { destruct s as [ | a rest]; [reflexivity | ].
    destruct (Ascii.eqb a "#") eqn:Ea.
    - apply Ascii.eqb_eq in Ea. subst a.
      change (parse_six (Str.toLowerCase rest) = parse_six rest).
      apply parse_six_case.
    - transitivity (parse_six (Str.toLowerCase (String a rest))).
      + destruct a as [[] [] [] [] [] [] [] []]; try reflexivity; discriminate.
      + rewrite parse_six_case.
        destruct a as [[] [] [] [] [] [] [] []]; try reflexivity; discriminate. }
  split; [exact H | ]. unfold classifyEyeColor. now rewrite H.
Qed.

(* ================================================================= *)
(** ** Saturation and lightness of [getHSL] *)

(** The largest and the smallest of the normalized channels are the
    normalized largest and smallest channel: checked on the 256 x 256
    pairs of bytes. *)
Lemma max_min_channels (a b : Z) :
  (0 <= a <= 255)%Z -> (0 <= b <= 255)%Z ->
  JS.Math_max2 (JS.of_int a / 255) (JS.of_int b / 255) = (JS.of_int (Z.max a b) / 255)%float /\
  JS.Math_min2 (JS.of_int a / 255) (JS.of_int b / 255) = (JS.of_int (Z.min a b) / 255)%float.
Proof.
  intros Ha Hb.
  assert (forallb (fun a => forallb (fun b =>
            PrimFloat.Leibniz.eqb
              (JS.Math_max2 (JS.of_int a / 255) (JS.of_int b / 255))
              (JS.of_int (Z.max a b) / 255) &&
            PrimFloat.Leibniz.eqb
              (JS.Math_min2 (JS.of_int a / 255) (JS.of_int b / 255))
              (JS.of_int (Z.min a b) / 255))
            (range 0 256)) (range 0 256) = true) as Hall
    by (vm_compute; reflexivity).
  rewrite forallb_forall in Hall.
  specialize (Hall a ltac:(apply in_range; lia)).
  rewrite forallb_forall in Hall.
  specialize (Hall b ltac:(apply in_range; lia)).
  apply andb_true_iff in Hall as [H1 H2].
  split; now apply FloatAxioms.Leibniz.eqb_spec.
Qed.

(** Saturation and lightness depend on the largest and the smallest
    channel only. *)
Lemma getHSL_extremes (r g b : Z) :
  (0 <= r <= 255)%Z -> (0 <= g <= 255)%Z -> (0 <= b <= 255)%Z ->
  let hi := Z.max (Z.max r g) b in
  let lo := Z.min (Z.min r g) b in
  sat (getHSL r g b) = sat (getHSL hi lo lo) /\
  lum (getHSL r g b) = lum (getHSL hi lo lo).
Proof.
  intros Hr Hg Hb hi lo.
  assert (0 <= lo <= hi /\ hi <= 255)%Z as Hhl by (subst hi lo; lia).
  unfold getHSL, JS.Math_max, JS.Math_min.
  destruct (max_min_channels r g Hr Hg) as [-> ->].
  destruct (max_min_channels (Z.max r g) b ltac:(lia) Hb) as [-> _].
  destruct (max_min_channels (Z.min r g) b ltac:(lia) Hb) as [_ ->].
  destruct (max_min_channels hi lo ltac:(lia) ltac:(lia)) as [-> ->].
  destruct (max_min_channels (Z.max hi lo) lo ltac:(lia) ltac:(lia)) as [-> _].
  destruct (max_min_channels (Z.min hi lo) lo ltac:(lia) ltac:(lia)) as [_ ->].
  fold hi. fold lo.
  replace (Z.max (Z.max hi lo) lo) with hi by lia.
  replace (Z.min (Z.min hi lo) lo) with lo by lia.
  destruct (JS.strict_neq _ _); split; reflexivity.
Qed.

(** The facts about the 32896 pairs of a largest and a smallest byte
    the theorems below rest on. *)
Lemma getHSL_pairs (hi lo : Z) :
  (0 <= lo <= hi)%Z -> (hi <= 255)%Z ->
  let c := getHSL hi lo lo in
  ((0 <=? sat c) && (sat c <=? 1) && (0 <=? lum c) && (lum c <=? 1))%float = true /\
  (sat c =? 0)%float = (hi =? lo)%Z.
Proof.
  intros Hlo Hhi.
  assert (forallb (fun hi => forallb (fun lo =>
            let c := getHSL hi lo lo in
            ((0 <=? sat c) && (sat c <=? 1) && (0 <=? lum c) && (lum c <=? 1))%float &&
            Bool.eqb (sat c =? 0)%float (hi =? lo)%Z)
            (range 0 (hi + 1))) (range 0 256) = true) as Hall
    by (vm_compute; reflexivity).
  rewrite forallb_forall in Hall.
  specialize (Hall hi ltac:(apply in_range; lia)).
  rewrite forallb_forall in Hall.
  specialize (Hall lo ltac:(apply in_range; lia)).
  cbv zeta in Hall. apply andb_true_iff in Hall as [H1 H2].
  split; [exact H1 | now apply Bool.eqb_prop].
Qed.

(** For channels that are bytes, the saturation and the lightness
    [getHSL] returns are numbers between 0 and 1, the bounds included:
    the rounding of the divisions never takes them outside. *)
Theorem getHSL_unit_interval (r g b : Z) :
  (0 <= r <= 255)%Z -> (0 <= g <= 255)%Z -> (0 <= b <= 255)%Z ->
  let c := getHSL r g b in
  ((0 <=? sat c) && (sat c <=? 1) && (0 <=? lum c) && (lum c <=? 1))%float = true.
Proof.
  intros Hr Hg Hb c. subst c.
  destruct (getHSL_extremes r g b Hr Hg Hb) as [-> ->].
  apply getHSL_pairs; lia.
Qed.

Lemma getHSL_unit_interval_witness :
  let c := getHSL 70 130 180 in
  ((0 <=? sat c) && (sat c <=? 1) && (0 <=? lum c) && (lum c <=? 1))%float = true.
Proof. apply (getHSL_unit_interval 70 130 180); lia. Defined.

(** A grey has hue 0, saturation 0 and its channel, as a fraction of
    255, for lightness. *)
Lemma getHSL_grey_value (v : Z) :
  (0 <= v <= 255)%Z -> getHSL v v v = mkHsl 0 0 (JS.of_int v / 255).
Proof.
  intros Hv.
  assert (forallb (fun v =>
            let c := getHSL v v v in
            PrimFloat.Leibniz.eqb (hue c) 0 && PrimFloat.Leibniz.eqb (sat c) 0 &&
            PrimFloat.Leibniz.eqb (lum c) (JS.of_int v / 255))
            (range 0 256) = true) as Hall
    by (vm_compute; reflexivity).
  rewrite forallb_forall in Hall.
  specialize (Hall v ltac:(apply in_range; lia)). cbv zeta in Hall.
  apply andb_true_iff in Hall as [Hall H3].
  apply andb_true_iff in Hall as [H1 H2].
  apply FloatAxioms.Leibniz.eqb_spec in H1, H2, H3.
  destruct (getHSL v v v) as [h s l]. cbn [hue sat lum] in *. congruence.
Qed.

(** The saturation is zero for the greys and for no other colour: a
    pixel with two different channels has a positive saturation, however
    close the channels are.  A grey has hue 0 and its channel, as a
    fraction of 255, for lightness. *)
Theorem getHSL_grey (r g b : Z) :
  (0 <= r <= 255)%Z -> (0 <= g <= 255)%Z -> (0 <= b <= 255)%Z ->
  ((sat (getHSL r g b) =? 0)%float = true <-> r = g /\ g = b) /\
  (r = g -> g = b -> getHSL r g b = mkHsl 0 0 (JS.of_int r / 255)).
Proof.
  intros Hr Hg Hb. split.
  - destruct (getHSL_extremes r g b Hr Hg Hb) as [-> _].
    destruct (getHSL_pairs (Z.max (Z.max r g) b) (Z.min (Z.min r g) b)
                ltac:(lia) ltac:(lia)) as [_ ->].
    rewrite Z.eqb_eq. lia.
  - intros <- <-. now apply getHSL_grey_value.
Qed.

Lemma getHSL_grey_witness :
  ((sat (getHSL 128 128 128) =? 0)%float = true <-> 128%Z = 128%Z /\ 128%Z = 128%Z) /\
  (128%Z = 128%Z -> 128%Z = 128%Z -> getHSL 128 128 128 = mkHsl 0 0 (JS.of_int 128 / 255)).
Proof. apply (getHSL_grey 128 128 128); lia. Defined.

(* ================================================================= *)
(** ** The colours [classifyEyeColor] calls Gray *)

Section GrayBands.

Local Open Scope float_scope.

(** A band [[a, b)] that is missed from a hue at least [a] leaves the
    hue at least [b]. *)
Lemma band_missed (a b h : float) :
  (a <=? h) = true -> (a <=? h) && (h <? b) = false -> fnum b -> (b <=? h) = true.
Proof.
  intros Ha H Hb. rewrite Ha in H. cbn in H.
  apply ltb_false_leb; [apply (leb_fnum a h Ha) | exact Hb | exact H].
Qed.

Ltac constant_order := vm_compute; reflexivity.

Ltac hue_order :=
  match goal with
  | H : (?a <=? ?h) = true |- (?b <=? ?h) = true =>
      apply (leb_trans b a h); [constant_order | exact H]
  | H : (?h <? ?a) = true |- (?h <=? ?b) = true =>
      apply (leb_trans h a b); [apply ltb_leb; exact H | constant_order]
  | H : (?h <=? ?a) = true |- (?h <=? ?b) = true =>
      apply (leb_trans h a b); [exact H | constant_order]
  end.

(** A hue some band takes lies in one of the two stretches. *)
Ltac hue_covered h EB :=
  let K := fresh "K" in
  let L := fresh "L" in
  first
    [ rewrite orb_true_r in EB; discriminate
    | assert ((0 <=? h) = true) as K by hue_order;
      assert ((h <=? 300) = true) as L by hue_order;
      rewrite K, L in EB; discriminate ].

(** Which colours come out Gray: those with a saturation below 0.1, and
    those whose hue is outside the two stretches [[0, 300]] and
    [[340, 360]] that the bands cover between them.  A hue between 300
    and 340 (the magentas), above 360 or below 0 is Gray at any
    saturation, and so is a hue that is not a number. *)
Theorem classify_hsl_gray (c : hsl) :
  classify_hsl c = EYE_COLOR_CATEGORIES.gray <->
  (sat c <? 0.1) = true \/
  ((0 <=? hue c) && (hue c <=? 300) || (340 <=? hue c) && (hue c <=? 360)) = false.
Proof.
  unfold classify_hsl. cbv zeta.
  destruct (sat c <? 0.1) eqn:Es; [split; [now left | reflexivity] | ].
  set (h := hue c).
  destruct ((0 <=? h) && (h <=? 300) || (340 <=? h) && (h <=? 360)) eqn:EB.
  - (* covered: some band takes it *)
    assert (forall k : category, k <> EYE_COLOR_CATEGORIES.gray ->
            k = EYE_COLOR_CATEGORIES.gray <-> false = true \/ true = false) as Hne
      by (intros k Hk; split; [intros E; now elim Hk | intros [E | E]; discriminate]).
    destruct ((260 <=? h) && (h <=? 300)) eqn:E1; [apply Hne; discriminate | ].
    destruct ((200 <=? h) && (h <? 260)) eqn:E2; [apply Hne; discriminate | ].
    destruct ((170 <=? h) && (h <? 200)) eqn:E3;
      [destruct (0.15 <? sat c); apply Hne; discriminate | ].
    destruct ((80 <=? h) && (h <? 170)) eqn:E4; [apply Hne; discriminate | ].
    destruct ((50 <=? h) && (h <? 80)) eqn:E5; [apply Hne; discriminate | ].
    destruct ((35 <=? h) && (h <? 50)) eqn:E6; [apply Hne; discriminate | ].
    destruct ((20 <=? h) && (h <? 35)) eqn:E7; [apply Hne; discriminate | ].
    destruct ((0 <=? h) && (h <? 20)) eqn:E8; [apply Hne; discriminate | ].
    destruct ((340 <=? h) && (h <=? 360)) eqn:E9; [apply Hne; discriminate | ].
    exfalso. rewrite orb_false_r in EB.
    apply andb_true_iff in EB as [H0 H300].
    pose proof (band_missed 0 20 h H0 E8 ltac:(vm_compute; discriminate)) as H20.
    pose proof (band_missed 20 35 h H20 E7 ltac:(vm_compute; discriminate)) as H35.
    pose proof (band_missed 35 50 h H35 E6 ltac:(vm_compute; discriminate)) as H50.
    pose proof (band_missed 50 80 h H50 E5 ltac:(vm_compute; discriminate)) as H80.
    pose proof (band_missed 80 170 h H80 E4 ltac:(vm_compute; discriminate)) as H170.
    pose proof (band_missed 170 200 h H170 E3 ltac:(vm_compute; discriminate)) as H200.
    pose proof (band_missed 200 260 h H200 E2 ltac:(vm_compute; discriminate)) as H260.
    rewrite H260, H300 in E1. discriminate.
  - (* not covered: every band misses it *)
    repeat match goal with
    | |- context [if (?a <=? h) && ?t then _ else _] =>
        let E := fresh "E" in
        destruct ((a <=? h) && t) eqn:E;
        [ exfalso; apply andb_true_iff in E as [? ?]; hue_covered h EB | ]
    end.
    destruct ((210 <=? h) && (h <=? 270)) eqn:Eslate;
      [exfalso; apply andb_true_iff in Eslate as [? ?]; hue_covered h EB | ].
    split; [now right | reflexivity].
Qed.

End GrayBands.

(* ================================================================= *)
(** ** What the sampler keeps *)

Section SamplerFilter.

Local Open Scope float_scope.

Lemma leb_ltb_trans (a b x : float) :
  (a <=? b) = true -> (b <? x) = true -> (a <? x) = true.
Proof.
  intros H1 H2.
  apply leb_rank in H1 as (Ha & Hb & H1). apply ltb_rank in H2 as (_ & Hx & H2).
  apply ltb_rank. repeat split; try assumption.
  destruct H1 as [H1 | H1]; [eapply rank_lt_trans; eassumption | now rewrite H1].
Qed.

Lemma ltb_leb_trans (x a b : float) :
  (x <? a) = true -> (a <=? b) = true -> (x <? b) = true.
Proof.
  intros H1 H2.
  apply ltb_rank in H1 as (Hx & Ha & H1). apply leb_rank in H2 as (_ & Hb & H2).
  apply ltb_rank. repeat split; try assumption.
  destruct H2 as [H2 | H2]; [eapply rank_lt_trans; eassumption | now rewrite <- H2].
Qed.

(** A bound the tighter filter keeps is kept by the looser one. *)
Lemma above_false (a b x : float) :
  (a <=? b) = true -> (a <? x) = false -> (b <? x) = false.
Proof.
  intros Hab H. destruct (b <? x) eqn:E; [ | reflexivity].
  now rewrite (leb_ltb_trans a b x Hab E) in H.
Qed.

Lemma below_false (a b x : float) :
  (a <=? b) = true -> (x <? b) = false -> (x <? a) = false.
Proof.
  intros Hab H. destruct (x <? a) eqn:E; [ | reflexivity].
  now rewrite (ltb_leb_trans x a b E Hab) in H.
Qed.

Lemma annulus_pixel_some (pixels : list Z) (width height : Z)
    (centre : float * float) (x y : Z) (c : rgb) :
  annulus_pixel pixels width height centre (x, y) = Some c ->
  let i := ((y * width + x) * bytesPerPixel)%Z in
  let v := getHSL (red c) (green c) (blue c) in
  c = mkRgb (px pixels i) (px pixels (i + 1)) (px pixels (i + 2)) /\
  (i + 3 < pixels_length pixels)%Z /\
  ((0 <= i)%Z -> (200 <= px pixels (i + 3))%Z) /\
  (0.88 <? lum v) = false /\ (lum v <? 0.08) = false /\ (sat v <? 0.04) = false.
Proof.
  unfold annulus_pixel. destruct centre as [cx cy]. intros H. cbv zeta.
  destruct (_ || _) eqn:Hr; [discriminate | ].
  destruct (pixels_length pixels <=? _)%Z eqn:Hlen; [discriminate | ].
  apply Z.leb_gt in Hlen.
  destruct (_ <? 200)%Z eqn:Ha; [discriminate | ].
  destruct (_ || _) eqn:Hl in H; [discriminate | ].
  destruct (sat _ <? 0.04) eqn:Hs; [discriminate | ].
  inversion H; subst c; clear H. cbn [red green blue].
  apply orb_false_iff in Hl as [Hhi Hlo]. apply Z.ltb_ge in Ha.
  repeat split; try assumption.
  intros Hi. unfold px.
  destruct (nth_error pixels (Z.to_nat ((y * width + x) * bytesPerPixel + 3)))
    as [a | ] eqn:E.
  - now rewrite (nth_error_nth _ _ _ E).
  - apply nth_error_None in E. unfold pixels_length in Hlen. lia.
Qed.

(** Every sample that reaches the clustering is a pixel of the buffer,
    read at a pixel boundary inside it, that is opaque (alpha at least
    200) and whose lightness is not above 0.92, not below 0.06, and whose
    saturation is not below 0.04: the looser of the two bounds of the
    annulus pass and the fallback pass, whichever pass took it. *)
Theorem samples_pass_filter (pixels : list Z) (width height : Z) (c : rgb) :
  (0 <= width)%Z -> (0 <= height)%Z ->
  In c (collect_samples pixels width height) ->
  exists x y : Z,
    (0 <= x)%Z /\ (0 <= y)%Z /\
    let i := ((y * width + x) * bytesPerPixel)%Z in
    let v := getHSL (red c) (green c) (blue c) in
    (i + 3 < pixels_length pixels)%Z /\
    c = mkRgb (px pixels i) (px pixels (i + 1)) (px pixels (i + 2)) /\
    (200 <= px pixels (i + 3))%Z /\
    (0.92 <? lum v) = false /\ (lum v <? 0.06) = false /\ (sat v <? 0.04) = false.
Proof.
  intros Hw Hh Hin.
  assert (In c (annulus_samples pixels width height) \/
          In c (fallback_samples pixels width height)) as [Ha | Hf].
  { unfold collect_samples in Hin.
    destruct (_ <? 20)%nat; [apply in_app_or, Hin | left; exact Hin]. }
  - apply in_filter_map in Ha as ([x y] & Hxy & Hsome).
    apply in_grid in Hxy as [Hx Hy]. apply in_range in Hx, Hy.
    apply annulus_pixel_some in Hsome as (Hc & Hlen & Halpha & Hhi & Hlo & Hs).
    exists x, y. cbv zeta.
    assert (0 <= (y * width + x) * bytesPerPixel)%Z by (unfold bytesPerPixel; nia).
    split; [lia | ]. split; [lia | ]. split; [exact Hlen | ].
    split; [exact Hc | ]. split; [now apply Halpha | ].
    split; [apply (above_false 0.88 0.92); [reflexivity | exact Hhi] | ].
    split; [apply (below_false 0.06 0.08); [reflexivity | exact Hlo] | exact Hs].
  - apply in_filter_map in Hf as ([x y] & Hxy & Hsome).
    apply in_grid in Hxy as [Hx Hy].
    apply in_stride2 in Hx as [Hx _], Hy as [Hy _].
    pose proof (xMin_nonneg width Hw). pose proof (yMin_nonneg height Hh).
    apply fallback_pixel_some in Hsome as (Hc & Hlen & Halpha & Hhi & Hlo & Hs).
    exists x, y. cbv zeta.
    split; [lia | ]. split; [lia | ]. split; [exact Hlen | ].
    split; [exact Hc | ]. split; [exact Halpha | ].
    split; [exact Hhi | ]. split; [exact Hlo | ].
    apply (below_false 0.04 0.05); [reflexivity | exact Hs].
Qed.

Lemma samples_pass_filter_witness :
  exists x y : Z,
    (0 <= x)%Z /\ (0 <= y)%Z /\
    let i := ((y * 4 + x) * bytesPerPixel)%Z in
    let v := getHSL 200 50 50 in
    (i + 3 < pixels_length one_red_pixel)%Z /\
    mkRgb 200 50 50
      = mkRgb (px one_red_pixel i) (px one_red_pixel (i + 1)) (px one_red_pixel (i + 2)) /\
    (200 <= px one_red_pixel (i + 3))%Z /\
    (0.92 <? lum v) = false /\ (lum v <? 0.06) = false /\ (sat v <? 0.04) = false.
Proof.
  apply (samples_pass_filter one_red_pixel 4 4 (mkRgb 200 50 50)); [lia | lia | ].
  vm_compute. now left.
Defined.

End SamplerFilter.

(* ================================================================= *)
(** ** Greyscale rasters *)

Lemma grayscale_pixel (pixels : list Z) (k : nat) :
  grayscale pixels = true -> (4 * k + 3 < List.length pixels)%nat ->
  (0 <= nth (4 * k) pixels 0 <= 255)%Z /\
  nth (4 * k + 1) pixels 0%Z = nth (4 * k) pixels 0%Z /\
  nth (4 * k + 2) pixels 0%Z = nth (4 * k) pixels 0%Z.
Proof.
  revert pixels. induction k as [ | k IH]; intros pixels H Hlen.
  - destruct pixels as [ | r [ | g [ | b [ | a rest]]]]; cbn in Hlen; try lia.
    cbn in H. repeat (apply andb_true_iff in H as [H ?]).
    cbn [Nat.mul Nat.add nth]. lia.
  - destruct pixels as [ | r [ | g [ | b [ | a rest]]]]; cbn in Hlen; try lia.
    cbn in H. apply andb_true_iff in H as [_ H].
    replace (4 * S k)%nat with (S (S (S (S (4 * k))))) by lia.
    cbn [Nat.add nth]. apply IH; [exact H | cbn in Hlen; lia].
Qed.

(** The three colour bytes of a pixel of a greyscale raster. *)
Lemma grayscale_getHSL (pixels : list Z) (x y width : Z) :
  grayscale pixels = true -> (0 <= x)%Z -> (0 <= y)%Z -> (0 <= width)%Z ->
  let i := ((y * width + x) * bytesPerPixel)%Z in
  (i + 3 < pixels_length pixels)%Z ->
  sat (getHSL (px pixels i) (px pixels (i + 1)) (px pixels (i + 2))) = 0%float.
Proof.
  intros Hg Hx Hy Hw i Hlen. unfold px.
  set (k := Z.to_nat (y * width + x)).
  assert (Z.to_nat i = 4 * k /\ Z.to_nat (i + 1) = 4 * k + 1 /\
          Z.to_nat (i + 2) = 4 * k + 2)%nat as (-> & -> & ->)
    by (subst i k; unfold bytesPerPixel; nia).
  destruct (grayscale_pixel pixels k Hg) as (Hr & -> & ->).
  { unfold pixels_length in Hlen. subst i k. unfold bytesPerPixel in Hlen. nia. }
  now rewrite getHSL_grey_value.
Qed.

Lemma collect_samples_grayscale (pixels : list Z) (width height : Z) :
  (0 <= width)%Z -> (0 <= height)%Z -> grayscale pixels = true ->
  collect_samples pixels width height = [].
Proof.
  intros Hw Hh Hg.
  assert (annulus_samples pixels width height = []) as Ha.
  { apply filter_map_none. intros [x y] Hin.
    apply in_grid in Hin as [Hx Hy]. apply in_range in Hx, Hy.
    unfold annulus_pixel. destruct (findPupilCenter pixels width height) as [cx cy].
    destruct (_ || _); [reflexivity | ].
    destruct (pixels_length pixels <=? _)%Z eqn:Hlen; [reflexivity | ].
    apply Z.leb_gt in Hlen.
    destruct (_ <? 200)%Z; [reflexivity | ].
    rewrite (grayscale_getHSL pixels x y width Hg) by (lia || exact Hlen).
    destruct (_ || _); reflexivity. }
  assert (fallback_samples pixels width height = []) as Hf.
  { apply filter_map_none. intros [x y] Hin.
    apply in_grid in Hin as [Hx Hy].
    apply in_stride2 in Hx as [Hx _], Hy as [Hy _].
    pose proof (xMin_nonneg width Hw). pose proof (yMin_nonneg height Hh).
    unfold fallback_pixel.
    destruct (pixels_length pixels <=? _)%Z eqn:Hlen; [reflexivity | ].
    apply Z.leb_gt in Hlen.
    destruct (_ <? 200)%Z; [reflexivity | ].
    rewrite (grayscale_getHSL pixels x y width Hg) by (lia || exact Hlen).
    now rewrite orb_true_r. }
  unfold collect_samples. rewrite Ha, Hf. reflexivity.
Qed.

(** A greyscale raster, whatever its size, its lightness and its alpha
    channel, yields no sample at all: a grey has saturation 0 and both
    passes reject it.  The result is the single stand-in colour
    [#708090] at 100, and the report names the general colour Hazel, as
    it does for a fully transparent raster. *)
Theorem grayscale_report
    (Math_pow : float -> float -> float) (pantoneData : list pantone)
    (pixels : list Z) (width height : Z) (numColors : nat) :
  (0 <= width)%Z -> (0 <= height)%Z ->
  grayscale pixels = true ->
  collect_samples pixels width height = [] /\
  getDominantColors Math_pow pixels width height numColors
    = [mkDominant "#708090" 100] /\
  generalColor_name (analyze Math_pow pantoneData pixels width height) = "Hazel"%string.
Proof.
  intros Hw Hh Hg.
  pose proof (collect_samples_grayscale pixels width height Hw Hh Hg) as Hs.
  assert (forall n, getDominantColors Math_pow pixels width height n
                    = [mkDominant "#708090" 100]) as Hd
    by (intros n; unfold getDominantColors; now rewrite Hs).
  split; [exact Hs | ]. split; [apply Hd | ].
  unfold analyze. rewrite Hd. unfold pickGeneralColor.
  destruct (_ && _); reflexivity.
Qed.

Lemma grayscale_report_witness :
  collect_samples grey_4x4 4 4 = [] /\
  getDominantColors pow_square grey_4x4 4 4 10 = [mkDominant "#708090" 100] /\
  generalColor_name (analyze pow_square two_entry_table grey_4x4 4 4) = "Hazel"%string.
Proof.
  apply grayscale_report; [lia | lia | reflexivity].
Defined.

(* ================================================================= *)
(** ** The pupil search *)

Section PupilSearch.

Local Open Scope float_scope.
Import JS.

Lemma not_below_zero (x : float) :
  (x <? 0) = false -> SFnot_negative (Prim2SF x).
Proof.
  rewrite ltb_spec. change (Prim2SF 0) with (S754_zero false).
  destruct (Prim2SF x) as [ | | | [] m e]; cbn; trivial. discriminate.
Qed.

Lemma to_int_nonneg (x : float) : (x <? 0) = false -> (0 <= to_int x)%Z.
Proof. intros H. apply SFfloor_nonneg, not_below_zero, H. Qed.

Variable pixels : list Z.
Variables width height : Z.

(** No pixel of the buffer is darker than white. *)
Hypothesis width_nonneg : (0 <= width)%Z.
Hypothesis no_dark_pixel :
  forall i : Z, (0 <= i)%Z -> (i mod 4 = 0)%Z -> (i + 2 < pixels_length pixels)%Z ->
  (lum (getHSL (px pixels i) (px pixels (i + 1)) (px pixels (i + 2))) <? 1) = false.

Lemma visit_keeps (dx dy : float) (st : pupil) :
  bestLum st = 1 -> visit pixels width height dx dy st = st.
Proof.
  intros Hst. unfold visit. cbv zeta.
  set (x := Math_round (of_int width / 2 + dx)).
  set (y := Math_round (of_int height / 2 + dy)).
  destruct (x <? 0) eqn:Hx; [reflexivity | ].
  destruct (of_int width <=? x); [reflexivity | ].
  destruct (y <? 0) eqn:Hy; [reflexivity | ]. 
  destruct (of_int height <=? y); [reflexivity | ]. cbn [orb].
  destruct (pixels_length pixels <=? _)%Z eqn:Hlen; [reflexivity | ].
  apply Z.leb_gt in Hlen.
  pose proof (to_int_nonneg x Hx). pose proof (to_int_nonneg y Hy).
  rewrite Hst, no_dark_pixel; [reflexivity | | | exact Hlen].
  - unfold bytesPerPixel. nia.
  - unfold bytesPerPixel. apply Z.mod_mul. lia.
Qed.

Lemma scan_dx_keeps (fuel : nat) (dx dy : float) (st : pupil) :
  bestLum st = 1 -> scan_dx pixels width height fuel dx dy st = st.
Proof.
  revert dx st. induction fuel as [ | fuel IH]; intros dx st Hst; [reflexivity | ].
  cbn [scan_dx]. destruct (dx <=? _); [ | reflexivity].
  rewrite visit_keeps by exact Hst. now apply IH.
Qed.

Lemma scan_dy_keeps (fuel : nat) (dy : float) (st : pupil) :
  bestLum st = 1 -> scan_dy pixels width height fuel dy st = st.
Proof.
  revert dy st. induction fuel as [ | fuel IH]; intros dy st Hst; [reflexivity | ].
  cbn [scan_dy]. destruct (dy <=? _); [ | reflexivity].
  rewrite scan_dx_keeps by exact Hst. now apply IH.
Qed.

End PupilSearch.

(** When no pixel of the buffer is darker than white, the search returns
    the geometric centre [(width / 2, height / 2)] it starts from; so it
    does for an empty buffer, or one too short for the size given, where
    there is no pixel to look at. *)
Theorem findPupilCenter_default (pixels : list Z) (width height : Z) :
  (0 <= width)%Z ->
  (forall i : Z, (0 <= i)%Z -> (i mod 4 = 0)%Z -> (i + 2 < pixels_length pixels)%Z ->
     (lum (getHSL (px pixels i) (px pixels (i + 1)) (px pixels (i + 2))) <? 1)%float
     = false) ->
  findPupilCenter pixels width height
  = ((JS.of_int width / 2)%float, (JS.of_int height / 2)%float).
Proof.
  intros Hw Hwhite. unfold findPupilCenter.
  now rewrite scan_dy_keeps.
Qed.

Lemma findPupilCenter_default_witness :
  findPupilCenter [] 4 4 = ((JS.of_int 4 / 2)%float, (JS.of_int 4 / 2)%float).
Proof.
  apply findPupilCenter_default; [lia | ].
  intros i Hi _ Hlen. cbn in Hlen. lia.
Defined.

Section PupilInside.

Local Open Scope float_scope.
Import JS.

Lemma binary_normalize_number (m e : Z) :
  (emin <= e)%Z -> not_nan (binary_normalize prec emax m e false).
Proof.
  intros He. destruct m as [ | p | p]; cbn [binary_normalize]; [discriminate | | ].
  - pose proof (binary_round_signed false p e He) as H.
    intros E. rewrite E in H. exact H.
  - pose proof (binary_round_signed true p e He) as H.
    intros E. rewrite E in H. exact H.
Qed.

Lemma add_number (a b : float) : is_finite a = true -> fnum b -> fnum (a + b).
Proof.
  intros Ha Hb. apply is_finite_spec in Ha. unfold fnum in *.
  rewrite add_spec. unfold SF64add.
  pose proof (Prim2SF_valid a) as Va. pose proof (Prim2SF_valid b) as Vb.
  destruct (Prim2SF a) as [sa | sa | | sa ma ea]; try contradiction;
    destruct (Prim2SF b) as [sb | sb | | sb mb eb]; try (now elim Hb);
    try discriminate.
  - destruct sa, sb; discriminate.
  - cbn [SFadd].
    apply valid_finite in Va as (Va & _). apply valid_finite in Vb as (Vb & _).
    apply binary_normalize_number. lia.
Qed.

Lemma of_int_number (z : Z) : fnum (of_int z).
Proof.
  assert (forall n, fnum (of_uint63 n)) as H.
  { intros n. unfold fnum. rewrite of_uint63_spec.
    apply binary_normalize_number. discriminate. }
  unfold of_int. destruct (z <? 0)%Z; [ | apply H].
  unfold fnum. rewrite opp_spec. specialize (H (Uint63Axioms.of_Z (- z))).
  unfold fnum in H. destruct (Prim2SF _); try discriminate. now elim H.
Qed.

Lemma Math_round_number (x : float) : fnum x -> fnum (Math_round x).
Proof.
  intros Hx. unfold Math_round.
  destruct (Prim2SF x) as [ | | | s m e] eqn:E; try exact Hx.
  destruct (0 <=? e)%Z; [exact Hx | ].
  destruct (_ =? 0)%Z; [destruct s; discriminate | apply of_int_number].
Qed.

Variable pixels : list Z.
Variables width height : Z.

(** The state holds a position inside the raster. *)
Let inside (st : pupil) : Prop :=
  (0 <=? bestX st) && (bestX st <? of_int width) &&
  (0 <=? bestY st) && (bestY st <? of_int height) = true.

Hypothesis centre_x : is_finite (of_int width / 2) = true.
Hypothesis centre_y : is_finite (of_int height / 2) = true.

Lemma visit_inside (dx dy : float) (st : pupil) :
  fnum dx -> fnum dy -> inside st -> inside (visit pixels width height dx dy st).
Proof.
  intros Hdx Hdy Hst. unfold visit. cbv zeta.
  set (x := Math_round (of_int width / 2 + dx)).
  set (y := Math_round (of_int height / 2 + dy)).
  assert (fnum x) as Nx by (apply Math_round_number, add_number; assumption).
  assert (fnum y) as Ny by (apply Math_round_number, add_number; assumption).
  destruct (x <? 0) eqn:Hx0; [exact Hst | ].
  destruct (of_int width <=? x) eqn:Hxw; [exact Hst | ].
  destruct (y <? 0) eqn:Hy0; [exact Hst | ].
  destruct (of_int height <=? y) eqn:Hyh; [exact Hst | ]. cbn [orb].
  destruct (pixels_length pixels <=? _)%Z; [exact Hst | ].
  destruct (_ <? bestLum st); [ | exact Hst].
  unfold inside. cbn [bestX bestY].
  rewrite (ltb_false_leb x 0 Nx ltac:(discriminate) Hx0).
  rewrite (ltb_false_leb y 0 Ny ltac:(discriminate) Hy0).
  rewrite (leb_false_ltb _ x (of_int_number width) Nx Hxw).
  rewrite (leb_false_ltb _ y (of_int_number height) Ny Hyh).
  reflexivity.
Qed.

Lemma scan_dx_inside (fuel : nat) (dx dy : float) (st : pupil) :
  fnum dy -> inside st -> inside (scan_dx pixels width height fuel dx dy st).
Proof.
  intros Hdy. revert dx st.
  induction fuel as [ | fuel IH]; intros dx st Hst; [exact Hst | ].
  cbn [scan_dx]. destruct (dx <=? _) eqn:E; [ | exact Hst].
  apply IH, visit_inside; [apply (leb_fnum _ _ E) | exact Hdy | exact Hst].
Qed.

Lemma scan_dy_inside (fuel : nat) (dy : float) (st : pupil) :
  inside st -> inside (scan_dy pixels width height fuel dy st).
Proof.
  revert dy st. induction fuel as [ | fuel IH]; intros dy st Hst; [exact Hst | ].
  cbn [scan_dy]. destruct (dy <=? _) eqn:E; [ | exact Hst].
  apply IH, scan_dx_inside; [apply (leb_fnum _ _ E) | exact Hst].
Qed.

End PupilInside.

(** The half of a size of the pipeline is a finite number inside the
    raster. *)
Lemma half_inside (n : Z) :
  (1 <= n <= 280)%Z ->
  (is_finite (JS.of_int n / 2) = true /\
   (0 <=? JS.of_int n / 2) && (JS.of_int n / 2 <? JS.of_int n) = true)%float.
Proof.
  intros H.
  assert (forallb (fun n => is_finite (JS.of_int n / 2) &&
                            ((0 <=? JS.of_int n / 2) && (JS.of_int n / 2 <? JS.of_int n)))%float
            (range 1 281) = true) as Hall by (vm_compute; reflexivity).
  rewrite forallb_forall in Hall.
  specialize (Hall n ltac:(apply in_range; lia)).
  now apply andb_true_iff in Hall.
Qed.

(** The centre the search returns lies inside the raster, whatever the
    buffer holds: its coordinates are numbers with [0 <= cx < width] and
    [0 <= cy < height].  Stated for the sizes the pipeline produces, at
    most 280 pixels a side. *)
Theorem findPupilCenter_inside (pixels : list Z) (width height : Z) :
  (1 <= width <= 280)%Z -> (1 <= height <= 280)%Z ->
  let c := findPupilCenter pixels width height in
  ((0 <=? fst c) && (fst c <? JS.of_int width) &&
   (0 <=? snd c) && (snd c <? JS.of_int height))%float = true.
Proof.
  intros Hw Hh.
  destruct (half_inside width Hw) as [Fw Iw].
  destruct (half_inside height Hh) as [Fh Ih].
  unfold findPupilCenter. cbv zeta. cbn [fst snd].
  apply (scan_dy_inside pixels width height Fw Fh).
  cbn [bestX bestY].
  apply andb_true_iff in Iw as [-> ->]. apply andb_true_iff in Ih as [-> ->].
  reflexivity.
Qed.

Lemma findPupilCenter_inside_witness :
  let c := findPupilCenter one_red_pixel 4 4 in
  ((0 <=? fst c) && (fst c <? JS.of_int 4) &&
   (0 <=? snd c) && (snd c <? JS.of_int 4))%float = true.
Proof. apply findPupilCenter_inside; lia. Defined.

(* ================================================================= *)
(** ** The reference matcher at its edges *)

Section MatcherEdges.

Local Open Scope float_scope.

Variable Math_pow : float -> float -> float.
Variable pantoneData : list pantone.

(** A sort leaves a list alone when no element goes before another. *)
Lemma sort_by_unordered {A : Type} (before : A -> A -> bool) (l : list A) :
  (forall a b, In a l -> In b l -> before a b = false) -> sort_by before l = l.
Proof.
  induction l as [ | x l IH]; intros H; [reflexivity | ].
  rewrite sort_by_cons, IH by (intros a b Ha Hb; apply H; now right).
  destruct l as [ | y l']; [reflexivity | ].
  cbn [insert_by]. rewrite H; [reflexivity | right; now left | now left].
Qed.

Lemma deltaE76_invalid (hex other : string) :
  hexToRgb hex = None -> deltaE76 Math_pow hex other = infinity.
Proof. intros H. unfold deltaE76. now rewrite H. Qed.

(** A colour string [hexToRgb] rejects is at distance [Infinity] from
    every entry, and no entry goes before another: the matches are the
    first [count] entries of the table, in the order of the table, each
    at distance [Infinity], and the best name is the name of the first
    entry of the table. *)
Theorem findPantoneMatches_invalid (hex : string) (count : nat) :
  hexToRgb hex = None ->
  findPantoneMatches Math_pow pantoneData hex count
  = map (fun p => mkMatch (Str.dashes_to_spaces (p_name p)) (p_hex p) infinity)
        (firstn count pantoneData) /\
  findBestPantoneName Math_pow pantoneData hex
  = option_map (fun p => Str.dashes_to_spaces (p_name p)) (hd_error pantoneData).
Proof.
  intros H.
  assert (forall k, findPantoneMatches Math_pow pantoneData hex k
          = map (fun p => mkMatch (Str.dashes_to_spaces (p_name p)) (p_hex p) infinity)
                (firstn k pantoneData)) as Hall.
  { intros k. unfold findPantoneMatches, withDistance.
    rewrite sort_by_unordered.
    - rewrite firstn_map, map_map. apply map_ext_in. intros p _.
      unfold to_match. cbn [fst snd]. now rewrite deltaE76_invalid.
    - intros a b Ha Hb.
      apply in_map_iff in Ha as (p & <- & _). apply in_map_iff in Hb as (q & <- & _).
      unfold closer. cbn [snd]. now rewrite !deltaE76_invalid. }
  split; [apply Hall | ].
  unfold findBestPantoneName. rewrite Hall.
  destruct pantoneData; reflexivity.
Qed.

Lemma sqrt_not_below_zero (x : float) : (sqrt x <? 0) = false.
Proof.
  rewrite ltb_spec, sqrt_spec. change (Prim2SF 0) with (S754_zero false).
  unfold SF64sqrt, SFsqrt.
  destruct (Prim2SF x) as [s | [] | | [] m e]; try reflexivity.
  destruct (SFsqrt_core_binary prec emax (Z.pos m) e) as [[mz ez] lz].
  unfold binary_round_aux.
  destruct (shr_fexp prec emax mz ez lz) as [mrs' e'].
  destruct (shr_fexp prec emax _ e' loc_Exact) as [mrs'' e''].
  destruct (shr_m mrs''); try reflexivity.
  destruct (_ <=? _)%Z; reflexivity.
Qed.

Lemma deltaE76_not_below_zero (hex1 hex2 : string) :
  (deltaE76 Math_pow hex1 hex2 <? 0) = false.
Proof.
  unfold deltaE76.
  destruct (hexToRgb hex1); [ | reflexivity].
  destruct (hexToRgb hex2); [ | reflexivity].
  apply sqrt_not_below_zero.
Qed.

(** A number that is at most zero and not below it is a zero, and
    [Math.round] returns it. *)
Lemma round_of_zero (d : float) :
  (d <=? 0) = true -> (d <? 0) = false -> (JS.Math_round d =? 0) = true.
Proof.
  intros Hle Hlt.
  assert ((d =? 0) = true) as Heq.
  { apply leb_rank in Hle as (Hd & H0 & [Hr | Hr]).
    - assert ((d <? 0) = true) by (apply ltb_rank; auto). congruence.
    - apply eqb_rank. auto. }
  unfold JS.Math_round.
  destruct (Prim2SF d) as [s | s | | s m e] eqn:E; try exact Heq.
  apply eqb_rank in Heq as (_ & _ & Hr). unfold frank in Hr. rewrite E in Hr.
  change (Prim2SF 0) with (S754_zero false) in Hr.
  destruct s; discriminate.
Qed.

Hypothesis pow_zero : Math_pow 0 2 = 0.

(** A colour of the table is matched at distance 0: when the colour
    asked for is the colour of some entry, the first match is an entry at
    distance 0 (that entry, or an earlier one of the table that is as
    close).  [Math.pow] is assumed to give [pow(0, 2) = 0] and no
    distance to be NaN. *)
Theorem findPantoneMatches_exact (hex : string) (c : rgb) (p : pantone) (k : nat) :
  hexToRgb hex = Some c ->
  lab_finite (rgbToLab Math_pow (red c) (green c) (blue c)) = true ->
  In p pantoneData -> hexToRgb (p_hex p) = Some c ->
  (forall q, In q pantoneData -> is_nan (deltaE76 Math_pow hex (p_hex q)) = false) ->
  exists (m : pantone_match) (rest : list pantone_match),
    findPantoneMatches Math_pow pantoneData hex (S k) = m :: rest /\
    (m_distance m =? 0) = true.
Proof.
  intros Hhex Hfin Hp Hphex Hnan.
  set (table := withDistance Math_pow pantoneData hex).
  set (sorted := sort_by closer table).
  assert (In (p, 0) sorted) as Hin.
  { apply (Permutation_in _ (Permutation_sym (sort_by_perm closer table))).
    unfold table, withDistance. apply in_map_iff. exists p. split; [ | exact Hp].
    f_equal. unfold deltaE76. rewrite Hhex, Hphex.
    now apply lab_distance_diag. }
  assert (StronglySorted by_distance sorted) as Hsorted.
  { apply Sorted_StronglySorted; [exact by_distance_trans | ].
    apply (sort_by_sorted closer (fun e => fnum (snd e))).
    - intros a b _ _ H. rewrite closer_ltb in H. apply ltb_leb, H.
    - intros a b Ha Hb H. rewrite closer_ltb in H. now apply ltb_false_leb.
    - apply Forall_forall. intros e He.
      apply in_map_iff in He as (q & <- & Hq). cbn [snd].
      apply is_nan_false, Hnan, Hq. }
  assert (forall e, In e sorted -> (snd e <? 0) = false) as Hpos.
  { intros e He.
    apply (Permutation_in _ (sort_by_perm closer table)) in He.
    apply in_map_iff in He as (q & <- & _). apply deltaE76_not_below_zero. }
  unfold findPantoneMatches. fold table. fold sorted.
  destruct sorted as [ | e sorted']; [now elim Hin | ].
  cbn [firstn map]. eexists. eexists. split; [reflexivity | ].
  unfold to_match. cbn [m_distance].
  apply round_of_zero; [ | apply Hpos; now left].
  destruct Hin as [-> | Hin]; [reflexivity | ].
  apply StronglySorted_inv in Hsorted as [_ Hall].
  rewrite Forall_forall in Hall. apply (Hall _ Hin).
Qed.

End MatcherEdges.

Lemma findPantoneMatches_invalid_witness :
  findPantoneMatches pow_square two_entry_table "not a colour" 1
  = [mkMatch "Black Olive" "#3B3C36" infinity] /\
  findBestPantoneName pow_square two_entry_table "not a colour" = Some "Black Olive"%string.
Proof. apply (findPantoneMatches_invalid pow_square two_entry_table). reflexivity. Defined.

Lemma findPantoneMatches_exact_witness :
  exists (m : pantone_match) (rest : list pantone_match),
    findPantoneMatches pow_square two_entry_table "#708090" 1 = m :: rest /\
    (m_distance m =? 0)%float = true.
Proof.
  apply (findPantoneMatches_exact pow_square two_entry_table eq_refl
           "#708090" (mkRgb 112 128 144) (mkPantone "Slate-Gray" "#708090") 0);
    try reflexivity.
  - right. now left.
  - intros q [<- | [<- | []]]; reflexivity.
Defined.

(* ================================================================= *)
(** ** The named shades *)

Section NamedShades.

Variable key : dominant -> string.

(** What the loop of [buildNamedShadeBreakdown] keeps true of the map
    [byName], for the colours seen so far: the keys are distinct, an
    entry is named by its key, its share is not negative when no share
    added was, and its name and hex come from one of the colours. *)
Let from_colours (seen : list dominant) (ke : string * shade) : Prop :=
  exists c, In c seen /\ fst ke = key c /\ s_hex (snd ke) = d_hex c.

Lemma add_shade_keys (k : string) (c : dominant) (byName : list (string * shade))
    (x : string) :
  In x (map fst (add_shade k c byName)) -> x = k \/ In x (map fst byName).
Proof.
  induction byName as [ | [k' e] rest IH]; cbn [add_shade].
  - cbn. intros [<- | []]. now left.
  - destruct (String.eqb k k'); cbn [map fst In]; [tauto | ].
    intros [<- | H]; [right; now left | ].
    destruct (IH H); [now left | right; now right].
Qed.

Lemma add_shade_NoDup (k : string) (c : dominant) (byName : list (string * shade)) :
  NoDup (map fst byName) -> NoDup (map fst (add_shade k c byName)).
Proof.
  induction byName as [ | [k' e] rest IH]; cbn [add_shade]; intros H.
  - cbn. constructor; [tauto | constructor].
  - destruct (String.eqb k k') eqn:E; cbn [map fst] in *; [exact H | ].
    apply NoDup_cons_iff in H as [Hk' Hrest].
    constructor; [ | now apply IH].
    intros Hin. apply add_shade_keys in Hin as [-> | Hin]; [ | tauto].
    now rewrite String.eqb_refl in E.
Qed.

Lemma add_shade_named (k : string) (c : dominant) (byName : list (string * shade)) :
  Forall (fun ke => s_name (snd ke) = fst ke) byName ->
  Forall (fun ke => s_name (snd ke) = fst ke) (add_shade k c byName).
Proof.
  induction 1 as [ | [k' e] rest He Hrest IH]; cbn [add_shade].
  - constructor; [reflexivity | constructor].
  - destruct (String.eqb k k'); constructor; assumption.
Qed.

Lemma add_shade_sum (k : string) (c : dominant) (byName : list (string * shade)) :
  sumZ (map (fun ke => s_percentage (snd ke)) (add_shade k c byName))
  = (sumZ (map (fun ke => s_percentage (snd ke)) byName) + percentage c)%Z.
Proof.
  induction byName as [ | [k' e] rest IH]; cbn [add_shade].
  - cbn [map snd s_percentage]. rewrite sumZ_cons. change (sumZ []) with 0%Z. lia.
  - destruct (String.eqb k k'); cbn [map snd s_percentage]; rewrite !sumZ_cons.
    + lia.
    + rewrite IH. lia.
Qed.

Lemma add_shade_nonneg (k : string) (c : dominant) (byName : list (string * shade)) :
  (0 <= percentage c)%Z ->
  Forall (fun ke => 0 <= s_percentage (snd ke))%Z byName ->
  Forall (fun ke => 0 <= s_percentage (snd ke))%Z (add_shade k c byName).
Proof.
  intros Hc. induction 1 as [ | [k' e] rest He Hrest IH]; cbn [add_shade].
  - constructor; [cbn; lia | constructor].
  - destruct (String.eqb k k'); constructor; cbn [snd s_percentage] in *;
      try assumption; lia.
Qed.

Lemma add_shade_from (seen : list dominant) (c : dominant)
    (byName : list (string * shade)) :
  Forall (from_colours seen) byName ->
  Forall (from_colours (seen ++ [c])) (add_shade (key c) c byName).
Proof.
  assert (forall ke, from_colours seen ke -> from_colours (seen ++ [c]) ke) as Hmono.
  { intros ke (c' & Hin & Hk & Hh). exists c'. split; [ | now split].
    apply in_or_app. now left. }
  assert (In c (seen ++ [c])) as Hc by (apply in_or_app; right; now left).
  induction 1 as [ | [k' e] rest He Hrest IH]; cbn [add_shade].
  - constructor; [ | constructor]. exists c. now repeat split.
  - destruct (String.eqb (key c) k') eqn:E.
    + constructor; [ | eapply Forall_impl; [exact Hmono | exact Hrest]].
      apply String.eqb_eq in E. exists c. cbn [fst snd s_hex]. now repeat split.
    + constructor; [now apply Hmono | exact IH].
Qed.

Lemma byName_invariant (colours seen : list dominant) (byName : list (string * shade)) :
  NoDup (map fst byName) ->
  Forall (fun ke => s_name (snd ke) = fst ke) byName ->
  Forall (from_colours seen) byName ->
  let final := fold_left (fun byName c => add_shade (key c) c byName) colours byName in
  NoDup (map fst final) /\
  Forall (fun ke => s_name (snd ke) = fst ke) final /\
  Forall (from_colours (seen ++ colours)) final /\
  sumZ (map (fun ke => s_percentage (snd ke)) final)
  = (sumZ (map (fun ke => s_percentage (snd ke)) byName)
     + sumZ (map percentage colours))%Z /\
  (Forall (fun d => 0 <= percentage d)%Z colours ->
   Forall (fun ke => 0 <= s_percentage (snd ke))%Z byName ->
   Forall (fun ke => 0 <= s_percentage (snd ke))%Z final).
Proof.
  revert seen byName. induction colours as [ | c colours IH]; intros seen byName H1 H2 H3.
  - cbn [fold_left map]. rewrite app_nil_r. change (sumZ []) with 0%Z.
    repeat split; try assumption; [lia | auto].
  - cbn [fold_left map].
    destruct (IH (seen ++ [c]) (add_shade (key c) c byName)
                (add_shade_NoDup _ _ _ H1) (add_shade_named _ _ _ H2)
                (add_shade_from _ _ _ H3)) as (I1 & I2 & I3 & I4 & I5).
    rewrite <- app_assoc in I3. cbn [app] in I3.
    rewrite add_shade_sum in I4. rewrite sumZ_cons.
    repeat split; try assumption; [lia | ].
    intros Hc Hb. apply Forall_cons_iff in Hc as [Hc Hcs].
    apply I5; [exact Hcs | now apply add_shade_nonneg].
Qed.

End NamedShades.

Lemma NoDup_map_filter {A B : Type} (f : A -> B) (q : A -> bool) (l : list A) :
  NoDup (map f l) -> NoDup (map f (filter q l)).
Proof.
  induction l as [ | x l IH]; cbn [map filter]; intros H; [constructor | ].
  apply NoDup_cons_iff in H as [Hx Hl].
  destruct (q x); cbn [map]; [ | now apply IH].
  constructor; [ | now apply IH].
  intros Hin. apply Hx. apply in_map_iff in Hin as (y & <- & Hy).
  apply filter_In in Hy as [Hy _]. now apply in_map.
Qed.

Lemma sumZ_filter_positive (l : list shade) :
  Forall (fun e => 0 <= s_percentage e)%Z l ->
  sumZ (map s_percentage (filter (fun e => (0 <? s_percentage e)%Z) l))
  = sumZ (map s_percentage l).
Proof.
  induction 1 as [ | e l He Hl IH]; [reflexivity | ].
  cbn [filter map]. destruct (0 <? s_percentage e)%Z eqn:E; cbn [map];
    rewrite ?sumZ_cons, IH; [reflexivity | ].
  apply Z.ltb_ge in E. lia.
Qed.

(** The map [byName] once every colour has been added, and the shades
    kept from it. *)
Lemma named_shades_groups
    (Math_pow : float -> float -> float) (pantoneData : list pantone)
    (dominantColors : list dominant) :
  let name_of := fun c : dominant =>
    or_string (findBestPantoneName Math_pow pantoneData (d_hex c)) (d_hex c) in
  exists byName : list (string * shade),
    Permutation (buildNamedShadeBreakdown Math_pow pantoneData dominantColors)
                (filter (fun e => (0 <? s_percentage e)%Z) (map snd byName)) /\
    NoDup (map fst byName) /\
    Forall (fun ke => s_name (snd ke) = fst ke) byName /\
    Forall (fun ke => exists c, In c dominantColors /\ fst ke = name_of c /\
                                s_hex (snd ke) = d_hex c) byName /\
    sumZ (map (fun ke => s_percentage (snd ke)) byName)
    = sumZ (map percentage dominantColors) /\
    (Forall (fun d => 0 <= percentage d)%Z dominantColors ->
     Forall (fun ke => 0 <= s_percentage (snd ke))%Z byName).
Proof.
  intros name_of.
  destruct (byName_invariant name_of dominantColors [] [] (NoDup_nil _)
              (Forall_nil _) (Forall_nil _)) as (I1 & I2 & I3 & I4 & I5).
  cbv zeta in I1, I2, I3, I4, I5. cbn [app] in I3.
  change (sumZ (map _ [])) with 0%Z in I4.
  exists (fold_left (fun byName c => add_shade (name_of c) c byName) dominantColors []).
  split; [apply sort_by_perm | ].
  split; [exact I1 | ]. split; [exact I2 | ]. split; [exact I3 | ].
  split; [rewrite I4; lia | ].
  intros Hpos. apply I5; [exact Hpos | constructor].
Qed.

(** The order, the sign and the total of the shares. *)
Lemma named_shares
    (Math_pow : float -> float -> float) (pantoneData : list pantone)
    (dominantColors : list dominant) :
  let out := buildNamedShadeBreakdown Math_pow pantoneData dominantColors in
  StronglySorted (fun a b => s_percentage b <= s_percentage a)%Z out /\
  Forall (fun e => 0 < s_percentage e)%Z out /\
  NoDup (map s_name out) /\
  (Forall (fun d => 0 <= percentage d)%Z dominantColors ->
   sumZ (map s_percentage out) = sumZ (map percentage dominantColors)).
Proof.
  intros out.
  destruct (named_shades_groups Math_pow pantoneData dominantColors)
    as (byName & Hperm & I1 & I2 & _ & I4 & I5).
  fold out in Hperm.
  split.
  { apply Sorted_StronglySorted; [intros a b c; lia | ].
    apply (sort_by_sorted larger_share (fun _ => True)).
    - intros a b _ _ H. unfold larger_share in H. apply Z.ltb_lt in H. lia.
    - intros a b _ _ H. unfold larger_share in H. apply Z.ltb_ge in H. lia.
    - apply Forall_forall. auto. }
  split.
  { eapply Permutation_Forall; [symmetry; exact Hperm | ].
    apply Forall_forall. intros e He. apply filter_In in He as [_ He].
    now apply Z.ltb_lt. }
  split.
  { eapply Permutation_NoDup; [apply Permutation_map; symmetry; exact Hperm | ].
    apply NoDup_map_filter.
    replace (map s_name (map snd byName)) with (map fst byName); [exact I1 | ].
    rewrite map_map. apply map_ext_in. intros ke Hke.
    rewrite Forall_forall in I2. symmetry. now apply I2. }
  intros Hpos.
  rewrite (sumZ_perm _ _ (Permutation_map s_percentage Hperm)).
  rewrite sumZ_filter_positive.
  - now rewrite map_map.
  - specialize (I5 Hpos).
    apply Forall_forall. intros e He. apply in_map_iff in He as (ke & <- & Hke).
    rewrite Forall_forall in I5. now apply I5.
Qed.

(** The named breakdown, for any list of dominant colours and any
    table: the shades are in descending order of their share, every
    share is positive, no two shades have the same name, every shade is
    named after the best match (or the hex) of one of the colours and
    carries the hex of one, and, when no colour has a negative
    percentage, the shares add up to what the percentages of the colours
    add up to: grouping moves the percentages, it neither loses nor
    invents any. *)
Theorem buildNamedShadeBreakdown_shares
    (Math_pow : float -> float -> float) (pantoneData : list pantone)
    (dominantColors : list dominant) :
  let name_of := fun c : dominant =>
    or_string (findBestPantoneName Math_pow pantoneData (d_hex c)) (d_hex c) in
  let out := buildNamedShadeBreakdown Math_pow pantoneData dominantColors in
  StronglySorted (fun a b => s_percentage b <= s_percentage a)%Z out /\
  Forall (fun e => 0 < s_percentage e)%Z out /\
  NoDup (map s_name out) /\
  Forall (fun e => exists c, In c dominantColors /\
                             s_name e = name_of c /\ s_hex e = d_hex c) out /\
  (Forall (fun d => 0 <= percentage d)%Z dominantColors ->
   sumZ (map s_percentage out) = sumZ (map percentage dominantColors)).
Proof.
  intros name_of out.
  destruct (named_shares Math_pow pantoneData dominantColors) as (S1 & S2 & S3 & S4).
  fold out in S1, S2, S3, S4.
  repeat (split; [assumption | ]). split; [ | exact S4].
  destruct (named_shades_groups Math_pow pantoneData dominantColors)
    as (byName & Hperm & _ & I2 & I3 & _).
  fold out in Hperm. fold name_of in I3.
  eapply Permutation_Forall; [symmetry; exact Hperm | ].
  apply Forall_forall. intros e He. apply filter_In in He as [He _].
  apply in_map_iff in He as (ke & <- & Hke).
  rewrite Forall_forall in I2, I3.
  destruct (I3 ke Hke) as (c & Hc & Hk & Hh).
  exists c. rewrite (I2 ke Hke). now repeat split.
Qed.

(* ================================================================= *)
(** ** The most saturated of the first six *)

Section MostSaturated.

Local Open Scope float_scope.



Lemma leb_not_ltb (x y : float) : (x <=? y) = true -> (y <? x) = false.
Proof.
  intros H. destruct (y <? x) eqn:E; [ | reflexivity].
  apply ltb_not_leb in E. congruence.
Qed.












End MostSaturated.


(* ================================================================= *)
(** ** A keyword of both lists *)





(* ================================================================= *)
(** ** The report *)

Section Report.

Variable Math_pow : float -> float -> float.
Variable pantoneData : list pantone.

Lemma classify_hsl_category (c : hsl) : In (classify_hsl c) categories.
Proof.
  unfold classify_hsl, categories. cbv zeta.
  repeat match goal with
  | |- context [if ?b then _ else _] => destruct b
  end; cbn; tauto.
Qed.

Lemma pickGeneralColor_category (dominantColors : list dominant) (shades : list shade) :
  In (g_category (pickGeneralColor dominantColors shades)) categories.
Proof.
  unfold pickGeneralColor. destruct dominantColors as [ | first others].
  - cbn. tauto.
  - destruct (_ && _); cbn [g_category]; [cbn; tauto | ].
    unfold classifyEyeColor. destruct (hexToRgb _); [ | cbn; tauto].
    apply classify_hsl_category.
Qed.

Lemma findPantoneMatches_length (hex : string) (k : nat) :
  List.length (findPantoneMatches Math_pow pantoneData hex k)
  = Nat.min k (List.length pantoneData).
Proof.
  unfold findPantoneMatches, withDistance.
  now rewrite length_map, length_firstn, sort_by_length, length_map.
Qed.

(** The best name is the name of the first match, however many matches
    are asked for. *)
Lemma findBestPantoneName_first (hex : string) (k : nat) :
  findBestPantoneName Math_pow pantoneData hex
  = option_map m_name (hd_error (findPantoneMatches Math_pow pantoneData hex (S k))).
Proof.
  unfold findBestPantoneName, findPantoneMatches.
  destruct (sort_by closer (withDistance Math_pow pantoneData hex)); reflexivity.
Qed.

(** The report of [analyzeEyeColor], for any raster and any table:
    [colorCode] repeats the hex of the general colour; the breakdown
    lists the dominant colours in their order, each with at most two
    matches (exactly two when the table has two entries) and, for shade
    name, the name of the first of them; and the five matches of the
    report are those of the representative hex of one of the seven
    categories, the one the general colour is named after, not those of
    the colour measured. *)
Theorem analyze_report (data : list Z) (resizedW resizedH : Z) :
  let r := analyze Math_pow pantoneData data resizedW resizedH in
  colorCode r = generalColor_hex r /\
  map (fun e => mkDominant (b_hex e) (b_percentage e)) (breakdown r)
  = getDominantColors Math_pow data resizedW resizedH 10 /\
  Forall (fun e =>
            List.length (b_pantoneMatches e) = Nat.min 2 (List.length pantoneData) /\
            shadeName e = option_map m_name (hd_error (b_pantoneMatches e)))
         (breakdown r) /\
  List.length (pantoneMatches r) = Nat.min 5 (List.length pantoneData) /\
  exists k : category,
    In k categories /\ generalColor_name r = cat_name k /\
    pantoneMatches r = findPantoneMatches Math_pow pantoneData (cat_hex k) 5.
Proof.
  intros r. unfold analyze in r.
  set (dominantColors := getDominantColors Math_pow data resizedW resizedH 10) in *.
  set (shades := buildNamedShadeBreakdown Math_pow pantoneData dominantColors) in *.
  set (g := pickGeneralColor dominantColors shades) in *.
  split; [reflexivity | ].
  split.
  { unfold r. cbn [breakdown]. rewrite map_map. cbn [b_hex b_percentage].
    rewrite <- (map_id dominantColors) at 2. apply map_ext. now intros []. }
  split.
  { unfold r. cbn [breakdown]. apply Forall_forall. intros e He.
    apply in_map_iff in He as (c & <- & _). cbn [b_pantoneMatches shadeName].
    split; [apply findPantoneMatches_length | apply findBestPantoneName_first]. }
  split; [apply findPantoneMatches_length | ].
  exists (g_category g). split; [apply pickGeneralColor_category | now split].
Qed.

End Report.

(* ================================================================= *)
(** ** The buckets *)

Section Buckets.

Variable Math_pow : float -> float -> float.

Lemma add_sample_sums (k : float * float * float) (c : rgb)
    (buckets : list (float * float * float * bucket)) :
  sumZ (map (fun e => rSum (snd e)) (add_sample k c buckets))
  = (sumZ (map (fun e => rSum (snd e)) buckets) + red c)%Z /\
  sumZ (map (fun e => gSum (snd e)) (add_sample k c buckets))
  = (sumZ (map (fun e => gSum (snd e)) buckets) + green c)%Z /\
  sumZ (map (fun e => bSum (snd e)) (add_sample k c buckets))
  = (sumZ (map (fun e => bSum (snd e)) buckets) + blue c)%Z.
Proof.
  induction buckets as [ | [k' v] rest (IH1 & IH2 & IH3)]; cbn [add_sample].
  - cbn [map snd add_to_bucket rSum gSum bSum]. rewrite !sumZ_cons.
    change (sumZ []) with 0%Z. lia.
  - destruct (same_key k k'); cbn [map snd add_to_bucket rSum gSum bSum];
      rewrite !sumZ_cons; [lia | ].
    rewrite IH1, IH2, IH3. lia.
Qed.

Lemma add_sample_bytes (k : float * float * float) (c : rgb)
    (buckets : list (float * float * float * bucket)) :
  byte_sample c -> Forall byte_sums buckets ->
  Forall byte_sums (add_sample k c buckets).
Proof.
  intros Hc. induction 1 as [ | [k' v] rest Hv Hrest IH]; cbn [add_sample].
  - constructor; [ | constructor]. unfold byte_sums, byte_sample in *.
    cbn [snd add_to_bucket rSum gSum bSum count]. lia.
  - destruct (same_key k k'); constructor; try assumption.
    unfold byte_sums, byte_sample in *.
    cbn [snd add_to_bucket rSum gSum bSum count] in *. lia.
Qed.

Lemma add_sample_key (k : float * float * float) (c : rgb)
    (buckets : list (float * float * float * bucket))
    (e : float * float * float * bucket) :
  In e (add_sample k c buckets) ->
  fst e = k \/ exists e', In e' buckets /\ fst e = fst e'.
Proof.
  induction buckets as [ | [k' v] rest IH]; cbn [add_sample].
  - intros [<- | []]. now left.
  - destruct (same_key k k').
    + intros [<- | H]; right.
      * exists (k', v). split; [now left | reflexivity].
      * exists e. split; [now right | reflexivity].
    + intros [<- | H].
      * right. exists (k', v). split; [now left | reflexivity].
      * destruct (IH H) as [Hk | (e' & He' & Hk)]; [now left | right].
        exists e'. split; [now right | exact Hk].
Qed.

Lemma add_sample_distinct (k : float * float * float) (c : rgb)
    (buckets : list (float * float * float * bucket)) :
  ForallOrdPairs (fun e1 e2 => same_key (fst e2) (fst e1) = false) buckets ->
  ForallOrdPairs (fun e1 e2 => same_key (fst e2) (fst e1) = false)
                 (add_sample k c buckets).
Proof.
  induction 1 as [ | [k' v] rest Hv Hrest IH]; cbn [add_sample].
  - constructor; constructor.
  - destruct (same_key k k') eqn:E.
    + constructor; [ | exact Hrest].
      eapply Forall_impl; [ | exact Hv]. now intros e.
    + constructor; [ | exact IH].
      apply Forall_forall. intros e He. cbn [fst].
      apply add_sample_key in He as [-> | (e' & He' & ->)]; [exact E | ].
      rewrite Forall_forall in Hv. apply (Hv e' He').
Qed.

Lemma fill_buckets_invariant (samples seen : list rgb)
    (acc : list (float * float * float * bucket)) :
  ForallOrdPairs (fun e1 e2 => same_key (fst e2) (fst e1) = false) acc ->
  Forall (fun e => exists c, In c seen /\ fst e = bucket_key Math_pow c) acc ->
  let final := fold_left (fun buckets c => add_sample (bucket_key Math_pow c) c buckets)
                         samples acc in
  ForallOrdPairs (fun e1 e2 => same_key (fst e2) (fst e1) = false) final /\
  Forall (fun e => exists c, In c (seen ++ samples) /\ fst e = bucket_key Math_pow c)
         final /\
  sumZ (map (fun e => rSum (snd e)) final)
  = (sumZ (map (fun e => rSum (snd e)) acc) + sumZ (map red samples))%Z /\
  sumZ (map (fun e => gSum (snd e)) final)
  = (sumZ (map (fun e => gSum (snd e)) acc) + sumZ (map green samples))%Z /\
  sumZ (map (fun e => bSum (snd e)) final)
  = (sumZ (map (fun e => bSum (snd e)) acc) + sumZ (map blue samples))%Z /\
  (Forall byte_sample samples -> Forall byte_sums acc -> Forall byte_sums final).
Proof.
  revert seen acc. induction samples as [ | c samples IH]; intros seen acc H1 H2.
  - cbn [fold_left map]. rewrite app_nil_r. change (sumZ []) with 0%Z.
    repeat split; try assumption; try lia. auto.
  - cbn [fold_left map]. rewrite !sumZ_cons.
    destruct (add_sample_sums (bucket_key Math_pow c) c acc) as (S1 & S2 & S3).
    destruct (IH (seen ++ [c]) (add_sample (bucket_key Math_pow c) c acc))
      as (I1 & I2 & I3 & I4 & I5 & I6).
    { now apply add_sample_distinct. }
    { apply Forall_forall. intros e He.
      apply add_sample_key in He as [-> | (e' & He' & ->)].
      - exists c. split; [apply in_or_app; right; now left | reflexivity].
      - rewrite Forall_forall in H2. destruct (H2 e' He') as (c' & Hc' & ->).
        exists c'. split; [apply in_or_app; now left | reflexivity]. }
    rewrite <- app_assoc in I2. cbn [app] in I2.
    rewrite S1 in I3. rewrite S2 in I4. rewrite S3 in I5.
    repeat split; try assumption; try lia.
    intros Hs Hacc. apply Forall_cons_iff in Hs as [Hc Hs].
    apply I6; [exact Hs | now apply add_sample_bytes].
Qed.

(** The buckets partition the samples: every bucket holds at least one
    sample, the counts add up to the number of samples and the channel
    sums to the channel totals, no two buckets have the same key, and
    the key of a bucket is the key of one of the samples. *)
Theorem fill_buckets_partition (samples : list rgb) :
  let buckets := fill_buckets Math_pow samples in
  Forall (fun e => 1 <= count (snd e))%Z buckets /\
  sumZ (map (fun e => count (snd e)) buckets) = Z.of_nat (List.length samples) /\
  sumZ (map (fun e => rSum (snd e)) buckets) = sumZ (map red samples) /\
  sumZ (map (fun e => gSum (snd e)) buckets) = sumZ (map green samples) /\
  sumZ (map (fun e => bSum (snd e)) buckets) = sumZ (map blue samples) /\
  ForallOrdPairs (fun e1 e2 => same_key (fst e2) (fst e1) = false) buckets /\
  Forall (fun e => exists c, In c samples /\ fst e = bucket_key Math_pow c) buckets.
Proof.
  intros buckets.
  destruct (fill_buckets_counts Math_pow samples) as [C1 C2].
  destruct (fill_buckets_invariant samples [] [] (FOP_nil _) (Forall_nil _))
    as (I1 & I2 & I3 & I4 & I5 & _).
  cbv zeta in I1, I2, I3, I4, I5. cbn [app] in I2.
  change (sumZ (map _ [])) with 0%Z in I3, I4, I5.
  fold (fill_buckets Math_pow samples) in I1, I2, I3, I4, I5. fold buckets in I1, I2, I3, I4, I5.
  unfold counts in C1, C2. fold buckets in C1, C2.
  split. { apply Forall_forall. intros e He. rewrite Forall_forall in C1.
           apply C1. now apply (in_map (fun e => count (snd e))). }
  repeat split; try assumption; lia.
Qed.

End Buckets.

(* ================================================================= *)
(** ** The mean colour of a bucket *)

Section Means.

Local Open Scope R_scope.

(** Integers up to 256 survive the trip through a number. *)
Lemma byte_of_int (n : Z) : (0 <= n <= 256)%Z -> JS.to_int (JS.of_int n) = n.
Proof.
  intros H.
  assert (forallb (fun k => (JS.to_int (JS.of_int k) =? k)%Z) (range 0 257) = true)
    as Hall by (vm_compute; reflexivity).
  rewrite forallb_forall in Hall.
  apply Z.eqb_eq, Hall, in_range. lia.
Qed.

(** [Math.round] then the integer read back, below a bound [N] up to
    which integers survive the trip. *)
Lemma round_to_int_below (N : Z) (v : float) :
  (forall n, (0 <= n <= N)%Z -> JS.to_int (JS.of_int n) = n) ->
  normal_in (-184) 148 (Prim2SF v) -> SF2R (Prim2SF v) < IZR N ->
  IZR (JS.to_int (JS.Math_round v)) - 1 / 2 <= SF2R (Prim2SF v)
    < IZR (JS.to_int (JS.Math_round v)) + 1 / 2.
Proof.
  intros Hsmall (m & e & E & He & Hm) Hlt.
  unfold JS.Math_round. rewrite E in *. cbn [SF2R cond_Zopp] in *.
  destruct (0 <=? e)%Z eqn:Ee.
  - apply Z.leb_le in Ee. unfold JS.to_int. rewrite E.
    cbn [JS.SFfloor cond_Zopp]. rewrite Z.shiftl_mul_pow2 by lia.
    rewrite mult_IZR, <- (bpow_IZR e) by lia. lra.
  - cbn [JS.SFround_half_up cond_Zopp]. rewrite Ee. apply Z.leb_gt in Ee.
    rewrite Z.shiftr_div_pow2 by lia.
    set (k := (- e)%Z) in *.
    assert (0 < 2 ^ (k - 1))%Z as Hh by (apply Z.pow_pos_nonneg; lia).
    assert (2 ^ k = 2 * 2 ^ (k - 1))%Z as Hk
      by (rewrite <- Z.pow_succ_r by lia; f_equal; lia).
    replace (- e - 1)%Z with (k - 1)%Z by lia.
    pose proof (Z.mul_div_le (Zpos m + 2 ^ (k - 1)) (2 ^ k) ltac:(lia)) as Hfl.
    pose proof (Z.mul_succ_div_gt (Zpos m + 2 ^ (k - 1)) (2 ^ k) ltac:(lia)) as Hfu.
    set (n := ((Zpos m + 2 ^ (k - 1)) / 2 ^ k)%Z) in *.
    assert (bpow e = / IZR (2 ^ k)) as Hb.
    { replace e with (- k)%Z by lia. unfold bpow. rewrite powerRZ_neg'.
      fold (bpow k). now rewrite bpow_IZR by lia. }
    rewrite Hb in *.
    assert (0 < IZR (2 ^ (k - 1))) as Hh' by (apply IZR_lt; exact Hh).
    assert (IZR (2 ^ k) = 2 * IZR (2 ^ (k - 1))) as Hk'
      by (rewrite Hk, mult_IZR; reflexivity).
    rewrite Hk in Hfl, Hfu. unfold Z.succ in Hfu.
    apply IZR_le in Hfl. apply IZR_lt in Hfu.
    rewrite !mult_IZR, !plus_IZR in Hfl. rewrite !mult_IZR, !plus_IZR in Hfu.
    rewrite Hk' in *.
    set (P := IZR (2 ^ (k - 1))) in *. set (M := IZR (Zpos m)) in *.
    assert (0 < M) as HM by (subst M; apply IZR_lt; lia).
    assert (M * / (2 * P) * (2 * P) = M) as Hcancel by (field; lra).
    assert (IZR n - 1 / 2 <= M * / (2 * P) < IZR n + 1 / 2) as Hn.
    { split.
      - apply Rmult_le_reg_r with (2 * P); [lra | ]. rewrite Hcancel. lra.
      - apply Rmult_lt_reg_r with (2 * P); [lra | ]. rewrite Hcancel. lra. }
    assert (0 < M * / (2 * P)) as Hpos
      by (apply Rmult_lt_0_compat; [lra | apply Rinv_0_lt_compat; lra]).
    assert (0 <= n <= N)%Z as Hrange.
    { split.
      - apply Z.lt_succ_r, lt_IZR. rewrite succ_IZR. lra.
      - apply Z.lt_succ_r, lt_IZR. rewrite succ_IZR. lra. }
    destruct (n =? 0)%Z eqn:En.
    + apply Z.eqb_eq in En. rewrite En in Hn.
      change (JS.to_int zero) with 0%Z. exact Hn.
    + rewrite Hsmall by exact Hrange. exact Hn.
Qed.

(** The quotient of a channel sum by a count is the exact quotient up
    to the relative error [theta]. *)
Lemma mean_value (s c : Z) :
  (1 <= s < 2 ^ 32)%Z -> (1 <= c < 2 ^ 32)%Z ->
  let v := (JS.of_int s / JS.of_int c)%float in
  normal_in (-138) 87 (Prim2SF v) /\
  (1 - theta) * IZR s <= SF2R (Prim2SF v) * IZR c <= (1 + theta) * IZR s.
Proof.
  intros Hs Hc v.
  destruct (of_int_value s Hs) as [Hnx Hx].
  destruct (of_int_value c Hc) as [Hny Hy].
  destruct (div_value _ _ Hnx Hny) as [Hnq Hq].
  split; [exact Hnq | ].
  pose proof (normal_in_pos _ _ _ Hnx) as Ha.
  pose proof (normal_in_pos _ _ _ Hny) as Hb.
  pose proof (normal_in_pos _ _ _ Hnq) as Hq0.
  fold v in Hq, Hq0.
  unfold near in *.
  set (a := SF2R (Prim2SF (JS.of_int s))) in *.
  set (b := SF2R (Prim2SF (JS.of_int c))) in *.
  set (w := SF2R (Prim2SF v)) in *.
  set (S := IZR s) in *. set (C := IZR c) in *.
  destruct kappa_theta as (Hk0 & Hk1 & _ & Hup & Hdown & _).
  set (k := kappa) in *. set (t := theta) in *.
  assert (0 < t < 1) as Ht.
  { subst t k. destruct kappa_theta as (_ & _ & -> & _). lra. }
  clearbody a b w S C k t.
  assert ((1 - k) * w * b <= a <= (1 + k) * w * b) as [Hq1 Hq2].
  { destruct Hq as [Hq1 Hq2].
    assert (a / b * b = a) as E by (field; lra).
    split.
    - rewrite <- E. rewrite Rmult_assoc.
      replace ((1 - k) * (w * b)) with ((1 - k) * w * b) by ring.
      apply Rmult_le_compat_r; lra.
    - rewrite <- E at 1. apply Rmult_le_compat_r; lra. }
  destruct Hx as [Hx1 Hx2], Hy as [Hy1 Hy2].
  assert (0 < 1 - k) as Hmk by lra. assert (0 < 1 + k) as Hpk by lra.
  assert (0 < S) as HS by nra.
  split.
  - (* (1-k) S <= (1-k)(1+k) a <= (1-k)(1+k)^2 w b <= (1+k)^2 w C *)
    assert ((1 - k) * S <= (1 - k) * ((1 + k) * a)) as S1
      by (apply Rmult_le_compat_l; lra).
    assert ((1 - k) * (1 + k) * a <= (1 - k) * (1 + k) * ((1 + k) * w * b)) as S2
      by (apply Rmult_le_compat_l; nra).
    assert ((1 + k) * (1 + k) * w * ((1 - k) * b) <= (1 + k) * (1 + k) * w * C) as S3
      by (apply Rmult_le_compat_l; nra).
    assert ((1 - k) * S <= (1 + k) * (1 + k) * (w * C)) as S4 by lra.
    assert ((1 - t) * ((1 + k) * (1 + k)) * S <= (1 - k) * S) as S5.
    { apply Rmult_le_compat_r; [lra | ].
      assert ((1 - t) * ((1 + k) * (1 + k)) <= (1 - t) * ((1 + k) * (1 + k) * (1 + k)))
        by (apply Rmult_le_compat_l; nra).
      lra. }
    assert (0 < (1 + k) * (1 + k)) as Hc2 by nra.
    apply Rmult_le_reg_l with ((1 + k) * (1 + k)); [exact Hc2 | ]. nra.
  - assert ((1 - k) * (1 - k) * w * C <= (1 - k) * (1 - k) * w * ((1 + k) * b)) as S1
      by (apply Rmult_le_compat_l; nra).
    assert ((1 + k) * (1 - k) * ((1 - k) * w * b) <= (1 + k) * (1 - k) * a) as S2
      by (apply Rmult_le_compat_l; nra).
    assert ((1 + k) * ((1 - k) * a) <= (1 + k) * S) as S3
      by (apply Rmult_le_compat_l; lra).
    assert ((1 - k) * (1 - k) * (w * C) <= (1 + k) * S) as S4 by lra.
    assert ((1 + k) * S <= (1 + t) * ((1 - k) * (1 - k)) * S) as S5.
    { apply Rmult_le_compat_r; [lra | ].
      assert ((1 + t) * ((1 - k) * (1 - k) * (1 - k)) <= (1 + t) * ((1 - k) * (1 - k)))
        by (apply Rmult_le_compat_l; nra).
      lra. }
    assert (0 < (1 - k) * (1 - k)) as Hc2 by nra.
    apply Rmult_le_reg_l with ((1 - k) * (1 - k)); [exact Hc2 | ]. nra.
Qed.

(** A zero sum gives a zero mean. *)
Lemma mean_of_zero (c : Z) :
  (1 <= c < 2 ^ 32)%Z -> JS.to_int (JS.Math_round (JS.of_int 0 / JS.of_int c)) = 0%Z.
Proof.
  intros Hc. destruct (of_int_value c Hc) as [(m & e & E & _) _].
  assert ((JS.of_int 0 / JS.of_int c)%float = 0%float) as ->.
  { apply Prim2SF_inj. rewrite div_spec, E. reflexivity. }
  reflexivity.
Qed.

(** [Math.round(sum / count)] for a sum of [count] bytes: a byte, and the
    integer nearest to the exact mean. *)
Lemma mean_rounds (s c : Z) :
  (0 <= s <= 255 * c)%Z -> (1 <= c < 2 ^ 24)%Z ->
  let m := JS.to_int (JS.Math_round (JS.of_int s / JS.of_int c)) in
  (0 <= m <= 255 /\ - c <= 2 * (m * c - s) <= c)%Z.
Proof.
  intros Hs Hc m.
  destruct (Z.eq_dec s 0) as [-> | Hs0].
  { subst m. rewrite mean_of_zero by lia. lia. }
  destruct (mean_value s c ltac:(lia) ltac:(lia)) as [Hn [Hlo Hhi]].
  set (v := (JS.of_int s / JS.of_int c)%float) in *.
  destruct kappa_theta as (_ & Hk & Ht & _ & _ & Ht40).
  assert (0 < theta < 1 / 100) as Hth by (destruct kappa_bounds; lra).
  assert (1 <= IZR s) as HS by (apply IZR_le; lia).
  assert (IZR s <= 255 * IZR c) as HSC
    by (rewrite <- (mult_IZR 255); apply IZR_le; lia).
  assert (1 <= IZR c) as HC by (apply IZR_le; lia).
  assert (IZR s <= IZR (2 ^ 32)) as HS32 by (apply IZR_le; lia).
  assert (IZR (2 ^ 40) = 256 * IZR (2 ^ 32)) as H40
    by (rewrite <- mult_IZR; reflexivity).
  assert (0 < IZR (2 ^ 32)) as H32 by (apply IZR_lt; reflexivity).
  pose proof (normal_in_pos _ _ _ Hn) as Hv0.
  set (w := SF2R (Prim2SF v)) in *.
  assert (theta * IZR s < 1 / 256) as Hslack by nra.
  assert (theta < 1 / 1000) as Hsmall by nra.
  assert (w <= 255 * (1 + theta)) as Hw.
  { apply Rmult_le_reg_r with (IZR c); [lra | ]. nra. }
  destruct (round_to_int_below 256 v byte_of_int
              (normal_in_weaken (-138) 87 (-184) 148 _ ltac:(lia) ltac:(lia) Hn)
              ltac:(fold w; lra)) as [Hr1 Hr2].
  fold w in Hr1, Hr2. fold m in Hr1, Hr2.
  split.
  - split.
    + apply Z.lt_succ_r, lt_IZR. rewrite succ_IZR. lra.
    + apply Z.lt_succ_r, lt_IZR. rewrite succ_IZR. lra.
  - assert (IZR m * IZR c - IZR c / 2 <= w * IZR c) as A1 by nra.
    assert (w * IZR c < IZR m * IZR c + IZR c / 2) as A2 by nra.
    split.
    + apply Z.lt_succ_r, lt_IZR.
      rewrite succ_IZR, opp_IZR, !mult_IZR, minus_IZR, mult_IZR. lra.
    + apply Z.lt_succ_r, lt_IZR.
      rewrite succ_IZR, !mult_IZR, minus_IZR, mult_IZR. lra.
Qed.

End Means.

(** The mean colour of every bucket, for samples whose channels are
    bytes (fewer than 2^24 of them): each channel of the mean is a byte,
    so that [rgbToHex] never has to clamp it, and it is the integer
    nearest to the exact mean of the bucket, the division being done in
    binary64: twice its distance to the exact mean, times the count, is
    at most the count.  The count is carried over unchanged. *)
Theorem bucket_mean_nearest
    (Math_pow : float -> float -> float) (samples : list rgb) :
  Forall byte_sample samples ->
  (Z.of_nat (List.length samples) < 2 ^ 24)%Z ->
  Forall (fun e =>
            let v := snd e in
            let m := bucket_mean e in
            mean_count m = count v /\
            (0 <= mean_r m <= 255 /\ - count v <= 2 * (mean_r m * count v - rSum v) <= count v) /\
            (0 <= mean_g m <= 255 /\ - count v <= 2 * (mean_g m * count v - gSum v) <= count v) /\
            (0 <= mean_b m <= 255 /\ - count v <= 2 * (mean_b m * count v - bSum v) <= count v))%Z
         (fill_buckets Math_pow samples).
Proof.
  intros Hbytes Hlen.
  destruct (fill_buckets_counts Math_pow samples) as [C1 C2].
  destruct (fill_buckets_invariant Math_pow samples [] [] (FOP_nil _) (Forall_nil _))
    as (_ & _ & _ & _ & _ & I6).
  specialize (I6 Hbytes (Forall_nil _)). cbv zeta in I6.
  fold (fill_buckets Math_pow samples) in I6.
  set (buckets := fill_buckets Math_pow samples) in *.
  assert (Forall (fun n => 0 <= n)%Z (counts buckets)) as C0
    by (eapply Forall_impl; [ | exact C1]; intros; cbn in *; lia).
  apply Forall_forall. intros e He. cbv zeta.
  rewrite Forall_forall in I6, C1. destruct (I6 e He) as (Hr & Hg & Hb).
  assert (In (count (snd e)) (counts buckets)) as Hin
    by (unfold counts; now apply (in_map (fun e => count (snd e)))).
  pose proof (C1 _ Hin) as Hc1.
  pose proof (sumZ_in_le _ _ C0 Hin) as Hc2. rewrite C2 in Hc2.
  unfold bucket_mean. cbn [mean_r mean_g mean_b mean_count].
  split; [reflexivity | ].
  split; [ | split]; apply mean_rounds; lia.
Qed.

Lemma bucket_mean_nearest_witness :
  Forall (fun e =>
            let v := snd e in
            let m := bucket_mean e in
            mean_count m = count v /\
            (0 <= mean_r m <= 255 /\ - count v <= 2 * (mean_r m * count v - rSum v) <= count v) /\
            (0 <= mean_g m <= 255 /\ - count v <= 2 * (mean_g m * count v - gSum v) <= count v) /\
            (0 <= mean_b m <= 255 /\ - count v <= 2 * (mean_b m * count v - bSum v) <= count v))%Z
         (fill_buckets pow_square two_samples).
Proof.
  apply bucket_mean_nearest.
  - repeat constructor; cbn; lia.
  - cbn. lia.
Defined.

(* ================================================================= *)
(** ** The dominant colours of a raster of the pipeline *)

Lemma filter_map_length {A B : Type} (f : A -> option B) (l : list A) :
  (List.length (filter_map f l) <= List.length l)%nat.
Proof.
  induction l as [ | x l IH]; cbn [filter_map List.length]; [lia | ].
  destruct (f x); cbn [List.length]; lia.
Qed.

Lemma grid_length (xs ys : list Z) :
  List.length (grid xs ys) = (List.length ys * List.length xs)%nat.
Proof.
  unfold grid. induction ys as [ | y ys IH]; cbn [flat_map List.length]; [reflexivity | ].
  rewrite length_app, length_map, IH. lia.
Qed.

(** The central rectangle of a raster of the pipeline has fewer than
    282 columns. *)
Lemma central_span (n : Z) :
  (0 <= n <= 280)%Z -> (0 <= (xMax n - xMin n + 1) / 2 <= 141)%Z.
Proof.
  intros H.
  assert (forallb (fun n => (0 <=? (xMax n - xMin n + 1) / 2)%Z &&
                            ((xMax n - xMin n + 1) / 2 <=? 141)%Z)
            (range 0 281) = true) as Hall by (vm_compute; reflexivity).
  rewrite forallb_forall in Hall.
  specialize (Hall n ltac:(apply in_range; lia)).
  apply andb_true_iff in Hall as [H1 H2]. apply Z.leb_le in H1, H2. lia.
Qed.

(** The sampler yields fewer than 2^24 samples on a raster of the
    pipeline, whatever the buffer holds. *)
Lemma collect_samples_length (pixels : list Z) (width height : Z) :
  (0 <= width <= 280)%Z -> (0 <= height <= 280)%Z ->
  (Z.of_nat (List.length (collect_samples pixels width height)) < 2 ^ 24)%Z.
Proof.
  intros Hw Hh.
  assert (List.length (annulus_samples pixels width height) <= 280 * 280)%nat as Ha.
  { unfold annulus_samples.
    etransitivity; [apply filter_map_length | ].
    rewrite grid_length. unfold range. rewrite !length_map, !length_seq. nia. }
  assert (List.length (fallback_samples pixels width height) <= 141 * 141)%nat as Hf.
  { unfold fallback_samples, fallback_grid.
    etransitivity; [apply filter_map_length | ].
    rewrite grid_length. unfold stride2. rewrite !length_map, !length_seq.
    pose proof (central_span width Hw). pose proof (central_span height Hh).
    change (yMax height) with (xMax height). change (yMin height) with (xMin height).
    nia. }
  unfold collect_samples. destruct (_ <? 20)%nat; rewrite ?length_app; lia.
Qed.

(** The shares of the colours of a non-empty sample set. *)
Lemma cluster_shares
    (Math_pow : float -> float -> float) (numColors : nat) (samples : list rgb) :
  samples <> [] -> (1 <= numColors)%nat ->
  (Z.of_nat (List.length samples) < 2 ^ 32)%Z ->
  let out := cluster Math_pow numColors samples in
  out <> [] /\ (List.length out <= numColors)%nat /\
  Forall (fun d => 0 <= percentage d <= 100)%Z out /\
  (Z.abs (sumZ (map percentage out) - 100) <= Z.of_nat (List.length out))%Z /\
  StronglySorted (fun a b => percentage b <= percentage a)%Z out.
Proof.
  intros Hne Hn Hlen out. unfold cluster in out.
  destruct (fill_buckets_counts Math_pow samples) as [Hpos Hsum].
  set (buckets := fill_buckets Math_pow samples) in *.
  set (all := sort_by more_pixels (map bucket_mean buckets)) in *.
  set (sel := firstn numColors all) in *.
  set (total := sumZ (map mean_count sel)) in *.
  assert (Permutation (map mean_count all) (counts buckets)) as Hperm
    by (unfold all, counts; rewrite sort_by_perm, map_map; reflexivity).
  assert (Forall (fun n => 1 <= n)%Z (map mean_count all)) as Hall1
    by (eapply Permutation_Forall; [symmetry; exact Hperm | exact Hpos]).
  assert (Forall (fun n => 0 <= n)%Z (map mean_count all)) as Hall0
    by (eapply Forall_impl; [ | exact Hall1]; intros; cbn in *; lia).
  assert (sumZ (map mean_count all) = Z.of_nat (List.length samples)) as Hallsum
    by (rewrite (sumZ_perm _ _ Hperm); exact Hsum).
  assert (sel <> []) as Hselne.
  { unfold sel. destruct all as [ | a all'].
    - change (sumZ (map mean_count [])) with 0%Z in Hallsum.
      destruct samples; [congruence | cbn in Hallsum; lia].
    - destruct numColors; [lia | discriminate]. }
  assert (total <= Z.of_nat (List.length samples))%Z as Htotal
    by (unfold total, sel; rewrite <- firstn_map, <- Hallsum; now apply sumZ_firstn_le).
  assert (forall s, In s sel -> 1 <= mean_count s <= total)%Z as Hcount.
  { intros s Hs. rewrite Forall_forall in Hall1, Hall0. split.
    - apply Hall1, in_map, (in_firstn numColors), Hs.
    - apply sumZ_in_le; [ | now apply in_map].
      apply Forall_forall. intros c Hc. apply in_map_iff in Hc as (s' & <- & Hs').
      apply Hall0, in_map, (in_firstn numColors), Hs'. }
  assert (Forall (fun c => 1 <= c <= total)%Z (map mean_count sel)) as Hcounts
    by (apply Forall_forall; intros c Hc; apply in_map_iff in Hc as (s & <- & Hs);
        apply Hcount, Hs).
  assert (total < 2 ^ 32)%Z as HT by lia.
  assert (out = map (fun s => mkDominant (rgbToHex (mean_r s) (mean_g s) (mean_b s))
                                         (percent (mean_count s) total)) sel) as Hout
    by reflexivity.
  clearbody out. subst out.
  split; [destruct sel; [congruence | discriminate] | ].
  split; [rewrite length_map; unfold sel; rewrite length_firstn; lia | ].
  split.
  { apply Forall_forall. intros d Hd. apply in_map_iff in Hd as (s & <- & Hs).
    cbn [percentage]. apply percent_bounds; [apply Hcount, Hs | exact HT]. }
  split.
  { rewrite map_map. cbn [percentage]. rewrite length_map.
    pose proof (sum_percent_close (map mean_count sel) total Hcounts HT) as Hclose.
    rewrite map_map, length_map in Hclose. fold total in Hclose.
    assert (1 <= total)%Z as Htot1
      by (destruct sel as [ | s sel']; [congruence | ];
          specialize (Hcount s (or_introl eq_refl)); lia).
    set (S := sumZ (map (fun s => percent (mean_count s) total) sel)) in *.
    set (N := Z.of_nat (List.length sel)) in *.
    assert (0 <= N)%Z by (subst N; lia).
    clearbody S N. nia. }
  apply (StronglySorted_map (fun a b => mean_count b <= mean_count a)%Z).
  - intros a b Ha Hb Hab. cbn [percentage].
    apply percent_mono; [ | apply Hcount, Ha | exact HT].
    split; [apply Hcount, Hb | exact Hab].
  - apply StronglySorted_firstn, Sorted_StronglySorted; [intros a b c; lia | ].
    apply (sort_by_sorted more_pixels (fun _ => True)).
    + intros a b _ _ H. unfold more_pixels in H. apply Z.ltb_lt in H. lia.
    + intros a b _ _ H. unfold more_pixels in H. apply Z.ltb_ge in H. lia.
    + apply Forall_forall. auto.
Qed.

(** The shares [getDominantColors] returns on a raster of the pipeline. *)
Lemma getDominantColors_percentages
    (Math_pow : float -> float -> float) (pixels : list Z) (width height : Z)
    (numColors : nat) :
  (0 <= width <= 280)%Z -> (0 <= height <= 280)%Z -> (1 <= numColors)%nat ->
  let out := getDominantColors Math_pow pixels width height numColors in
  out <> [] /\ (List.length out <= numColors)%nat /\
  Forall (fun d => 0 <= percentage d <= 100)%Z out /\
  (Z.abs (sumZ (map percentage out) - 100) <= Z.of_nat (List.length out))%Z /\
  StronglySorted (fun a b => percentage b <= percentage a)%Z out.
Proof.
  intros Hw Hh Hn out. unfold getDominantColors in out.
  pose proof (collect_samples_length pixels width height Hw Hh) as Hlen.
  destruct (collect_samples pixels width height) as [ | c samples] eqn:E.
  - subst out. split; [discriminate | ]. split; [cbn; lia | ].
    split; [repeat constructor; cbn; lia | ].
    split; [cbn; lia | repeat constructor].
  - apply cluster_shares; [discriminate | exact Hn | lia].
Qed.

(** [getDominantColors] as a whole, on a raster of the pipeline (at most
    280 pixels a side) and whatever the buffer holds, the two fallbacks
    included: between one and [numColors] colours come back; every
    percentage is between 0 and 100; the percentages are in descending
    order and add up to 100 within the number of colours; and every hex
    is a string [hexToRgb] reads, which [rgbToHex] writes back
    unchanged. *)
Theorem getDominantColors_pipeline
    (Math_pow : float -> float -> float) (pixels : list Z) (width height : Z)
    (numColors : nat) :
  (0 <= width <= 280)%Z -> (0 <= height <= 280)%Z -> (1 <= numColors)%nat ->
  let out := getDominantColors Math_pow pixels width height numColors in
  out <> [] /\ (List.length out <= numColors)%nat /\
  Forall (fun d => 0 <= percentage d <= 100)%Z out /\
  (Z.abs (sumZ (map percentage out) - 100) <= Z.of_nat (List.length out))%Z /\
  StronglySorted (fun a b => percentage b <= percentage a)%Z out /\
  Forall (fun d => exists c, hexToRgb (d_hex d) = Some c /\
                             rgbToHex (red c) (green c) (blue c) = d_hex d) out.
Proof.
  intros Hw Hh Hn out.
  destruct (getDominantColors_percentages Math_pow pixels width height numColors
              Hw Hh Hn) as (H1 & H2 & H3 & H4 & H5).
  fold out in H1, H2, H3, H4, H5.
  repeat (split; [assumption | ]).
  subst out. unfold getDominantColors.
  destruct (collect_samples pixels width height) as [ | c samples].
  - repeat constructor. exists (mkRgb 112 128 144). now split.
  - unfold cluster. apply Forall_forall. intros d Hd.
    apply in_map_iff in Hd as (s & <- & _). cbn [d_hex].
    eexists. split; [apply hexToRgb_clamped | ].
    cbn [red green blue]. unfold rgbToHex.
    now rewrite <- !channel_hex_clamp.
Qed.

Lemma getDominantColors_pipeline_witness :
  let out := getDominantColors pow_square one_red_pixel 4 4 10 in
  out <> [] /\ (List.length out <= 10)%nat /\
  Forall (fun d => 0 <= percentage d <= 100)%Z out /\
  (Z.abs (sumZ (map percentage out) - 100) <= Z.of_nat (List.length out))%Z /\
  StronglySorted (fun a b => percentage b <= percentage a)%Z out /\
  Forall (fun d => exists c, hexToRgb (d_hex d) = Some c /\
                             rgbToHex (red c) (green c) (blue c) = d_hex d) out.
Proof. apply getDominantColors_pipeline; lia. Defined.

(* ================================================================= *)
(** ** The upload endpoint *)

Lemma starts_with_app (t s q : string) :
  Str.starts_with t s = true -> Str.starts_with t (s ++ q) = true.
Proof.
  revert s. induction t as [ | c t IH]; intros s H; [reflexivity | ].
  destruct s as [ | d s]; [discriminate | ].
  cbn [String.append Str.starts_with] in *.
  apply andb_true_iff in H as [-> H]. now rewrite (IH s H).
Qed.

Lemma includes_app_r (s q t : string) :
  Str.includes s t = true -> Str.includes (s ++ q) t = true.
Proof.
  induction s as [ | d s IH]; cbn [Str.includes String.append]; intros H.
  - rewrite orb_false_r in H.
    destruct t as [ | c t]; [ | discriminate].
    destruct q; reflexivity.
  - apply orb_true_iff in H as [H | H].
    + apply (starts_with_app t (String d s) q) in H.
      cbn [String.append] in H. now rewrite H.
    + rewrite (IH H). apply orb_true_r.
Qed.

Lemma includes_app_l (p s t : string) :
  Str.includes s t = true -> Str.includes (p ++ s) t = true.
Proof.
  intros H. induction p as [ | c p IH]; [exact H | ].
  cbn [String.append Str.includes]. rewrite IH. apply orb_true_r.
Qed.

(** The type filter of the upload is a search, not a comparison: a type
    it accepts is still accepted with anything put before it and after
    it, so a type that merely contains [image/png], say, passes. *)
Theorem fileFilter_unanchored (before mimetype after : string) :
  Server.fileFilter mimetype = inr true ->
  Server.fileFilter (before ++ mimetype ++ after) = inr true.
Proof.
  unfold Server.fileFilter. intros H.
  destruct (Server.allowed mimetype) eqn:E; [clear H | discriminate].
  assert (Server.allowed (before ++ mimetype ++ after) = true) as ->; [ | reflexivity].
  unfold Server.allowed in *. apply existsb_exists in E as (t & Ht & E).
  apply existsb_exists. exists t. split; [exact Ht | ].
  now apply includes_app_l, includes_app_r.
Qed.

Lemma fileFilter_unanchored_witness :
  Server.fileFilter "application/x-image/png-archive" = inr true.
Proof.
  apply (fileFilter_unanchored "application/x-" "image/png" "-archive"). reflexivity.
Defined.

Lemma drop_prefix_app (p s : string) : Server.drop_prefix p (p ++ s) = Some s.
Proof.
  induction p as [ | c p IH]; [reflexivity | ].
  cbn [String.append Server.drop_prefix]. now rewrite Ascii.eqb_refl.
Qed.

Lemma skip_word_app (w s : string) :
  (forall c, In c (list_ascii_of_string w) -> Server.word_char c = true) ->
  Server.skip_word (w ++ String ";" s) = String ";" s.
Proof.
  induction w as [ | c w IH]; intros H; [reflexivity | ].
  cbn [String.append Server.skip_word].
  rewrite (H c) by (now left). apply IH. intros d Hd. apply H. now right.
Qed.

(** The prefix of a data URL comes off: for a type made of one or more
    [\w] characters, whatever the payload, [data:image/<type>;base64,]
    followed by the payload is replaced by the payload alone.  This is
    the form in which the page sends the captured frame. *)
Theorem strip_data_url_payload (type payload : string) :
  type <> EmptyString ->
  (forall c, In c (list_ascii_of_string type) -> Server.word_char c = true) ->
  Server.strip_data_url ("data:image/" ++ type ++ ";base64," ++ payload) = payload.
Proof.
  intros Hne Hword. unfold Server.strip_data_url.
  rewrite drop_prefix_app.
  destruct type as [ | c type]; [congruence | ].
  cbn [String.append]. rewrite (Hword c) by (now left).
  rewrite skip_word_app by (intros d Hd; apply Hword; now right).
  reflexivity.
Qed.

Lemma strip_data_url_payload_witness :
  Server.strip_data_url "data:image/jpeg;base64,/9j/4AAQSkZJRg==" = "/9j/4AAQSkZJRg=="%string.
Proof.
  apply (strip_data_url_payload "jpeg" "/9j/4AAQSkZJRg=="); [discriminate | ].
  intros c Hc. cbn in Hc.
  repeat (destruct Hc as [<- | Hc]; [reflexivity | ]). contradiction.
Defined.

(* ================================================================= *)
(** ** The report of an analysis *)

Section EntryPointFacts.

Variable Math_pow : float -> float -> float.
Variable pantoneData : list pantone.
Variable sharp_metadata : list Z -> option (option Z * option Z).
Variable sharp_resize_raw : list Z -> Z -> Z -> option (list Z).

(** The working size is between 1 and 280 whenever the dimension of the
    metadata is missing or not negative. *)
Lemma working_size (d : option Z) :
  (forall w, d = Some w -> 0 <= w)%Z -> (1 <= Z.min 280 (or_400 d) <= 280)%Z.
Proof.
  intros H. destruct d as [w | ]; cbn [or_400]; [ | lia].
  specialize (H w eq_refl). destruct w; lia.
Qed.

(** Every analysis that completes, of any image and with any table,
    gives a report with these properties: the breakdown has between one
    and ten colours, in descending order of percentages that lie between
    0 and 100 and add up to 100 within ten; the named shades are in
    descending order of shares that are positive and add up to what the
    percentages add up to, no name occurring twice; and the general
    colour is named after one of the seven categories.  The codec is
    assumed to report dimensions that are not negative. *)
Theorem analyzeEyeColor_report (imageBuffer : list Z) (r : report) :
  (forall m w, sharp_metadata imageBuffer = Some m ->
               fst m = Some w \/ snd m = Some w -> 0 <= w)%Z ->
  analyzeEyeColor Math_pow pantoneData sharp_metadata sharp_resize_raw imageBuffer
  = Some r ->
  let percentages := map b_percentage (breakdown r) in
  let shares := map s_percentage (shadeBreakdown r) in
  (1 <= List.length (breakdown r) <= 10)%nat /\
  Forall (fun p => 0 <= p <= 100)%Z percentages /\
  StronglySorted (fun p q => q <= p)%Z percentages /\
  (Z.abs (sumZ percentages - 100) <= 10)%Z /\
  Forall (fun s => 0 < s)%Z shares /\
  StronglySorted (fun s t => t <= s)%Z shares /\
  sumZ shares = sumZ percentages /\
  NoDup (map s_name (shadeBreakdown r)) /\
  In (generalColor_name r) (map cat_name categories) /\
  colorCode r = generalColor_hex r.
Proof.
  intros Hdims Hr percentages shares. unfold analyzeEyeColor in Hr.
  destruct (sharp_metadata imageBuffer) as [[mw mh] | ] eqn:Em; [ | discriminate].
  cbn [fst snd] in Hr.
  pose proof (working_size mw (fun w E => Hdims _ w eq_refl (or_introl E))) as Hw.
  pose proof (working_size mh (fun w E => Hdims _ w eq_refl (or_intror E))) as Hh.
  set (resizedW := Z.min 280 (or_400 mw)) in *.
  set (resizedH := Z.min 280 (or_400 mh)) in *.
  destruct (sharp_resize_raw imageBuffer resizedW resizedH) as [data | ];
    [ | discriminate].
  injection Hr as <-. unfold analyze in percentages, shares |- *.
  destruct (getDominantColors_percentages Math_pow data resizedW resizedH 10
              ltac:(lia) ltac:(lia) ltac:(lia)) as (D1 & D2 & D3 & D4 & D5).
  cbv zeta in D1, D2, D3, D4, D5.
  set (dominantColors := getDominantColors Math_pow data resizedW resizedH 10) in *.
  destruct (named_shares Math_pow pantoneData dominantColors)
    as (S1 & S2 & S3 & S5).
  cbv zeta in S1, S2, S3, S5.
  set (shades := buildNamedShadeBreakdown Math_pow pantoneData dominantColors) in *.
  cbn [breakdown shadeBreakdown generalColor_name colorCode generalColor_hex]
    in percentages, shares |- *.
  assert (percentages = map percentage dominantColors) as Hp
    by (unfold percentages; now rewrite map_map).
  rewrite Hp. clear Hp percentages.
  rewrite length_map.
  split. { destruct dominantColors; [congruence | cbn in *; lia]. }
  split. { apply Forall_forall. intros p Hp. apply in_map_iff in Hp as (d & <- & Hd).
           rewrite Forall_forall in D3. now apply D3. }
  split. { apply (StronglySorted_map (fun a b => percentage b <= percentage a)%Z);
           [auto | exact D5]. }
  split; [lia | ].
  split. { apply Forall_forall. intros s Hs. apply in_map_iff in Hs as (e & <- & He).
           rewrite Forall_forall in S2. now apply S2. }
  split. { apply (StronglySorted_map (fun a b => s_percentage b <= s_percentage a)%Z);
           [auto | exact S1]. }
  split. { apply S5. eapply Forall_impl; [ | exact D3]. cbn. intros; lia. }
  split; [exact S3 | ].
  split; [apply in_map, pickGeneralColor_category | reflexivity].
Qed.

End EntryPointFacts.

Lemma analyzeEyeColor_report_witness :
  exists r,
    analyzeEyeColor pow_square two_entry_table metadata_4x4 (raster_of one_red_pixel) []
    = Some r /\
    (1 <= List.length (breakdown r) <= 10)%nat /\
    (Z.abs (sumZ (map b_percentage (breakdown r)) - 100) <= 10)%Z /\
    sumZ (map s_percentage (shadeBreakdown r)) = sumZ (map b_percentage (breakdown r)).
Proof.
  eexists. split; [reflexivity | ].
  destruct (analyzeEyeColor_report pow_square two_entry_table metadata_4x4
              (raster_of one_red_pixel) [] _
              ltac:(intros m w [= <-] [[= <-] | [= <-]]; lia) eq_refl)
    as (H1 & _ & _ & H4 & _ & _ & H7 & _).
  repeat split; assumption || apply H1.
Defined.

(* ================================================================= *)
(** ** The earlier analyzer against the later one *)

Section Versions.

Local Open Scope float_scope.

(** A hue at least [k] is not below a bound that is at most [k]. *)
Lemma not_below (b k h : float) :
  (b <=? k) = true -> (k <=? h) = true -> (h <? b) = false.
Proof.
  intros Hbk Hkh. apply leb_not_ltb. now apply (leb_trans b k h).
Qed.

(** A hue at most [k] is not at least a bound above [k]. *)
Lemma not_above (k b h : float) :
  (k <? b) = true -> (h <=? k) = true -> (b <=? h) = false.
Proof.
  intros Hkb Hhk. destruct (b <=? h) eqn:E; [ | reflexivity].
  pose proof (leb_trans b h k E Hhk) as H.
  now rewrite (ltb_not_leb k b Hkb) in H.
Qed.

(** The two classifiers agree on the name of every colour outside the
    violet band of the later one; inside it (saturation at least 0.1 and
    hue between 260 and 300) the later one answers Violet where the
    earlier one answered Blue up to the hue 280 and Gray above. *)
Theorem classify_hsl_versions (c : hsl) :
  let earlier := Legacy.cat_name (Legacy.classify_hsl c) in
  let later := cat_name (classify_hsl c) in
  if negb (sat c <? 0.1) && ((260 <=? hue c) && (hue c <=? 300))
  then later = "Violet"%string /\
       earlier = (if hue c <=? 280 then "Blue"%string else "Gray"%string)
  else later = earlier.
Proof.
  unfold Legacy.classify_hsl, classify_hsl. cbv zeta.
  destruct (sat c <? 0.1) eqn:Es; [reflexivity | ]. cbn [negb andb].
  set (h := hue c).
  destruct ((260 <=? h) && (h <=? 300)) eqn:V.
  - apply andb_true_iff in V as [A260 A300]. split; [reflexivity | ].
    destruct (h <=? 280) eqn:A280.
    + now rewrite (leb_trans 200 260 h eq_refl A260).
    + rewrite andb_false_r.
      rewrite (not_below 200 260 h eq_refl A260), (not_below 170 260 h eq_refl A260),
              (not_below 80 260 h eq_refl A260), (not_below 50 260 h eq_refl A260),
              (not_below 35 260 h eq_refl A260), (not_below 20 260 h eq_refl A260),
              (not_above 300 340 h eq_refl A300).
      rewrite !andb_false_r. cbn [andb].
      destruct (h <=? 270) eqn:A270;
        [now rewrite (leb_trans h 270 280 A270 eq_refl) in A280 | ].
      now rewrite andb_false_r.
  - assert ((200 <=? h) && (h <? 260) = (200 <=? h) && (h <=? 280)) as ->.
    { destruct (200 <=? h) eqn:A200; [cbn [andb] | reflexivity].
      destruct (h <? 260) eqn:B260.
      - symmetry. apply (leb_trans h 260 280); [now apply ltb_leb | reflexivity].
      - destruct (h <=? 280) eqn:A280; [ | reflexivity].
        apply leb_fnum in A200 as [_ Hh].
        rewrite (ltb_false_leb h 260 Hh ltac:(discriminate) B260) in V.
        now rewrite (leb_trans h 280 300 A280 eq_refl) in V. }
    repeat match goal with
    | |- context [if ?b then _ else _] => destruct b
    end; reflexivity.
Qed.

End Versions.

(* ================================================================= *)
(** ** The earlier clusterer and the earlier distance *)

(** The centre of the cell of a byte, as [rgbToHex] reads it: 12 above
    the multiple of 24 below the byte. *)
Lemma centre_channel (v : Z) :
  (0 <= v <= 255)%Z -> Legacy.channel_of (Legacy.centre v) = (24 * (v / 24) + 12)%Z.
Proof.
  intros H.
  assert (forallb (fun v => (Legacy.channel_of (Legacy.centre v) =? 24 * (v / 24) + 12)%Z)
            (range 0 256) = true) as Hall by (vm_compute; reflexivity).
  rewrite forallb_forall in Hall.
  apply Z.eqb_eq, Hall, in_range. lia.
Qed.

Lemma px_byte (pixels : list Z) (i : Z) :
  Forall (fun v => 0 <= v <= 255)%Z pixels -> (0 <= px pixels i <= 255)%Z.
Proof.
  intros H. unfold px.
  destruct (nth_in_or_default (Z.to_nat i) pixels 0%Z) as [Hin | ->]; [ | lia].
  rewrite Forall_forall in H. now apply H.
Qed.

Lemma legacy_samples_bytes (pixels : list Z) (width height : Z) :
  Forall (fun v => 0 <= v <= 255)%Z pixels ->
  Forall byte_sample (Legacy.collect_samples pixels width height).
Proof.
  intros Hb.
  assert (forall i, byte_sample (mkRgb (px pixels i) (px pixels (i + 1)) (px pixels (i + 2))))
    as Hpx by (intros i; unfold byte_sample; cbn [red green blue];
               repeat split; apply px_byte, Hb).
  assert (Forall byte_sample (Legacy.centre_samples pixels width height)) as Hc.
  { apply Forall_forall. intros c Hin.
    apply in_filter_map in Hin as ([x y] & _ & Hsome).
    unfold Legacy.centre_pixel in Hsome.
    repeat match type of Hsome with
    | (if ?b then _ else _) = _ => destruct b; [discriminate | ]
    end.
    injection Hsome as <-. apply Hpx. }
  assert (Forall byte_sample (Legacy.buffer_samples pixels)) as Hf.
  { apply Forall_forall. intros c Hin.
    apply in_filter_map in Hin as (k & _ & Hsome).
    unfold Legacy.buffer_pixel in Hsome.
    repeat match type of Hsome with
    | (if ?b then _ else _) = _ => destruct b; [discriminate | ]
    end.
    injection Hsome as <-. apply Hpx. }
  unfold Legacy.collect_samples.
  destruct (Legacy.centre_samples pixels width height); assumption.
Qed.

(** Every cell carries the centres of one of the samples. *)
Lemma legacy_cells (samples seen : list rgb)
    (acc : list (float * float * float * Legacy.cell)) :
  let centred := fun (l : list rgb) (e : float * float * float * Legacy.cell) =>
    exists c, In c l /\
      Legacy.cell_r (snd e) = Legacy.centre (red c) /\
      Legacy.cell_g (snd e) = Legacy.centre (green c) /\
      Legacy.cell_b (snd e) = Legacy.centre (blue c) in
  Forall (centred seen) acc ->
  Forall (centred (seen ++ samples))
    (fold_left (fun buckets c => Legacy.add_sample (Legacy.cell_key c) c buckets)
               samples acc).
Proof.
  intros centred. revert seen acc.
  induction samples as [ | c samples IH]; intros seen acc H.
  - now rewrite app_nil_r.
  - cbn [fold_left].
    replace (seen ++ c :: samples) with ((seen ++ [c]) ++ samples)
      by (now rewrite <- app_assoc).
    apply IH. clear IH.
    assert (forall e, centred seen e -> centred (seen ++ [c]) e) as Hmono.
    { intros e (c' & Hin & Hc'). exists c'. split; [apply in_or_app; now left | exact Hc']. }
    induction H as [ | [k' v] rest Hv Hrest IHr]; cbn [Legacy.add_sample].
    + constructor; [ | constructor]. exists c.
      split; [apply in_or_app; right; now left | now repeat split].
    + destruct (same_key (Legacy.cell_key c) k').
      * constructor; [ | eapply Forall_impl; [exact Hmono | exact Hrest]].
        destruct (Hmono _ Hv) as (c' & Hin & Hc'). exists c'. split; [exact Hin | exact Hc'].
      * constructor; [now apply Hmono | exact IHr].
Qed.

(** The colours the earlier [getDominantColors] returns, for a buffer of
    bytes: each is the stand-in [#708090] of the empty case or the
    centre of the cell of one of the samples, every channel 12 above a
    multiple of 24 and so within 12 of the channel of that sample. *)
Theorem legacy_dominant_lattice
    (pixels : list Z) (width height : Z) (numColors : nat) :
  Forall (fun v => 0 <= v <= 255)%Z pixels ->
  Forall (fun d =>
            d_hex d = "#708090"%string \/
            exists c, In c (Legacy.collect_samples pixels width height) /\
                      d_hex d = rgbToHex (24 * (red c / 24) + 12)
                                         (24 * (green c / 24) + 12)
                                         (24 * (blue c / 24) + 12))%Z
         (Legacy.getDominantColors pixels width height numColors).
Proof.
  intros Hb. unfold Legacy.getDominantColors.
  pose proof (legacy_samples_bytes pixels width height Hb) as Hbytes.
  destruct (Legacy.collect_samples pixels width height) as [ | c0 samples] eqn:E.
  { constructor; [now left | constructor]. }
  set (all := c0 :: samples) in *. unfold Legacy.cluster.
  pose proof (legacy_cells all [] [] (Forall_nil _)) as Hcells.
  cbv zeta in Hcells. cbn [app] in Hcells. fold (Legacy.fill_buckets all) in Hcells.
  apply Forall_forall. intros d Hd.
  apply in_map_iff in Hd as (s & <- & Hs). cbn [d_hex]. right.
  apply in_firstn in Hs.
  apply (Permutation_in _ (sort_by_perm Legacy.more_pixels _)) in Hs.
  apply in_map_iff in Hs as (e & <- & He).
  rewrite Forall_forall in Hcells, Hbytes.
  destruct (Hcells e He) as (c & Hc & -> & -> & ->).
  destruct (Hbytes c Hc) as (Hr & Hg & Hbl).
  exists c. split; [exact Hc | ].
  now rewrite !centre_channel.
Qed.

Lemma legacy_dominant_lattice_witness :
  Forall (fun d =>
            d_hex d = "#708090"%string \/
            exists c, In c (Legacy.collect_samples one_red_pixel 4 4) /\
                      d_hex d = rgbToHex (24 * (red c / 24) + 12)
                                         (24 * (green c / 24) + 12)
                                         (24 * (blue c / 24) + 12))%Z
         (Legacy.getDominantColors one_red_pixel 4 4 8).
Proof.
  apply legacy_dominant_lattice.
  apply Forall_forall. intros v Hv. vm_compute in Hv.
  repeat (destruct Hv as [<- | Hv]; [lia | ]). contradiction.
Defined.

Section LegacyDistance.

Local Open Scope float_scope.

Variable Math_pow : float -> float -> float.

Hypothesis pow_zero : Math_pow 0 2 = 0.
Hypothesis pow_even : forall d, Math_pow (- d) 2 = Math_pow d 2.

Lemma opp_involutive (x : float) : - - x = x.
Proof. apply Prim2SF_inj. rewrite !opp_spec. apply SFopp_involutive. Qed.

Lemma square_of_int_opp (z : Z) :
  Math_pow (JS.of_int (- z)) 2 = Math_pow (JS.of_int z) 2.
Proof.
  destruct z as [ | p | p]; [reflexivity | | ].
  - change (JS.of_int (- Z.pos p)) with (- JS.of_int (Z.pos p)). apply pow_even.
  - change (JS.of_int (Z.neg p)) with (- JS.of_int (- Z.neg p)).
    now rewrite pow_even.
Qed.

(** The earlier distance, on the integer channels: a colour is at
    distance 0 from itself, with no condition on the colour, and the
    distance is symmetric.  [Math.pow] is assumed to give
    [pow(0, 2) = 0] and [pow(-d, 2) = pow(d, 2)]. *)
Theorem legacy_colorDistance :
  (forall hex c, hexToRgb hex = Some c -> Legacy.colorDistance Math_pow hex hex = 0) /\
  (forall hex1 hex2,
     Legacy.colorDistance Math_pow hex1 hex2 = Legacy.colorDistance Math_pow hex2 hex1).
Proof.
  split.
  - intros hex c H. unfold Legacy.colorDistance. rewrite H.
    rewrite !Z.sub_diag. change (JS.of_int 0) with 0. rewrite pow_zero. reflexivity.
  - intros hex1 hex2. unfold Legacy.colorDistance.
    destruct (hexToRgb hex1) as [a | ], (hexToRgb hex2) as [b | ]; try reflexivity.
    rewrite <- (square_of_int_opp (red a - red b)),
            <- (square_of_int_opp (green a - green b)),
            <- (square_of_int_opp (blue a - blue b)).
    now rewrite !Z.opp_sub_distr, !Z.add_opp_l.
Qed.

End LegacyDistance.

Lemma legacy_colorDistance_witness :
  Legacy.colorDistance pow_square "#708090" "#708090" = 0%float /\
  Legacy.colorDistance pow_square "#4682B4" "#634E34"
  = Legacy.colorDistance pow_square "#634E34" "#4682B4".
Proof.
  destruct (legacy_colorDistance pow_square eq_refl (fun d => mul_opp_opp d)) as [H1 H2].
  split; [apply (H1 _ (mkRgb 112 128 144)); reflexivity | apply H2].
Defined.

(* ================================================================= *)
(** ** The sections of the page *)

(** What holds of the page after any sequence of events, whatever the
    classes of the elements were when it loaded: the preview section is
    never shown (nothing in the script shows it, so its two buttons are
    out of reach); exactly one of the camera section and the results
    section is shown; and the loading line shows only inside the results
    section and while a request is in flight. *)
Theorem page_sections (classes : Page.element -> bool) (events : list Page.event) :
  let st := Page.run classes events in
  Page.hidden st Page.previewSection = true /\
  Page.hidden st Page.cameraSection = negb (Page.hidden st Page.resultsSection) /\
  (Page.hidden st Page.resultsLoading = false ->
   Page.hidden st Page.resultsSection = false /\ Page.in_flight st <> []).
Proof.
  unfold Page.run.
  assert (forall st,
    (Page.hidden st Page.previewSection = true /\
     Page.hidden st Page.cameraSection = negb (Page.hidden st Page.resultsSection) /\
     (Page.hidden st Page.resultsLoading = false ->
      Page.hidden st Page.resultsSection = false /\ Page.in_flight st <> [])) ->
    let st' := fold_left (fun st ev => Page.handle ev st) events st in
    Page.hidden st' Page.previewSection = true /\
    Page.hidden st' Page.cameraSection = negb (Page.hidden st' Page.resultsSection) /\
    (Page.hidden st' Page.resultsLoading = false ->
     Page.hidden st' Page.resultsSection = false /\ Page.in_flight st' <> [])) as Hgen.
  { induction events as [ | ev events IH]; intros st H; [exact H | ].
    cbn [fold_left]. apply IH. clear IH.
    pose proof H as (H1 & H2 & H3).
    destruct ev; cbn [Page.handle].
    - unfold Page.runAnalysis. cbn [Page.capturedDataUrl Page.hidden Page.in_flight].
      destruct frame; [exact H | ].
      cbn. repeat split; discriminate.
    - cbn. repeat split; discriminate.
    - destruct (Page.capturedDataUrl st) as [[ | a url] | ] eqn:E; try exact H.
      unfold Page.runAnalysis. rewrite E. cbn. repeat split; discriminate.
    - cbn. repeat split; discriminate.
    - destruct (nth_error (Page.in_flight st) n); [ | exact H].
      cbn. repeat split; try assumption; discriminate.
    - destruct (nth_error (Page.in_flight st) n); [ | exact H].
      cbn. repeat split; try assumption; discriminate. }
  apply Hgen. cbn. repeat split; discriminate.
Qed.
